(** * slicesutils: a shallow embedding of the Go package and its properties

    The package is a set of generic helpers over Go slices ([func_utils.go]),
    their push-iterator counterparts ([slicesutils1.23.go]) and a
    panic-to-error wrapper ([SafeExcecute]).  Slices are modelled as lists
    with index lookup and in-place update, Go's [int] as [Z] with the 64-bit
    wrap-around written out where the code does arithmetic, a panicking call
    as an [outcome], maps used as sets as [gset], and the worker pool of
    [ParallelMap] as a small-step transition system over thread schedules. *)

From Stdlib Require Import ZArith Lia.
From stdpp Require Import base option list gmap strings.

Open Scope Z_scope.
Open Scope nat_scope.

Module slicesutils.

(** ** Go values: errors, interface values, panics *)

(** Dynamic error values.  [ErrorString] is what [errors.New] and
    [fmt.Errorf] build, the other two are the run-time's own errors. *)
Inductive err_value : Type :=
  | ErrorString (msg : string)
  | RuntimeError (msg : string)
  | TypeAssertionError (concrete : string).

(** The interface type [error]; [None] is [nil]. *)
Definition error : Type := option err_value.

(** The method [Error() string]. *)
Definition Error (e : err_value) : string :=
  match e with
  | ErrorString msg => msg
  | RuntimeError msg => "runtime error: " +:+ msg
  | TypeAssertionError concrete =>
      "interface conversion: " +:+ concrete +:+ " is not error: missing method Error"
  end.

(** A non-nil value of type [any], as handed to [panic] and given back by
    [recover]: either it implements [error] or it does not. *)
Inductive any : Type :=
  | AnyError (e : err_value)
  | AnyString (s : string)
  | AnyInt (n : Z).

Definition dynamic_type (r : any) : string :=
  match r with
  | AnyError _ => "error"
  | AnyString _ => "string"
  | AnyInt _ => "int"
  end.

(** The single-value type assertion [r.(error)]: [None] when it fails, in
    which case the run-time panics with a [*runtime.TypeAssertionError]. *)
Definition assert_error (r : any) : option err_value :=
  match r with
  | AnyError e => Some e
  | AnyString _ | AnyInt _ => None
  end.

(** How a call ends: it returns, or it unwinds with a panic value. *)
Inductive outcome (A : Type) : Type :=
  | Returned (a : A)
  | Panicked (r : any).
Arguments Returned {A} a.
Arguments Panicked {A} r.

#[export] Instance outcome_ret : MRet outcome := @Returned.
#[export] Instance outcome_bind : MBind outcome := λ A B k m,
  match m with
  | Returned a => k a
  | Panicked r => Panicked r
  end.

Definition returns {A} (m : outcome A) : Prop := ∃ a, m = Returned a.

(** The zero value of a type, as in [var zero T]. *)
Class Zero (T : Type) := zero : T.
#[export] Instance Z_zero : Zero Z := 0%Z.
#[export] Instance bool_zero : Zero bool := false.

(** Go's [int]: 64 bits, two's complement. *)
Definition MaxInt : Z := 2 ^ 63 - 1.
Definition MinInt : Z := - 2 ^ 63.
Definition wrap (z : Z) : Z := ((z + 2 ^ 63) mod 2 ^ 64 - 2 ^ 63)%Z.
Definition int_add (a b : Z) : Z := wrap (a + b).
Definition int_sub (a b : Z) : Z := wrap (a - b).
(** [/] on [int] truncates towards zero. *)
Definition int_div (a b : Z) : Z := wrap (Z.quot a b).

(** ** SafeExcecute and SafeExcecuteWithStackTrace *)

Section SafeCall.
Context {T_out : Type} `{!Zero T_out}.

(** What [runtime.Stack] would write for the current goroutine. *)
Variable runtime_Stack : string.

(** [buff := make([]byte, 4096); n := runtime.Stack(buff, false);
    string(buff[:n])]. *)
Definition getErrWithStackTrace : string := String.substring 0 4096 runtime_Stack.

(** [output] and [err] are named results and start at their zero values.
    On a normal return they are assigned from [fn()] and [recover()] gives
    [nil] in the deferred closure.  When [fn] panics with [r] the assignment
    never happens, the deferred closure runs with [r != nil] and executes
    [err = r.(error)]; a failed assertion is a new panic raised inside the
    deferred call, which nothing recovers. *)
Definition SafeExcecute (fn : unit → outcome (T_out * error))
  : outcome (T_out * error) :=
  let output : T_out := zero in
  match fn () with
  | Returned (output, err) => Returned (output, err)
  | Panicked r =>
      match assert_error r with
      | Some e => Returned (output, Some e)
      | None => Panicked (AnyError (TypeAssertionError (dynamic_type r)))
      end
  end.

(** [fmt.Errorf("panic: %v\nStack trace:\n%s", err, getErrWithStackTrace())] *)
Definition panic_with_trace (e : err_value) : err_value :=
  ErrorString ("panic: " +:+ Error e +:+ "
Stack trace:
" +:+ getErrWithStackTrace).

Definition SafeExcecuteWithStackTrace (fn : unit → outcome (T_out * error))
  : outcome (T_out * error) :=
  let output : T_out := zero in
  match fn () with
  | Returned (output, err) => Returned (output, err)
  | Panicked r =>
      match assert_error r with
      | Some e => Returned (output, Some (panic_with_trace e))
      | None => Panicked (AnyError (TypeAssertionError (dynamic_type r)))
      end
  end.
End SafeCall.

(** ** Max *)

(** [maxValue := elements[0]; for _, num := range elements { if num >
    maxValue { maxValue = num } }]. *)
Definition Max (elements : list Z) : outcome Z :=
  match elements with
  | [] => Panicked (AnyString "No element provided to Max")
  | first :: _ =>
      Returned (foldl (λ maxValue num, if (num >? maxValue)%Z then num else maxValue)
                      first elements)
  end.

(** [MaxSeq], at type [int], on the sequence that yields [elements]:
    [iter.Pull] hands the elements out one by one, the first initialises
    [mx], the builtin [max] folds the rest. *)
Definition MaxSeq (elements : list Z) : outcome Z :=
  match elements with
  | [] => Panicked (AnyString "MaxSeq: empty sequence")
  | first :: rest => Returned (foldl Z.max first rest)
  end.

(** ** Map and ParallelMap *)

Section MapOps.
Context {I O : Type} `{!Zero O}.
Variable mapFunc : I → O.

(** [for i, input := range inputSlice { outputSlice[i] = mapFunc(input) }] *)
Fixpoint Map_loop (i : nat) (rest : list I) (outputSlice : list O) : list O :=
  match rest with
  | [] => outputSlice
  | input :: rest => Map_loop (S i) rest (<[i := mapFunc input]> outputSlice)
  end.

(** A nil slice has length 0 and ranges over nothing, so [Map] takes the
    elements only; [make([]O, n)] is [n] zero values. *)
Definition Map (inputSlice : list I) : list O :=
  Map_loop 0 inputSlice (replicate (length inputSlice) zero).

(** *** The worker pool

    A worker goroutine runs [for idx := range inputChan
    { outputSlice[idx] = mapFunc(inputSlice[idx]) }]: it receives an index,
    calls [mapFunc], stores the result, and leaves the loop once the channel
    is closed and drained. *)
Inductive worker : Type :=
  | Receiving
  | Got (idx : nat)
  | Computed (idx : nat) (v : O)
  | Exited.

(** The memory shared by the goroutines of one call.  [sent] is the loop
    variable of the sending loop of the calling goroutine; [calls] counts,
    per index, the invocations of [mapFunc] made so far. *)
Record pool : Type := Pool {
  outputSlice : list O;
  inputChan : list nat;
  closed : bool;
  sent : nat;
  workers : list worker;
  calls : list nat
}.

Inductive thread : Type :=
  | Main
  | Work (w : nat).

#[export] Instance thread_eq_dec : EqDecision thread.
Proof. solve_decision. Defined.

(** [runtime.NumCPU()] *)
Variable NumCPU : nat.

Definition numWorkers (inputSlice : list I) : nat :=
  if decide (length inputSlice < NumCPU) then length inputSlice else NumCPU.

(** The state once the workers are started and before the first send.
    (A worker that starts earlier can only block on the empty channel.) *)
Definition pool_init (inputSlice : list I) : pool :=
  {| outputSlice := replicate (length inputSlice) zero;
     inputChan := [];
     closed := false;
     sent := 0;
     workers := replicate (numWorkers inputSlice) Receiving;
     calls := replicate (length inputSlice) 0 |}.

Definition set_worker (s : pool) (w : nat) (st : worker) : pool :=
  {| outputSlice := outputSlice s; inputChan := inputChan s; closed := closed s;
     sent := sent s; workers := <[w := st]> (workers s); calls := calls s |}.

(** One step of the calling goroutine: send the next index (the channel
    has capacity [len(inputSlice)]), then [close(inputChan)], then block in
    [wg.Wait()]. *)
Definition step_main (inputSlice : list I) (s : pool) : option pool :=
  if closed s then None
  else if decide (sent s < length inputSlice) then
    if decide (length (inputChan s) < length inputSlice) then
      Some {| outputSlice := outputSlice s; inputChan := inputChan s ++ [sent s];
              closed := false; sent := S (sent s);
              workers := workers s; calls := calls s |}
    else None
  else
    Some {| outputSlice := outputSlice s; inputChan := inputChan s;
            closed := true; sent := sent s;
            workers := workers s; calls := calls s |}.

(** One step of worker [w].  [None] is a goroutine that cannot move: it is
    blocked on the empty open channel, it has returned, or it would index
    out of range (where Go panics). *)
Definition step_worker (inputSlice : list I) (w : nat) (s : pool) : option pool :=
  match workers s !! w with
  | Some Receiving =>
      match inputChan s with
      | idx :: rest =>
          Some {| outputSlice := outputSlice s; inputChan := rest;
                  closed := closed s; sent := sent s;
                  workers := <[w := Got idx]> (workers s); calls := calls s |}
      | [] => if closed s then Some (set_worker s w Exited) else None
      end
  | Some (Got idx) =>
      match inputSlice !! idx with
      | Some input =>
          Some {| outputSlice := outputSlice s; inputChan := inputChan s;
                  closed := closed s; sent := sent s;
                  workers := <[w := Computed idx (mapFunc input)]> (workers s);
                  calls := alter S idx (calls s) |}
      | None => None
      end
  | Some (Computed idx v) =>
      if decide (idx < length (outputSlice s)) then
        Some {| outputSlice := <[idx := v]> (outputSlice s); inputChan := inputChan s;
                closed := closed s; sent := sent s;
                workers := <[w := Receiving]> (workers s); calls := calls s |}
      else None
  | Some Exited | None => None
  end.

Definition step_thread (inputSlice : list I) (t : thread) (s : pool) : option pool :=
  match t with
  | Main => step_main inputSlice s
  | Work w => step_worker inputSlice w s
  end.

(** Run a schedule: the list of threads in the order they take steps. *)
Fixpoint run (inputSlice : list I) (sched : list thread) (s : pool) : option pool :=
  match sched with
  | [] => Some s
  | t :: sched => s' ← step_thread inputSlice t s; run inputSlice sched s'
  end.

Definition is_Exited (st : worker) : bool :=
  match st with Exited => true | _ => false end.

(** [wg.Wait()] returns: the channel is closed and every worker is done. *)
Definition joined (s : pool) : bool :=
  closed s && forallb is_Exited (workers s).

(** [ParallelMap] under a schedule; the input is [None] for a nil slice.
    The result is the returned slice together with the call counts, and
    [None] when the schedule is not a complete execution. *)
Definition ParallelMap (inputSlice : option (list I)) (sched : list thread)
  : option (list O * list nat) :=
  match inputSlice with
  | None => if decide (sched = []) then Some ([], []) else None
  | Some l =>
      s ← run l sched (pool_init l);
      if joined s then Some (outputSlice s, calls s) else None
  end.

(** Steps still to be taken, an upper bound. *)
Definition worker_weight (st : worker) : nat :=
  match st with
  | Receiving => 1
  | Got _ => 3
  | Computed _ _ => 2
  | Exited => 0
  end.

Definition pool_weight (inputSlice : list I) (s : pool) : nat :=
  4 * (length inputSlice - sent s) + 3 * length (inputChan s)
  + sum_list (worker_weight <$> workers s) + (if closed s then 0 else 1).

(** The elements of a possibly nil slice. *)
Definition elems (inputSlice : option (list I)) : list I := default [] inputSlice.

(** The index a worker has received and not yet stored the result for. *)
Definition worker_idx (st : worker) : option nat :=
  match st with
  | Got idx | Computed idx _ => Some idx
  | Receiving | Exited => None
  end.

Definition holds (s : pool) (w idx : nat) : Prop :=
  ∃ st, workers s !! w = Some st ∧ worker_idx st = Some idx.

(** The number of indices received from the channel so far. *)
Definition received (s : pool) : nat := sent s - length (inputChan s).

(** What holds of the pool in every state an execution reaches. *)
Record pool_inv (inputSlice : list I) (s : pool) : Prop := PoolInv {
  inv_output : length (outputSlice s) = length inputSlice;
  inv_calls : length (calls s) = length inputSlice;
  inv_sent : sent s ≤ length inputSlice;
  inv_closed : closed s = true → sent s = length inputSlice;
  inv_chan : inputChan s = seq (received s) (length (inputChan s))
             ∧ length (inputChan s) ≤ sent s;
  inv_exited : ∀ w, workers s !! w = Some Exited →
               inputChan s = [] ∧ closed s = true;
  inv_held : ∀ w idx, holds s w idx → idx < received s;
  inv_owner : ∀ w w' idx, holds s w idx → holds s w' idx → w = w';
  inv_got : ∀ w idx, workers s !! w = Some (Got idx) → calls s !! idx = Some 0;
  inv_computed : ∀ w idx v, workers s !! w = Some (Computed idx v) →
                 calls s !! idx = Some 1
                 ∧ ∃ input, inputSlice !! idx = Some input ∧ v = mapFunc input;
  inv_pending : ∀ idx, received s ≤ idx → idx < length inputSlice →
                calls s !! idx = Some 0;
  inv_done : ∀ idx, idx < received s → (∀ w, ¬ holds s w idx) →
             calls s !! idx = Some 1
             ∧ ∃ input, inputSlice !! idx = Some input
                        ∧ outputSlice s !! idx = Some (mapFunc input);
  inv_once : ∀ idx n, calls s !! idx = Some n → n ≤ 1;
  inv_workers : length (workers s) = numWorkers inputSlice
}.
End MapOps.

Arguments worker : clear implicits.
Arguments pool : clear implicits.

(** ** SafeMap, SafeReduce, SafeFind

    The user function may panic, so it is a function into [outcome].  Each
    loop also keeps the log of the inputs it has invoked the user function
    on, so that what is and is not called can be stated. *)

Section SafeOps.
Context {I O : Type} `{!Zero I} `{!Zero O}.

(** The result slice of [SafeMap] is [None] for [nil]. *)
Fixpoint SafeMap_loop (mappingFunc : I → outcome (O * error))
    (i : nat) (rest : list I) (outputSlice : list O) (log : list I)
  : list I * outcome (option (list O) * error) :=
  match rest with
  | [] => (log, Returned (Some outputSlice, None))
  | input :: rest =>
      match SafeExcecute (λ _, mappingFunc input) with
      | Panicked r => (log ++ [input], Panicked r)
      | Returned (_, Some err) => (log ++ [input], Returned (None, Some err))
      | Returned (output, None) =>
          SafeMap_loop mappingFunc (S i) rest (<[i := output]> outputSlice) (log ++ [input])
      end
  end.

Definition SafeMap (inputSlice : list I) (mappingFunc : I → outcome (O * error))
  : list I * outcome (option (list O) * error) :=
  SafeMap_loop mappingFunc 0 inputSlice (replicate (length inputSlice) zero) [].

Fixpoint SafeReduce_loop (reduceFunc : O → I → outcome (O * error))
    (rest : list I) (accumulator : O) (log : list I)
  : list I * outcome (O * error) :=
  match rest with
  | [] => (log, Returned (accumulator, None))
  | input :: rest =>
      match SafeExcecute (λ _, reduceFunc accumulator input) with
      | Panicked r => (log ++ [input], Panicked r)
      | Returned (accumAux, Some err) => (log ++ [input], Returned (accumAux, Some err))
      | Returned (accumAux, None) =>
          SafeReduce_loop reduceFunc rest accumAux (log ++ [input])
      end
  end.

Definition SafeReduce (inputSlice : list I) (reduceFunc : O → I → outcome (O * error))
    (initialValue : O) : list I * outcome (O * error) :=
  SafeReduce_loop reduceFunc inputSlice initialValue [].

(** [foundItem] is a named result that is never assigned: it is the zero
    value wherever it is returned. *)
Fixpoint SafeFind_loop (findFunc : I → outcome (bool * error))
    (rest : list I) (log : list I)
  : list I * outcome (I * bool * error) :=
  match rest with
  | [] => (log, Returned (zero, false, None))
  | input :: rest =>
      match SafeExcecute (λ _, findFunc input) with
      | Panicked r => (log ++ [input], Panicked r)
      | Returned (_, Some err) => (log ++ [input], Returned (zero, false, Some err))
      | Returned (true, None) => (log ++ [input], Returned (input, true, None))
      | Returned (false, None) => SafeFind_loop findFunc rest (log ++ [input])
      end
  end.

Definition SafeFind (inputSlice : list I) (findFunc : I → outcome (bool * error))
  : list I * outcome (I * bool * error) :=
  SafeFind_loop findFunc inputSlice [].
End SafeOps.

(** ** Slices indexed by [int] *)

Section SliceOps.
Context {I : Type}.

Definition len (slice : list I) : Z := Z.of_nat (length slice).

Definition index_out_of_range : any := AnyError (RuntimeError "index out of range").
Definition slice_bounds_out_of_range : any :=
  AnyError (RuntimeError "slice bounds out of range").
Definition makeslice_cap_out_of_range : any :=
  AnyError (RuntimeError "makeslice: cap out of range").

(** [slice[i]] *)
Definition index (slice : list I) (i : Z) : outcome I :=
  if decide (0 ≤ i)%Z then
    match slice !! Z.to_nat i with
    | Some x => Returned x
    | None => Panicked index_out_of_range
    end
  else Panicked index_out_of_range.

(** [slice[lo:hi]] for a slice whose capacity is its length or more and
    [hi] at most its length. *)
Definition subslice (slice : list I) (lo hi : Z) : outcome (list I) :=
  if decide (0 ≤ lo ∧ lo ≤ hi ∧ hi ≤ len slice)%Z then
    Returned (take (Z.to_nat hi - Z.to_nat lo) (drop (Z.to_nat lo) slice))
  else Panicked slice_bounds_out_of_range.

(** *** Reverse *)

(** [j := len(slice) - i - 1; slice[i], slice[j] = slice[j], slice[i]]:
    both operands are read, then [slice[i]] and [slice[j]] are written. *)
Definition Reverse_body (slice : list I) (i : Z) : outcome (list I) :=
  let j := int_sub (int_sub (len slice) i) 1 in
  b ← index slice j;
  a ← index slice i;
  Returned (<[Z.to_nat j := a]> (<[Z.to_nat i := b]> slice)).

Fixpoint Reverse_loop (range : list Z) (slice : list I) : outcome (list I) :=
  match range with
  | [] => Returned slice
  | i :: range => slice' ← Reverse_body slice i; Reverse_loop range slice'
  end.

(** [for i := 0; i <= len(slice)/2; i++]: [i] takes the values
    [0 .. len(slice)/2], both ends included. *)
Definition Reverse (slice : list I) : outcome (list I) :=
  Reverse_loop (seqZ 0 (int_div (len slice) 2 + 1)) slice.

(** The specification side of the loop: after the exchanges for
    [i = 0 .. m-1] the outer [m] positions on either side hold the mirrored
    elements and the positions in between are untouched. *)
Definition mirrored (slice : list I) (m : nat) (slice' : list I) : Prop :=
  length slice' = length slice ∧
  ∀ p, p < length slice →
    slice' !! p = slice !! (if decide (p < m ∨ length slice - m ≤ p)
                            then length slice - 1 - p else p).

(** *** Chunk *)

(** The loop [for i := 0; i < len(slice); i += chunkSize].  Every
    iteration with [0 <= i] moves [i] forward and one with [i < 0] panics,
    so [len(slice) + 1] units of fuel are never used up; [None] is fuel
    exhausted. *)
Fixpoint Chunk_loop (fuel : nat) (slice : list I) (chunkSize : Z) (i : Z)
    (chunks : list (list I)) : option (outcome (list (list I))) :=
  if decide (i < len slice)%Z then
    match fuel with
    | 0 => None
    | S fuel =>
        let end_ := int_add i chunkSize in
        let end_ := if decide (end_ > len slice)%Z then len slice else end_ in
        match subslice slice i end_ with
        | Returned chunk =>
            Chunk_loop fuel slice chunkSize (int_add i chunkSize) (chunks ++ [chunk])
        | Panicked r => Some (Panicked r)
        end
    end
  else Some (Returned chunks).

(** [make([]S, 0, numChunks)] panics on a negative capacity. *)
Definition Chunk (slice : list I) (chunkSize : Z) : option (outcome (list (list I))) :=
  if decide (chunkSize ≤ 0 ∨ len slice = 0)%Z then Some (Returned [])
  else
    let numChunks :=
      int_div (int_sub (int_add (len slice) chunkSize) 1) chunkSize in
    if decide (numChunks < 0)%Z then Some (Panicked makeslice_cap_out_of_range)
    else Chunk_loop (S (length slice)) slice chunkSize 0 [].

(** Every chunk but the last has [size] elements, the last has between 1
    and [size]. *)
Definition chunk_sizes (size : Z) (chunks : list (list I)) : Prop :=
  ∀ k chunk, chunks !! k = Some chunk →
    (1 ≤ len chunk ≤ size)%Z ∧ (S k < length chunks → len chunk = size).
End SliceOps.

(** ** In-place compaction: RemoveElement and Distinct

    Both loops range over the slice by index and write the retained
    elements back into the same backing array at [newSliceLen], which never
    runs ahead of the read position; the result is the view
    [slice[:newSliceLen]]. *)

Section Compaction.
Context {I : Type} `{!EqDecision I} `{!Countable I}.

(** The loop state: backing array, [newSliceLen], [count]. *)
Definition RemoveElement_body (element : I) (limit : Z)
    (st : list I * nat * Z) (i : nat) : list I * nat * Z :=
  let '(slice, newSliceLen, count) := st in
  match slice !! i with
  | Some e =>
      if bool_decide (e = element) && ((limit =? -1)%Z || (count <? limit)%Z) then
        (slice, newSliceLen, (count + 1)%Z)
      else (<[newSliceLen := e]> slice, S newSliceLen, count)
  | None => st
  end.

Definition RemoveElement_inplace (slice : list I) (element : I) (limit : Z)
  : list I * nat * Z :=
  foldl (RemoveElement_body element limit) (slice, 0, 0%Z) (seq 0 (length slice)).

(** [occurrencesToDelete] is a [*int]: [None] is the nil pointer.
    [count] is incremented at most [len(slice)] times and cannot wrap. *)
Definition RemoveElement (slice : list I) (element : I)
    (occurrencesToDelete : option Z) : list I :=
  if decide (length slice = 0) then slice
  else
    let limit : option Z :=
      match occurrencesToDelete with
      | None => Some (-1)%Z
      | Some n => if decide (n ≤ 0)%Z then None else Some n
      end in
    match limit with
    | None => slice
    | Some limit =>
        let '(slice, newSliceLen, _) := RemoveElement_inplace slice element limit in
        take newSliceLen slice
    end.

(** The loop of [RemoveElement] as a function of the elements still to
    be read: what it appends to the retained prefix. *)
Fixpoint RemoveElement_kept (element : I) (limit count : Z) (rest : list I) : list I :=
  match rest with
  | [] => []
  | e :: rest =>
      if bool_decide (e = element) && ((limit =? -1)%Z || (count <? limit)%Z) then
        RemoveElement_kept element limit (count + 1) rest
      else e :: RemoveElement_kept element limit count rest
  end.

(** The specification side: [l] without its leftmost [n] occurrences of
    [element]. *)
Fixpoint remove_leftmost (element : I) (n : nat) (l : list I) : list I :=
  match l with
  | [] => []
  | x :: l =>
      if decide (x = element) then
        match n with
        | 0 => x :: l
        | S n => remove_leftmost element n l
        end
      else x :: remove_leftmost element n l
  end.

(** The loop state: backing array, [newSliceLen], [seenItems]. *)
Definition Distinct_body (st : list I * nat * gset I) (i : nat)
  : list I * nat * gset I :=
  let '(slice, newSliceLen, seenItems) := st in
  match slice !! i with
  | Some item =>
      if decide (item ∈ seenItems) then st
      else (<[newSliceLen := item]> slice, S newSliceLen, {[item]} ∪ seenItems)
  | None => st
  end.

Definition Distinct_inplace (slice : list I) : list I * nat * gset I :=
  foldl Distinct_body (slice, 0, ∅) (seq 0 (length slice)).

Definition Distinct (slice : list I) : list I :=
  let '(slice, newSliceLen, _) := Distinct_inplace slice in
  take newSliceLen slice.

(** What the caller's slice header reads after the call: the same length,
    over the compacted backing array. *)
Definition Distinct_backing (slice : list I) : list I :=
  (Distinct_inplace slice).1.1.

(** The specification side: the elements that occur at a position where
    they have not occurred before, in the order of those positions. *)
Fixpoint first_occurrences_from (before : list I) (rest : list I) : list I :=
  match rest with
  | [] => []
  | x :: rest =>
      if decide (x ∈ before) then first_occurrences_from (before ++ [x]) rest
      else x :: first_occurrences_from (before ++ [x]) rest
  end.

Definition first_occurrences (l : list I) : list I := first_occurrences_from [] l.

(** The position of the first occurrence of [x], if any. *)
Fixpoint first_index (x : I) (l : list I) : option nat :=
  match l with
  | [] => None
  | y :: l => if decide (y = x) then Some 0 else S <$> first_index x l
  end.

(** Occurrences of [x] in [l]. *)
Definition occurrences (x : I) (l : list I) : nat :=
  length (filter (λ y, y = x) l).

(** How many occurrences a call removes: all of them for the nil pointer,
    none for a count of zero or less, and otherwise the count, as far as
    there are occurrences. *)
Definition removed_occurrences (slice : list I) (element : I)
    (occurrencesToDelete : option Z) : nat :=
  match occurrencesToDelete with
  | None => occurrences element slice
  | Some k =>
      if decide (k ≤ 0)%Z then 0 else Z.to_nat k `min` occurrences element slice
  end.

(** *** The eager Union

    [for item := range set] visits the keys of a Go map in an order the
    language leaves open: any enumeration of the keys without repetition
    is a possible result. *)
Definition Union_set (a b : list I) : gset I :=
  foldl (λ set item, {[item]} ∪ set) (foldl (λ set item, {[item]} ∪ set) ∅ a) b.

Definition Union (a b : list I) (result : list I) : Prop :=
  NoDup result ∧ ∀ item, item ∈ result ↔ item ∈ Union_set a b.
End Compaction.

(** ** Push iterators ([iter.Seq])

    [iter.Seq[V]] is [func(yield func(V) bool)].  The state of the consumer
    is threaded through [yield]; [yield] answers whether to continue. *)

Definition Yield (V C : Type) : Type := V → C → outcome (bool * C).
Definition Seq (V : Type) : Type := ∀ C : Type, Yield V C → C → outcome C.

(** [slices.Values(s)] *)
Fixpoint Values {V} (s : list V) : Seq V := λ C yield c,
  match s with
  | [] => Returned c
  | v :: s =>
      '(continue, c) ← yield v c;
      if continue : bool then Values s C yield c else Returned c
  end.

(** The same loop, also telling whether the consumer asked to stop. *)
Fixpoint drive_list {V C} (yield : Yield V C) (s : list V) (c : C) : outcome (C * bool) :=
  match s with
  | [] => Returned (c, false)
  | v :: s =>
      '(continue, c) ← yield v c;
      if continue : bool then drive_list yield s c else Returned (c, true)
  end.

(** The consumer that appends every element to a list and never stops. *)
Definition collect_yield {V} : Yield V (list V) := λ v acc, Returned (true, acc ++ [v]).
Definition collect {V} (s : Seq V) : outcome (list V) := s (list V) collect_yield [].

Section SeqOps.
Context {I O : Type} `{!Zero O} `{!EqDecision I} `{!Countable I}.

(** The body of [for input := range inputSeq] in [SafeMapSeq], as the
    function handed to [inputSeq]: both [return]s end the iteration. *)
Definition SafeMapSeq_body {C} (mapFunc : I → outcome (O * error))
    (yield : Yield O C) : Yield I C := λ input c,
  '(out, errAux) ← SafeExcecute (λ _, mapFunc input);
  match errAux with
  | Some _ => Returned (false, c)
  | None => yield out c
  end.

Definition SafeMapSeq (inputSeq : Seq I) (mapFunc : I → outcome (O * error)) : Seq O :=
  λ C yield c, inputSeq C (SafeMapSeq_body mapFunc yield) c.

(** The specification side: the outputs for the elements that come before
    the first one on which [mapFunc] does not return a nil error. *)
Fixpoint mapped_prefix (mapFunc : I → outcome (O * error)) (l : list I) : list O :=
  match l with
  | [] => []
  | input :: l =>
      match mapFunc input with
      | Returned (out, None) => out :: mapped_prefix mapFunc l
      | _ => []
      end
  end.

(** The body of the loop of [RemoveElementSeq].  The loop state is the
    captured variable [limit] and the consumer's state; [limit--] is only
    executed on a positive [limit]. *)
Definition RemoveElementSeq_body {C} (element : I) (yield : Yield I C)
  : Yield I (Z * C) := λ input st,
    let '(limit, c) := st in
    if bool_decide (input = element) && (0 <? limit)%Z then
      Returned (true, (int_sub limit 1, c))
    else
      '(continue, c) ← yield input c;
      Returned (continue, (limit, c)).

(** One drive of the closure returned by [RemoveElementSeq], from the
    current value of the captured [limit]. *)
Definition RemoveElementSeq_drive (inputSeq : Seq I) (element : I) (limit : Z)
    (C : Type) (yield : Yield I C) (c : C) : outcome (Z * C) :=
  inputSeq _ (RemoveElementSeq_body element yield) (limit, c).

(** [limit := occurrencesToDelete; if limit == -1 { limit = math.MaxInt }];
    this is the first drive of the sequence returned. *)
Definition RemoveElementSeq (inputSeq : Seq I) (element : I)
    (occurrencesToDelete : Z) : Seq I := λ C yield c,
  let limit := if decide (occurrencesToDelete = -1)%Z then MaxInt
               else occurrencesToDelete in
  '(_, c) ← RemoveElementSeq_drive inputSeq element limit C yield c;
  Returned c.

(** The body of both loops of [UnionSeq].  The loop state is the map
    [seen], the consumer's state and whether the body executed [return]. *)
Definition UnionSeq_body {C} (yield : Yield I C) : Yield I (gset I * C * bool) :=
  λ input st,
    let '(seen, c, _) := st in
    if decide (input ∈ seen) then Returned (true, (seen, c, false))
    else
      '(continue, c) ← yield input c;
      Returned (continue, ({[input]} ∪ seen, c, negb continue)).

(** One drive of the closure returned by [UnionSeq]; [seen] is the
    captured map, which the closure shares between its drives. *)
Definition UnionSeq_drive (inputSeq1 inputSeq2 : Seq I) (seen : gset I)
    (C : Type) (yield : Yield I C) (c : C) : outcome (gset I * C) :=
  '(seen, c, returned) ← inputSeq1 _ (UnionSeq_body yield) (seen, c, false);
  if returned : bool then Returned (seen, c)
  else
    '(seen, c, _) ← inputSeq2 _ (UnionSeq_body yield) (seen, c, false);
    Returned (seen, c).

(** [UnionSeq] allocates [seen] empty; this is the first drive of the
    sequence it returns. *)
Definition UnionSeq (inputSeq1 inputSeq2 : Seq I) : Seq I := λ C yield c,
  '(_, c) ← UnionSeq_drive inputSeq1 inputSeq2 ∅ C yield c;
  Returned c.
End SeqOps.

(** ** The other eager helpers

    The functions handed in ([filterFunc], [findFunc], ...) are total
    functions here: none of these helpers recovers a panic of theirs. *)

Section EagerOps.
Context {I : Type}.

(** [for _, input := range inputSlice { accumulator = reduceFunc(accumulator,
    input) }] *)
Definition Reduce {O : Type} (inputSlice : list I) (reduceFunc : O → I → O)
    (initialValue : O) : O :=
  foldl reduceFunc initialValue inputSlice.

(** [Filter] compacts in place like [RemoveElement]: the loop state is the
    backing array and [newSliceLen]. *)
Definition Filter_body (filterFunc : I → bool) (st : list I * nat) (i : nat)
  : list I * nat :=
  let '(inputSlice, newSliceLen) := st in
  match inputSlice !! i with
  | Some input =>
      if filterFunc input then (<[newSliceLen := input]> inputSlice, S newSliceLen)
      else st
  | None => st
  end.

Definition Filter_inplace (inputSlice : list I) (filterFunc : I → bool)
  : list I * nat :=
  foldl (Filter_body filterFunc) (inputSlice, 0) (seq 0 (length inputSlice)).

Definition Filter (inputSlice : list I) (filterFunc : I → bool) : list I :=
  let '(inputSlice, newSliceLen) := Filter_inplace inputSlice filterFunc in
  take newSliceLen inputSlice.

(** What the caller's slice reads after the call. *)
Definition Filter_backing (inputSlice : list I) (filterFunc : I → bool) : list I :=
  (Filter_inplace inputSlice filterFunc).1.

Fixpoint Find `{!Zero I} (inputSlice : list I) (findFunc : I → bool) : I * bool :=
  match inputSlice with
  | [] => (zero, false)
  | input :: rest => if findFunc input then (input, true) else Find rest findFunc
  end.

(** [for i, input := range inputSlice { if findFunc(input) { return i } }] *)
Fixpoint FindIndex_loop (findFunc : I → bool) (i : nat) (rest : list I) : Z :=
  match rest with
  | [] => (-1)%Z
  | input :: rest =>
      if findFunc input then Z.of_nat i else FindIndex_loop findFunc (S i) rest
  end.

Definition FindIndex (inputSlice : list I) (findFunc : I → bool) : Z :=
  FindIndex_loop findFunc 0 inputSlice.

Fixpoint All (slice : list I) (predicate : I → bool) : bool :=
  match slice with
  | [] => true
  | item :: rest => if negb (predicate item) then false else All rest predicate
  end.

Fixpoint Any (slice : list I) (predicate : I → bool) : bool :=
  match slice with
  | [] => false
  | item :: rest => if predicate item then true else Any rest predicate
  end.

Context `{!EqDecision I} `{!Countable I}.

Fixpoint Contains (slice : list I) (element : I) : bool :=
  match slice with
  | [] => false
  | e :: rest => if bool_decide (e = element) then true else Contains rest element
  end.

(** [for i := range a { if a[i] != b[i] { return false } }], after the
    lengths have been compared. *)
Fixpoint Compare_loop (a b : list I) (range : list nat) : outcome bool :=
  match range with
  | [] => Returned true
  | i :: range =>
      x ← index a (Z.of_nat i);
      y ← index b (Z.of_nat i);
      if bool_decide (x ≠ y) then Returned false else Compare_loop a b range
  end.

Definition Compare (a b : list I) : outcome bool :=
  if decide (length a ≠ length b) then Returned false
  else Compare_loop a b (seq 0 (length a)).

(** [ocurrencesToDelete := 1; RemoveElement(slice, element,
    &ocurrencesToDelete)] *)
Definition RemoveFirstOccurrence (slice : list I) (element : I) : list I :=
  RemoveElement slice element (Some 1%Z).

(** A [map[I]struct{}] filled from a list of keys. *)
Definition key_set (keys : list I) : gset I :=
  foldl (λ set item, {[item]} ∪ set) ∅ keys.

(** The loop of [RemoveElements] and of [Difference]: the elements found in
    the map are skipped, the others are written back at [newSliceLen]. *)
Definition RemoveElements_body (itemsToRemoveMap : gset I) (st : list I * nat)
    (i : nat) : list I * nat :=
  let '(slice, newSliceLen) := st in
  match slice !! i with
  | Some e =>
      if decide (e ∈ itemsToRemoveMap) then st
      else (<[newSliceLen := e]> slice, S newSliceLen)
  | None => st
  end.

Definition RemoveElements (slice : list I) (elements : list I) : list I :=
  let itemsToRemoveMap := key_set elements in
  let '(slice, newSliceLen) :=
    foldl (RemoveElements_body itemsToRemoveMap) (slice, 0) (seq 0 (length slice)) in
  take newSliceLen slice.

Definition Difference_body (set : gset I) (st : list I * nat) (i : nat)
  : list I * nat :=
  let '(a, newSliceLen) := st in
  match a !! i with
  | Some item =>
      if decide (item ∈ set) then st
      else (<[newSliceLen := item]> a, S newSliceLen)
  | None => st
  end.

Definition Difference (a b : list I) : list I :=
  let set := key_set b in
  let '(a, newSliceLen) := foldl (Difference_body set) (a, 0) (seq 0 (length a)) in
  take newSliceLen a.

(** [var result S; for _, item := range b { if _, ok := set[item]; ok
    { result = append(result, item) } }] *)
Definition Intersection (a b : list I) : list I :=
  let set := key_set a in
  foldl (λ result item, if decide (item ∈ set) then result ++ [item] else result) [] b.
End EagerOps.

(** The interface [identifiable[T]]: a method [Id() T]. *)
Class identifiable (T I : Type) := Id : I → T.

Section UniqueItems.
Context {T I : Type} `{!EqDecision T} `{!Countable T} `{!identifiable T I}.

(** The loop state: backing array, [newSliceLen], [seenItems]. *)
Definition UniqueItemsById_body (st : list I * nat * gset T) (i : nat)
  : list I * nat * gset T :=
  let '(slice, newSliceLen, seenItems) := st in
  match slice !! i with
  | Some item =>
      let id := Id item in
      if decide (id ∈ seenItems) then st
      else (<[newSliceLen := item]> slice, S newSliceLen, {[id]} ∪ seenItems)
  | None => st
  end.

Definition UniqueItemsById (slice : list I) : list I :=
  let '(slice, newSliceLen, _) :=
    foldl UniqueItemsById_body (slice, 0, ∅) (seq 0 (length slice)) in
  take newSliceLen slice.

(** How the loop judges an item: keep it when its id is new, and record
    the id. *)
Definition by_new_id (seen : gset T) (item : I) : bool * gset T :=
  if decide (Id item ∈ seen) then (false, seen) else (true, {[Id item]} ∪ seen).
End UniqueItems.

(** The specification side of the compaction loops: what a loop that
    judges each element in turn ([judge] answers whether to keep it and
    gives the next auxiliary state) retains of the elements it reads. *)
Section CompactionSpec.
Context {I St : Type}.
Variable judge : St → I → bool * St.

Fixpoint compaction_kept (st : St) (rest : list I) : list I :=
  match rest with
  | [] => []
  | x :: rest =>
      let '(keep, st') := judge st x in
      if keep : bool then x :: compaction_kept st' rest
      else compaction_kept st' rest
  end.
End CompactionSpec.

(** ** The other lazy helpers

    A function that ranges over an [iter.Seq] hands the loop body to it as
    [yield]: the variables the body assigns are the state threaded through
    the sequence, and [break] and [return] answer [false].  As for the
    eager helpers, the functions handed in are total, save for the [Safe]
    variants. *)

Definition Yield2 (K V C : Type) : Type := K → V → C → outcome (bool * C).
Definition Seq2 (K V : Type) : Type := ∀ C : Type, Yield2 K V C → C → outcome C.

(** [for i, v := range s], as an [iter.Seq2]: what [slices.All(s)] yields,
    with the index as an [int]. *)
Fixpoint All2_from {V} (i : nat) (s : list V) : Seq2 Z V := λ C yield c,
  match s with
  | [] => Returned c
  | v :: s =>
      '(continue, c) ← yield (Z.of_nat i) v c;
      if continue : bool then All2_from (S i) s C yield c else Returned c
  end.

Section LazyOps.
Context {I : Type}.

Definition MapSeq {O : Type} (inputSeq : Seq I) (mapFunc : I → O) : Seq O :=
  λ C yield c, inputSeq C (λ input c, yield (mapFunc input) c) c.

(** [if filterFunc(input) && !yield(input) { return }] *)
Definition FilterSeq (inputSeq : Seq I) (filterFunc : I → bool) : Seq I :=
  λ C yield c,
    inputSeq C (λ input c, if filterFunc input then yield input c
                           else Returned (true, c)) c.

Definition ReduceSeq {O : Type} (inputSeq : Seq I) (reduceFunc : O → I → O)
    (initialValue : O) : outcome O :=
  inputSeq O (λ input result, Returned (true, reduceFunc result input)) initialValue.

(** The loop state is [result] and the error returned from inside the
    loop; on an error it is [result], not [accumAux], that is returned. *)
Definition SafeReduceSeq {O : Type} `{!Zero O} (inputSeq : Seq I)
    (reduceFunc : O → I → outcome (O * error)) (initialValue : O)
  : outcome (O * error) :=
  inputSeq (O * error)%type
    (λ input st,
      let '(result, _) := st in
      '(accumAux, err) ← SafeExcecute (λ _, reduceFunc result input);
      match err with
      | Some e => Returned (false, (result, Some e))
      | None => Returned (true, (accumAux, None))
      end)
    (initialValue, None).

(** The loop state is the named results [foundItem] and [didFind]. *)
Definition FindSeq `{!Zero I} (inputSeq : Seq I) (findFunc : I → bool)
  : outcome (I * bool) :=
  inputSeq (I * bool)%type
    (λ input st, if findFunc input then Returned (false, (input, true))
                 else Returned (true, st))
    (zero, false).

Definition SafeFindSeq `{!Zero I} (inputSeq : Seq I)
    (findFunc : I → outcome (bool * error)) : outcome (I * bool * error) :=
  inputSeq (I * bool * error)%type
    (λ input st,
      let '(foundItem, didFind, _) := st in
      '(foundAux, errAux) ← SafeExcecute (λ _, findFunc input);
      match errAux with
      | Some e => Returned (false, (foundItem, didFind, Some e))
      | None =>
          if foundAux : bool then Returned (false, (input, true, None))
          else Returned (true, st)
      end)
    (zero, false, None).

(** The loop state is [index] and the named results [foundIndex] and
    [didFind]. *)
Definition FindIndexSeq (inputSeq : Seq I) (findFunc : I → bool) : outcome (Z * bool) :=
  '(_, foundIndex, didFind) ←
    inputSeq (Z * Z * bool)%type
      (λ input st,
        let '(index, foundIndex, didFind) := st in
        if findFunc input then Returned (false, (index, index, true))
        else Returned (true, (int_add index 1, foundIndex, didFind)))
      (0%Z, 0%Z, false);
  Returned (foundIndex, didFind).

(** [index := 0] is inside the closure: every drive counts from zero. *)
Definition Ennumerate (inputSeq : Seq I) : Seq2 Z I := λ C yield c,
  '(_, c) ←
    inputSeq (Z * C)%type
      (λ input st,
        let '(index, c) := st in
        '(continue, c) ← yield index input c;
        if continue : bool then Returned (true, (int_add index 1, c))
        else Returned (false, (index, c)))
      (0%Z, c);
  Returned c.

(** For [AllSeq] and [AnySeq] the loop state is the value returned. *)
Definition AllSeq (inputSeq : Seq I) (allFunc : I → bool) : outcome bool :=
  inputSeq bool (λ input st, if negb (allFunc input) then Returned (false, false)
                             else Returned (true, st)) true.

Definition AnySeq (inputSeq : Seq I) (anyFunc : I → bool) : outcome bool :=
  inputSeq bool (λ input st, if anyFunc input then Returned (false, true)
                             else Returned (true, st)) false.

Context `{!EqDecision I} `{!Countable I}.

Definition ContainsSeq (inputSeq : Seq I) (element : I) : outcome bool :=
  inputSeq bool (λ input st, if bool_decide (input = element) then Returned (false, true)
                             else Returned (true, st)) false.

(** [itemsToRemoveMap] is built once, by [Reduce], when [RemoveElementsSeq]
    is called, and only read afterwards. *)
Definition RemoveElementsSeq (inputSeq : Seq I) (elements : list I) : Seq I :=
  let itemsToRemoveMap := Reduce elements (λ accum curr, {[curr]} ∪ accum) (∅ : gset I) in
  λ C yield c,
    inputSeq C (λ input c, if decide (input ∈ itemsToRemoveMap) then Returned (true, c)
                           else yield input c) c.

(** The body of the loop of [DistinctSeq]; the loop state is the captured
    map [seen] and the consumer's state. *)
Definition DistinctSeq_body {C} (yield : Yield I C) : Yield I (gset I * C) :=
  λ input st,
    let '(seen, c) := st in
    if decide (input ∈ seen) then Returned (true, st)
    else
      '(continue, c) ← yield input c;
      Returned (continue, ({[input]} ∪ seen, c)).

(** One drive of the closure returned by [DistinctSeq]; [seen] is allocated
    by [DistinctSeq] itself, outside the closure, so that it survives from
    one drive to the next. *)
Definition DistinctSeq_drive (inputSeq : Seq I) (seen : gset I)
    (C : Type) (yield : Yield I C) (c : C) : outcome (gset I * C) :=
  inputSeq _ (DistinctSeq_body yield) (seen, c).

(** The first drive. *)
Definition DistinctSeq (inputSeq : Seq I) : Seq I := λ C yield c,
  '(_, c) ← DistinctSeq_drive inputSeq ∅ C yield c;
  Returned c.

(** [for input := range inputSeq { seen[input] = true }] *)
Definition mark_seen (inputSeq : Seq I) (seen : gset I) : outcome (gset I) :=
  inputSeq (gset I) (λ input seen, Returned (true, {[input]} ∪ seen)) seen.

(** One drive of the closure returned by [IntersectionSeq], from the
    current content of the captured [seen]. *)
Definition IntersectionSeq_drive (inputSeq1 inputSeq2 : Seq I) (seen : gset I)
    (C : Type) (yield : Yield I C) (c : C) : outcome (gset I * C) :=
  seen ← mark_seen inputSeq1 seen;
  c ← inputSeq2 C (λ input c, if decide (input ∈ seen) then yield input c
                              else Returned (true, c)) c;
  Returned (seen, c).

Definition IntersectionSeq (inputSeq1 inputSeq2 : Seq I) : Seq I := λ C yield c,
  '(_, c) ← IntersectionSeq_drive inputSeq1 inputSeq2 ∅ C yield c;
  Returned c.

Definition DifferenceSeq_drive (a b : Seq I) (seen : gset I)
    (C : Type) (yield : Yield I C) (c : C) : outcome (gset I * C) :=
  seen ← mark_seen b seen;
  c ← a C (λ input c, if decide (input ∈ seen) then Returned (true, c)
                      else yield input c) c;
  Returned (seen, c).

Definition DifferenceSeq (a b : Seq I) : Seq I := λ C yield c,
  '(_, c) ← DifferenceSeq_drive a b ∅ C yield c;
  Returned c.

(** [CompareSeq] pulls both sequences in step; on the sequences of two
    slices, [nextA] and [nextB] hand out their elements one by one. *)
Fixpoint CompareSeq (a b : list I) : bool :=
  match a, b with
  | [], [] => true
  | currA :: a, currB :: b => if bool_decide (currA ≠ currB) then false else CompareSeq a b
  | _, _ => false
  end.
End LazyOps.

(** The first loop of [GroupBySeq], which runs when [GroupBySeq] is called:
    [key := keyFunc(item); groups[key] = append(groups[key], item)].  The
    sequence returned ranges over this map. *)
Definition GroupBySeq_groups {I K : Type} `{!EqDecision K} `{!Countable K}
    (inputSeq : Seq I) (keyFunc : I → K) : outcome (gmap K (list I)) :=
  inputSeq (gmap K (list I))
    (λ item groups,
      let key := keyFunc item in
      Returned (true, <[key := default [] (groups !! key) ++ [item]]> groups))
    ∅.

(** ** ParallelForEach

    The same pool as in [ParallelMap], with the elements themselves on the
    channel and no output.  What a call of [forEachFunc] does is up to the
    caller; the model records the calls in the order they are made. *)

Section ForEachOps.
Context {I : Type}.

(** [runtime.NumCPU()] *)
Variable NumCPU : nat.

(** A worker runs [for input := range inputChan { forEachFunc(input) }]. *)
Inductive fe_worker : Type :=
  | FeReceiving
  | FeGot (input : I)
  | FeExited.

Record fe_pool : Type := FePool {
  fe_chan : list I;
  fe_closed : bool;
  fe_sent : nat;
  fe_workers : list fe_worker;
  fe_log : list I
}.

Definition fe_init (inputSlice : list I) : fe_pool :=
  {| fe_chan := []; fe_closed := false; fe_sent := 0;
     fe_workers := replicate (numWorkers NumCPU inputSlice) FeReceiving;
     fe_log := [] |}.

(** The calling goroutine: [for _, input := range inputSlice { inputChan <-
    input }], then [close(inputChan)], then [wg.Wait()]. *)
Definition fe_step_main (inputSlice : list I) (s : fe_pool) : option fe_pool :=
  if fe_closed s then None
  else
    match inputSlice !! fe_sent s with
    | Some input =>
        if decide (length (fe_chan s) < length inputSlice) then
          Some {| fe_chan := fe_chan s ++ [input]; fe_closed := false;
                  fe_sent := S (fe_sent s); fe_workers := fe_workers s;
                  fe_log := fe_log s |}
        else None
    | None =>
        Some {| fe_chan := fe_chan s; fe_closed := true; fe_sent := fe_sent s;
                fe_workers := fe_workers s; fe_log := fe_log s |}
    end.

Definition fe_step_worker (w : nat) (s : fe_pool) : option fe_pool :=
  match fe_workers s !! w with
  | Some FeReceiving =>
      match fe_chan s with
      | input :: rest =>
          Some {| fe_chan := rest; fe_closed := fe_closed s; fe_sent := fe_sent s;
                  fe_workers := <[w := FeGot input]> (fe_workers s);
                  fe_log := fe_log s |}
      | [] =>
          if fe_closed s then
            Some {| fe_chan := []; fe_closed := true; fe_sent := fe_sent s;
                    fe_workers := <[w := FeExited]> (fe_workers s);
                    fe_log := fe_log s |}
          else None
      end
  | Some (FeGot input) =>
      Some {| fe_chan := fe_chan s; fe_closed := fe_closed s; fe_sent := fe_sent s;
              fe_workers := <[w := FeReceiving]> (fe_workers s);
              fe_log := fe_log s ++ [input] |}
  | Some FeExited | None => None
  end.

Definition fe_step (inputSlice : list I) (t : thread) (s : fe_pool) : option fe_pool :=
  match t with
  | Main => fe_step_main inputSlice s
  | Work w => fe_step_worker w s
  end.

Fixpoint fe_run (inputSlice : list I) (sched : list thread) (s : fe_pool)
  : option fe_pool :=
  match sched with
  | [] => Some s
  | t :: sched => s' ← fe_step inputSlice t s; fe_run inputSlice sched s'
  end.

Definition fe_is_Exited (st : fe_worker) : bool :=
  match st with FeExited => true | _ => false end.

Definition fe_joined (s : fe_pool) : bool :=
  fe_closed s && forallb fe_is_Exited (fe_workers s).

(** [ParallelForEach] under a schedule: the calls made, in order, when the
    schedule is a complete execution; a nil slice returns at once. *)
Definition ParallelForEach (inputSlice : option (list I)) (sched : list thread)
  : option (list I) :=
  match inputSlice with
  | None => if decide (sched = []) then Some [] else None
  | Some l =>
      s ← fe_run l sched (fe_init l);
      if fe_joined s then Some (fe_log s) else None
  end.

(** The element a worker has received and not yet passed to
    [forEachFunc]. *)
Definition fe_input (st : fe_worker) : option I :=
  match st with
  | FeGot input => Some input
  | FeReceiving | FeExited => None
  end.

Definition fe_held (s : fe_pool) : list I := omap fe_input (fe_workers s).

Definition fe_worker_weight (st : fe_worker) : nat :=
  match st with
  | FeReceiving => 1
  | FeGot _ => 2
  | FeExited => 0
  end.

Definition fe_weight (inputSlice : list I) (s : fe_pool) : nat :=
  3 * (length inputSlice - fe_sent s) + 2 * length (fe_chan s)
  + sum_list (fe_worker_weight <$> fe_workers s) + (if fe_closed s then 0 else 1).

(** What holds in every state an execution reaches: each element is in
    exactly one place, namely called already, held by a worker, on the
    channel, or not sent yet. *)
Record fe_inv (inputSlice : list I) (s : fe_pool) : Prop := FeInv {
  fe_inv_sent : fe_sent s ≤ length inputSlice;
  fe_inv_closed : fe_closed s = true → fe_sent s = length inputSlice;
  fe_inv_chan : length (fe_chan s) ≤ fe_sent s;
  fe_inv_exited : ∀ w, fe_workers s !! w = Some FeExited →
                  fe_chan s = [] ∧ fe_closed s = true;
  fe_inv_places : fe_log s ++ fe_held s ++ fe_chan s ++ drop (fe_sent s) inputSlice
                  ≡ₚ inputSlice;
  fe_inv_workers : length (fe_workers s) = numWorkers NumCPU inputSlice
}.
End ForEachOps.

Arguments fe_worker : clear implicits.
Arguments fe_pool : clear implicits.

(** * Properties *)

(** ** SafeExcecute *)

Section SafeCallFacts.
Context {T_out : Type} `{!Zero T_out}.
Implicit Types (fn : unit → outcome (T_out * error)) (trace : string).

(** A normal return passes through both wrappers unchanged. *)
Lemma SafeExcecute_returned fn output err :
  fn () = Returned (output, err) →
  SafeExcecute fn = Returned (output, err).
Proof. unfold SafeExcecute. by intros ->. Qed.

Lemma SafeExcecuteWithStackTrace_returned trace fn output err :
  fn () = Returned (output, err) →
  SafeExcecuteWithStackTrace trace fn = Returned (output, err).
Proof. unfold SafeExcecuteWithStackTrace. by intros ->. Qed.

(** A panic whose value implements [error] is turned into that error,
    next to the zero value of the output type. *)
Lemma SafeExcecute_error_panic fn e :
  fn () = Panicked (AnyError e) →
  SafeExcecute fn = Returned (zero, Some e).
Proof. unfold SafeExcecute. by intros ->. Qed.

Lemma SafeExcecuteWithStackTrace_error_panic trace fn e :
  fn () = Panicked (AnyError e) →
  SafeExcecuteWithStackTrace trace fn = Returned (zero, Some (panic_with_trace trace e)).
Proof. unfold SafeExcecuteWithStackTrace. by intros ->. Qed.

(** The wrapper lets a panic through exactly when the panic value does not
    implement [error]. *)
Lemma SafeExcecute_returns_iff fn :
  returns (SafeExcecute fn) ↔
  returns (fn ()) ∨ ∃ e, fn () = Panicked (AnyError e).
Proof.
  unfold SafeExcecute, returns. destruct (fn ()) as [[output err]|[e|s|n]]; simpl.
  - split; [intros _; left|]; eauto.
  - split; [intros _; right|]; eauto.
  - split; [intros [? [=]]|intros [[? [=]]|[? [=]]]].
  - split; [intros [? [=]]|intros [[? [=]]|[? [=]]]].
Qed.

(** C2, at the inputs where the code departs from it: a function that
    panics with a string (a value that is not an [error]) makes both
    [SafeExcecute] and [SafeExcecuteWithStackTrace] panic in turn, with the
    run-time's type-assertion error, instead of returning an error. *)
Theorem SafeExcecute_string_panic_escapes trace (msg : string) :
  SafeExcecute (T_out := T_out) (λ _, Panicked (AnyString msg))
    = Panicked (AnyError (TypeAssertionError "string")) ∧
  SafeExcecuteWithStackTrace (T_out := T_out) trace (λ _, Panicked (AnyString msg))
    = Panicked (AnyError (TypeAssertionError "string")).
Proof. split; reflexivity. Qed.
End SafeCallFacts.

(** ** Max *)

Lemma Max_foldl_spec (l : list Z) (m0 : Z) :
  let m := foldl (λ maxValue num, if (num >? maxValue)%Z then num else maxValue) m0 l in
  (m = m0 ∨ m ∈ l) ∧ (m0 ≤ m)%Z ∧ ∀ x, x ∈ l → (x ≤ m)%Z.
Proof.
  revert m0. induction l as [|y l IH]; intros m0; simpl.
  - split; [by left|]. split; [lia|]. intros x Hx. by apply elem_of_nil in Hx.
  - rewrite Z.gtb_ltb.
    destruct (IH (if (m0 <? y)%Z then y else m0)) as (Hin & Hge & Hall).
    split; [|split].
    + destruct Hin as [->|Hin]; [|right; by constructor].
      destruct (Z.ltb_spec m0 y); [right; constructor|by left].
    + destruct (Z.ltb_spec m0 y); lia.
    + intros x [->|Hx]%elem_of_cons; [|by apply Hall].
      destruct (Z.ltb_spec m0 y); lia.
Qed.

(** On a non-empty argument list [Max] returns an element of the list that
    no element exceeds. *)
Lemma Max_nonempty (elements : list Z) :
  elements ≠ [] →
  ∃ m, Max elements = Returned m ∧ m ∈ elements ∧ ∀ x, x ∈ elements → (x ≤ m)%Z.
Proof.
  destruct elements as [|first rest]; [done|]. intros _.
  eexists. split; [reflexivity|].
  destruct (Max_foldl_spec (first :: rest) first) as (Hin & _ & Hall).
  split; [|exact Hall].
  destruct Hin as [->|Hin]; [constructor|exact Hin].
Qed.

Lemma Max_empty : Max [] = Panicked (AnyString "No element provided to Max").
Proof. reflexivity. Qed.

(** C7, at the input where the code departs from it: [Max()] panics with a
    string, and [SafeExcecute] (with or without stack trace) around that
    call panics too instead of returning a non-nil error; so does it around
    [MaxSeq] of the empty sequence. *)
Theorem SafeExcecute_Max_empty_escapes (trace : string) :
  Max [] = Panicked (AnyString "No element provided to Max") ∧
  SafeExcecute (λ _, m ← Max []; Returned (m, None))
    = Panicked (AnyError (TypeAssertionError "string")) ∧
  SafeExcecuteWithStackTrace trace (λ _, m ← Max []; Returned (m, None))
    = Panicked (AnyError (TypeAssertionError "string")) ∧
  SafeExcecute (λ _, m ← MaxSeq []; Returned (m, None))
    = Panicked (AnyError (TypeAssertionError "string")).
Proof. repeat split. Qed.

(** ** Arithmetic on [int] *)

Lemma wrap_small (z : Z) : (MinInt ≤ z ≤ MaxInt)%Z → wrap z = z.
Proof.
  unfold wrap, MinInt, MaxInt. intros Hz.
  rewrite Z.mod_small; lia.
Qed.

Lemma wrap_idemp_add (a b : Z) : wrap (wrap a + b) = wrap (a + b).
Proof.
  unfold wrap.
  replace ((a + 2 ^ 63) `mod` 2 ^ 64 - 2 ^ 63 + b + 2 ^ 63)%Z
    with ((a + 2 ^ 63) `mod` 2 ^ 64 + b)%Z by lia.
  rewrite Zplus_mod_idemp_l. f_equal. f_equal. lia.
Qed.

Lemma int_sub_small (a b : Z) :
  (MinInt ≤ a - b ≤ MaxInt)%Z → int_sub a b = (a - b)%Z.
Proof. apply wrap_small. Qed.

(** [len(slice) - i - 1] for an index [i] within the slice. *)
Lemma int_sub_len_index (n i : nat) :
  (Z.of_nat n ≤ MaxInt)%Z → i ≤ n →
  int_sub (int_sub (Z.of_nat n) (Z.of_nat i)) 1 = (Z.of_nat n - Z.of_nat i - 1)%Z.
Proof.
  intros Hn Hi. rewrite (int_sub_small (Z.of_nat n)) by (unfold MinInt, MaxInt in *; lia).
  apply int_sub_small. unfold MinInt, MaxInt in *. lia.
Qed.

Lemma int_sub_add_small (a b c : Z) :
  (MinInt ≤ a + b - c ≤ MaxInt)%Z → int_sub (int_add a b) c = (a + b - c)%Z.
Proof.
  intros Hz. unfold int_sub, int_add.
  replace (wrap (a + b) - c)%Z with (wrap (a + b) + - c)%Z by lia.
  rewrite wrap_idemp_add. apply wrap_small. lia.
Qed.

(** ** Reverse *)

Section ReverseFacts.
Context {I : Type}.

(** The loop also runs for [i = len(slice)/2]: on two elements the second
    iteration swaps the pair back. *)
Lemma Reverse_pair (a b : I) : Reverse [a; b] = Returned [a; b].
Proof. reflexivity. Qed.

Lemma Reverse_four (a b c d : I) : Reverse [a; b; c; d] = Returned [d; b; c; a].
Proof. reflexivity. Qed.

Lemma Reverse_three (a b c : I) : Reverse [a; b; c] = Returned [c; b; a].
Proof. reflexivity. Qed.

Lemma Reverse_empty : Reverse (@nil I) = Panicked index_out_of_range.
Proof. reflexivity. Qed.
End ReverseFacts.

Section ReverseLoopFacts.
Context {I : Type}.
Implicit Types (slice : list I).

Lemma index_lookup slice (p : nat) x :
  slice !! p = Some x → index slice (Z.of_nat p) = Returned x.
Proof.
  intros Hp. unfold index. rewrite decide_True by lia. by rewrite Nat2Z.id, Hp.
Qed.

Lemma Reverse_loop_app (range1 range2 : list Z) slice :
  Reverse_loop (range1 ++ range2) slice
  = Reverse_loop range1 slice ≫= Reverse_loop range2.
Proof.
  revert slice. induction range1 as [|i range1 IH]; intros slice; [done|]. simpl.
  destruct (Reverse_body slice i) as [slice'|r]; simpl; [apply IH|done].
Qed.

(** One exchange inside the first half. *)
Lemma Reverse_body_mirrored slice slice' (m : nat) :
  (len slice ≤ MaxInt)%Z → mirrored slice m slice' → 2 * m + 2 ≤ length slice →
  ∃ slice'', Reverse_body slice' (Z.of_nat m) = Returned slice'' ∧ mirrored slice (S m) slice''.
Proof.
  intros Hmax [Hlen Hm] Hhalf. unfold Reverse_body.
  assert (int_sub (int_sub (len slice') (Z.of_nat m)) 1 = Z.of_nat (length slice - 1 - m)) as ->.
  { unfold len in *. rewrite Hlen, int_sub_len_index by (done || lia). lia. }
  destruct (lookup_lt_is_Some_2 slice m) as [a Ha]; [lia|].
  destruct (lookup_lt_is_Some_2 slice (length slice - 1 - m)) as [b Hb]; [lia|].
  assert (slice' !! m = Some a) as Ha'.
  { rewrite Hm by lia. rewrite decide_False by lia. done. }
  assert (slice' !! (length slice - 1 - m) = Some b) as Hb'.
  { rewrite Hm by lia. rewrite decide_False by lia. done. }
  rewrite (index_lookup _ _ _ Hb'). simpl. rewrite (index_lookup _ _ _ Ha'). simpl.
  rewrite !Nat2Z.id. eexists. split; [done|]. split.
  { by rewrite !length_insert. }
  intros p Hp. destruct (decide (p = length slice - 1 - m)) as [->|Hpj].
  - rewrite list_lookup_insert_eq by (rewrite length_insert; lia).
    rewrite decide_True by lia. rewrite <-Ha. f_equal. lia.
  - rewrite list_lookup_insert_ne by done.
    destruct (decide (p = m)) as [->|Hpm].
    + rewrite list_lookup_insert_eq by lia. rewrite decide_True by lia. done.
    + rewrite list_lookup_insert_ne by done. rewrite Hm by done.
      destruct (decide (p < m ∨ length slice - m ≤ p));
        [rewrite decide_True by lia|rewrite decide_False by lia]; done.
Qed.

Lemma Reverse_loop_mirrored slice (k : nat) : ∀ (m : nat) slice',
  (len slice ≤ MaxInt)%Z → mirrored slice m slice' → 2 * (m + k) ≤ length slice →
  ∃ slice'', Reverse_loop (seqZ (Z.of_nat m) (Z.of_nat k)) slice' = Returned slice''
             ∧ mirrored slice (m + k) slice''.
Proof.
  induction k as [|k IH]; intros m slice' Hmax Hm Hhalf.
  { exists slice'. rewrite Nat.add_0_r. done. }
  rewrite seqZ_cons by lia. simpl.
  destruct (Reverse_body_mirrored slice slice' m) as (slice1 & -> & Hm1); [done..|lia|].
  simpl. replace (Z.pred (Z.of_nat (S k))) with (Z.of_nat k) by lia.
  replace (Z.succ (Z.of_nat m)) with (Z.of_nat (S m)) by lia.
  destruct (IH (S m) slice1) as (slice2 & Hrun & Hm2); [done|done|lia|].
  exists slice2. by replace (m + S k) with (S m + k) by lia.
Qed.

(** The first [len(slice)/2] iterations reverse the slice. *)
Lemma Reverse_loop_half slice :
  (len slice ≤ MaxInt)%Z →
  Reverse_loop (seqZ 0 (Z.of_nat (length slice `div` 2))) slice
  = Returned (reverse slice).
Proof.
  intros Hmax.
  pose proof (Nat.div_mod_eq (length slice) 2) as Hdiv.
  pose proof (Nat.mod_upper_bound (length slice) 2 ltac:(lia)) as Hmod.
  set (h := length slice `div` 2) in *.
  destruct (Reverse_loop_mirrored slice h 0 slice)
    as (slice' & Hrun & Hlen & Hm); [done| |lia|].
  { split; [done|]. intros p Hp. by rewrite decide_False by lia. }
  change (Z.of_nat 0) with 0%Z in Hrun. rewrite Hrun. f_equal.
  apply list_eq. intros p. destruct (decide (p < length slice)) as [Hp|Hp].
  - rewrite Hm, reverse_lookup by done.
    case_decide; f_equal; lia.
  - rewrite !lookup_ge_None_2; [done|rewrite length_reverse; lia|lia].
Qed.

Lemma Reverse_unfold slice :
  (len slice ≤ MaxInt)%Z →
  Reverse slice = Reverse_body (reverse slice) (Z.of_nat (length slice `div` 2)).
Proof.
  intros Hmax. unfold Reverse.
  assert (int_div (len slice) 2 + 1 = Z.of_nat (S (length slice `div` 2)))%Z as ->.
  { unfold int_div, len in *. rewrite Z.quot_div_nonneg by lia.
    change 2%Z with (Z.of_nat 2). rewrite <-Nat2Z.inj_div.
    rewrite wrap_small; [lia|].
    pose proof (Nat.div_mod_eq (length slice) 2). unfold MinInt, MaxInt in *. lia. }
  rewrite seqZ_S, Reverse_loop_app, Reverse_loop_half by done. simpl.
  by destruct (Reverse_body _ _).
Qed.

(** On an odd length the extra iteration exchanges the middle element
    with itself: the slice comes back reversed. *)
Lemma Reverse_odd_length slice :
  (len slice ≤ MaxInt)%Z → length slice `mod` 2 = 1 →
  Reverse slice = Returned (reverse slice).
Proof.
  intros Hmax Hodd. rewrite Reverse_unfold by done.
  pose proof (Nat.div_mod_eq (length slice) 2) as Hdiv.
  set (h := length slice `div` 2) in *.
  destruct (lookup_lt_is_Some_2 (reverse slice) h) as [a Ha].
  { rewrite length_reverse. lia. }
  unfold Reverse_body.
  assert (int_sub (int_sub (len (reverse slice)) (Z.of_nat h)) 1 = Z.of_nat h) as ->.
  { unfold len in *. rewrite length_reverse, int_sub_len_index by (done || lia). lia. }
  rewrite (index_lookup _ _ _ Ha). simpl. rewrite Nat2Z.id.
  by rewrite !(list_insert_id _ _ _ Ha).
Qed.

(** On an even length the extra iteration exchanges the middle pair a
    second time: positions [h] and [h+1] hold what they held at the start. *)
Lemma Reverse_even_length slice (h : nat) a b :
  (len slice ≤ MaxInt)%Z → length slice = 2 * S h →
  slice !! h = Some a → slice !! S h = Some b →
  Reverse slice = Returned (<[h := a]> (<[S h := b]> (reverse slice))).
Proof.
  intros Hmax Hlen Ha Hb. rewrite Reverse_unfold by done.
  replace (length slice `div` 2) with (S h)
    by (rewrite Hlen, Nat.mul_comm, Nat.div_mul; lia).
  unfold Reverse_body.
  assert (int_sub (int_sub (len (reverse slice)) (Z.of_nat (S h))) 1 = Z.of_nat h) as ->.
  { unfold len in *. rewrite length_reverse, int_sub_len_index by (done || lia). lia. }
  assert (reverse slice !! h = Some b) as Hb'.
  { rewrite reverse_lookup by lia. rewrite <-Hb. f_equal. lia. }
  assert (reverse slice !! S h = Some a) as Ha'.
  { rewrite reverse_lookup by lia. rewrite <-Ha. f_equal. lia. }
  rewrite (index_lookup _ _ _ Hb'). simpl. rewrite (index_lookup _ _ _ Ha'). simpl.
  by rewrite !Nat2Z.id.
Qed.
End ReverseLoopFacts.

(** C8, at inputs where the code departs from it: [Reverse] returns the
    two-element slice [1, 2] as it was (position 0 still holds 1, not 2),
    leaves the middle pair of [1, 2, 3, 4] in place, and panics on the empty
    slice. *)
Theorem Reverse_even_length_not_reversed :
  Reverse [1; 2]%Z = Returned [1; 2]%Z ∧
  Reverse [1; 2; 3; 4]%Z = Returned [4; 2; 3; 1]%Z ∧
  Reverse (@nil Z) = Panicked index_out_of_range.
Proof. repeat split. Qed.

(** ** Chunk *)

Section ChunkFacts.
Context {I : Type}.
Implicit Types (slice : list I) (chunks : list (list I)).

Lemma Chunk_loop_spec fuel slice (chunkSize i : Z) chunks :
  (0 < chunkSize)%Z → (len slice + chunkSize - 1 ≤ MaxInt)%Z →
  (0 ≤ i)%Z → (len slice - i < Z.of_nat fuel)%Z →
  ∃ new, Chunk_loop fuel slice chunkSize i chunks = Some (Returned (chunks ++ new)) ∧
         concat new = drop (Z.to_nat i) slice ∧
         chunk_sizes chunkSize new.
Proof.
  intros Hsize Hmax. revert i chunks.
  induction fuel as [|fuel IH]; intros i chunks Hi Hfuel.
  { exists []. simpl. unfold len in *. rewrite decide_False by lia.
    rewrite app_nil_r. split; [done|]. split.
    - rewrite drop_ge; [done|lia].
    - intros k chunk Hk. by rewrite lookup_nil in Hk. }
  simpl. destruct (decide (i < len slice)%Z) as [Hlt|Hge].
  2:{ exists []. rewrite app_nil_r. split; [done|]. split.
      - unfold len in *. rewrite drop_ge; [done|lia].
      - intros k chunk Hk. by rewrite lookup_nil in Hk. }
  assert (int_add i chunkSize = (i + chunkSize)%Z) as ->.
  { apply wrap_small. unfold MinInt, MaxInt in *. lia. }
  set (end_ := if decide (i + chunkSize > len slice)%Z then len slice
               else (i + chunkSize)%Z).
  assert (i < end_ ∧ end_ ≤ len slice ∧ end_ ≤ i + chunkSize)%Z as (He1 & He2 & He3).
  { unfold end_. case_decide; lia. }
  unfold subslice. rewrite decide_True by lia.
  set (chunk := take (Z.to_nat end_ - Z.to_nat i) (drop (Z.to_nat i) slice)).
  assert (len chunk = end_ - i)%Z as Hlen.
  { unfold chunk, len in *. rewrite length_take, length_drop. lia. }
  destruct (IH (i + chunkSize)%Z (chunks ++ [chunk])) as (new & Hrun & Hcat & Hsz);
    [lia|lia|].
  exists (chunk :: new). split; [|split].
  - rewrite Hrun. by rewrite <-app_assoc.
  - simpl. rewrite Hcat. unfold chunk, end_. case_decide.
    + rewrite (drop_ge slice (Z.to_nat (i + chunkSize))) by (unfold len in *; lia).
      rewrite app_nil_r. apply take_ge. rewrite length_drop. unfold len in *. lia.
    + replace (Z.to_nat (i + chunkSize) - Z.to_nat i) with (Z.to_nat chunkSize) by lia.
      replace (Z.to_nat (i + chunkSize)) with (Z.to_nat i + Z.to_nat chunkSize) by lia.
      rewrite <-drop_drop. apply take_drop.
  - intros [|k] c Hk; simpl in Hk.
    + injection Hk as <-. split; [lia|]. simpl. intros Hmore.
      destruct new as [|c' new']; [simpl in Hmore; lia|].
      unfold end_ in Hlen. case_decide; [|lia].
      exfalso. assert (drop (Z.to_nat (i + chunkSize)) slice = []) as Hnil.
      { apply drop_ge. unfold len in *. lia. }
      rewrite Hnil in Hcat. simpl in Hcat.
      destruct (Hsz 0 c' eq_refl) as [Hc' _].
      apply (f_equal length) in Hcat. rewrite length_app in Hcat.
      unfold len in Hc'. simpl in Hcat. lia.
    + destruct (Hsz k c Hk) as [? Hlast]. split; [done|].
      simpl. intros ?. apply Hlast. lia.
Qed.

(** Where the ceiling computation does not overflow, [Chunk] returns
    chunks that concatenate to the input and have the stated sizes. *)
Lemma Chunk_without_overflow slice (chunkSize : Z) :
  (0 < chunkSize)%Z → slice ≠ [] → (len slice + chunkSize - 1 ≤ MaxInt)%Z →
  ∃ chunks, Chunk slice chunkSize = Some (Returned chunks) ∧
            concat chunks = slice ∧ chunk_sizes chunkSize chunks.
Proof.
  intros Hsize Hne Hmax. unfold Chunk.
  assert (0 < len slice)%Z as Hlen.
  { unfold len. destruct slice; [done|simpl; lia]. }
  rewrite decide_False by lia.
  rewrite int_sub_add_small by (unfold MinInt, MaxInt in *; lia).
  assert (0 ≤ (len slice + chunkSize - 1) `quot` chunkSize ≤ MaxInt)%Z as Hq.
  { split; [apply Z.quot_pos; lia|].
    etrans; [|exact Hmax]. apply Z.quot_le_upper_bound; [lia|nia]. }
  unfold int_div. rewrite wrap_small by (unfold MinInt, MaxInt in *; lia).
  rewrite decide_False by lia.
  destruct (Chunk_loop_spec (S (length slice)) slice chunkSize 0 [])
    as (new & Hrun & Hcat & Hsz); [done|done|done|unfold len; lia|].
  exists new. rewrite Hrun. by rewrite drop_0 in Hcat.
Qed.

(** The two early exits. *)
Lemma Chunk_empty_result slice (chunkSize : Z) :
  (chunkSize ≤ 0)%Z ∨ slice = [] → Chunk slice chunkSize = Some (Returned []).
Proof.
  intros H. unfold Chunk. rewrite decide_True; [done|].
  destruct H as [?| ->]; [by left|by right].
Qed.
End ChunkFacts.

(** C5, at an input where the code departs from it: with [chunkSize] the
    largest [int] the ceiling [(len(slice) + chunkSize - 1) / chunkSize]
    overflows to -1 on a two-element (or three-element) slice and
    [make] panics, where the claim promises chunks that concatenate to the
    slice. *)
Theorem Chunk_MaxInt_panics :
  Chunk [1; 2]%Z MaxInt = Some (Panicked makeslice_cap_out_of_range) ∧
  Chunk [1; 2; 3]%Z MaxInt = Some (Panicked makeslice_cap_out_of_range).
Proof. split; vm_compute; reflexivity. Qed.

(** ** RemoveElement *)

Section RemoveElementFacts.
Context {I : Type} `{!EqDecision I} `{!Countable I}.
Implicit Types (slice l : list I) (element : I).

(** The in-place loop never overwrites an element it has yet to read: the
    view it returns is the retained prefix followed by what the functional
    loop keeps of the unread part. *)
Lemma RemoveElement_loop element limit rest : ∀ i slice newSliceLen count,
  drop i slice = rest → newSliceLen ≤ i →
  let '(slice', newSliceLen', _) :=
    foldl (RemoveElement_body element limit) (slice, newSliceLen, count)
          (seq i (length rest)) in
  take newSliceLen' slice' = take newSliceLen slice
                             ++ RemoveElement_kept element limit count rest.
Proof.
  induction rest as [|e rest IH]; intros i slice n count Hdrop Hn; simpl.
  { by rewrite app_nil_r. }
  assert (slice !! i = Some e) as Hi.
  { rewrite <-(Nat.add_0_r i), <-lookup_drop, Hdrop. done. }
  assert (drop (S i) slice = rest) as Hrest.
  { replace (S i) with (i + 1) by lia. by rewrite <-drop_drop, Hdrop. }
  rewrite Hi.
  destruct (bool_decide (e = element) && ((limit =? -1)%Z || (count <? limit)%Z)).
  - apply IH; [done|lia].
  - specialize (IH (S i) (<[n := e]> slice) (S n) count).
    rewrite drop_insert_lt in IH by lia.
    specialize (IH Hrest ltac:(lia)).
    destruct (foldl _ _ _) as [[slice' n'] count'].
    rewrite IH. rewrite (take_S_r _ _ e).
    + rewrite take_insert_ge by lia. by rewrite <-app_assoc.
    + apply list_lookup_insert_eq. apply lookup_lt_Some in Hi. lia.
Qed.

Lemma RemoveElement_inplace_kept slice element limit :
  let '(slice', newSliceLen, _) := RemoveElement_inplace slice element limit in
  take newSliceLen slice' = RemoveElement_kept element limit 0 slice.
Proof.
  pose proof (RemoveElement_loop element limit slice 0 slice 0 0%Z (drop_0 _)
                (Nat.le_refl _)) as H.
  unfold RemoveElement_inplace. destruct (foldl _ _ _) as [[slice' n'] count'].
  by rewrite H.
Qed.

Lemma RemoveElement_kept_all element count l :
  RemoveElement_kept element (-1) count l = filter (λ x, x ≠ element) l.
Proof.
  revert count. induction l as [|e l IH]; intros count; [done|]. simpl.
  rewrite filter_cons. case_bool_decide; simpl.
  - rewrite decide_False by tauto. apply IH.
  - rewrite decide_True by done. by rewrite IH.
Qed.

Lemma RemoveElement_kept_exhausted element (limit count : Z) l :
  (0 < limit ≤ count)%Z → RemoveElement_kept element limit count l = l.
Proof.
  intros Hlimit. induction l as [|e l IH]; [done|]. simpl.
  assert ((limit =? -1)%Z = false) as -> by lia.
  assert ((count <? limit)%Z = false) as -> by lia.
  rewrite andb_false_r. by rewrite IH.
Qed.

Lemma RemoveElement_kept_leftmost element (limit count : Z) l :
  (0 < limit)%Z →
  RemoveElement_kept element limit count l
  = remove_leftmost element (Z.to_nat (limit - count)) l.
Proof.
  intros Hlimit. revert count. induction l as [|e l IH]; intros count; [done|].
  simpl. case_bool_decide as He; simpl.
  - rewrite decide_True by done.
    assert ((limit =? -1)%Z = false) as -> by lia. simpl.
    destruct (Z.ltb_spec count limit).
    + rewrite IH. replace (Z.to_nat (limit - count))
        with (S (Z.to_nat (limit - (count + 1)))) by lia. done.
    + replace (Z.to_nat (limit - count)) with 0 by lia.
      by rewrite RemoveElement_kept_exhausted by lia.
  - rewrite decide_False by done. by rewrite IH.
Qed.

Lemma remove_leftmost_zero element l : remove_leftmost element 0 l = l.
Proof.
  induction l as [|x l IH]; [done|]. simpl. case_decide; [done|by rewrite IH].
Qed.

(** Removing the leftmost [n] occurrences cuts the list in two: a front
    part that loses all its occurrences, exactly [min n (count)] of them,
    and a back part that is kept as it is. *)
Lemma remove_leftmost_split element n l :
  ∃ l1 l2, l = l1 ++ l2 ∧
    remove_leftmost element n l = filter (λ x, x ≠ element) l1 ++ l2 ∧
    occurrences element l1 = n `min` occurrences element l.
Proof.
  unfold occurrences. revert n. induction l as [|x l IH]; intros n.
  { exists [], []. simpl. repeat split. lia. }
  simpl. destruct (decide (x = element)) as [->|Hx].
  - destruct n as [|n].
    + exists [], (element :: l). repeat split.
    + destruct (IH n) as (l1 & l2 & -> & Hrem & Hcount).
      exists (element :: l1), l2. split; [done|]. split.
      * rewrite filter_cons_False by tauto. done.
      * rewrite !filter_cons_True by done. simpl. lia.
  - destruct (IH n) as (l1 & l2 & -> & Hrem & Hcount).
    exists (x :: l1), l2. split; [done|]. split.
    + rewrite filter_cons_True by done. simpl. by rewrite Hrem.
    + rewrite !filter_cons_False by done. done.
Qed.

Lemma occurrences_app element l1 l2 :
  occurrences element (l1 ++ l2) = occurrences element l1 + occurrences element l2.
Proof. unfold occurrences. by rewrite filter_app, length_app. Qed.

Lemma occurrences_filter_ne element l :
  occurrences element (filter (λ x, x ≠ element) l) = 0.
Proof.
  unfold occurrences. induction l as [|x l IH]; [done|].
  destruct (decide (x = element)) as [->|Hx].
  - rewrite filter_cons_False by tauto. done.
  - rewrite filter_cons_True by done. rewrite filter_cons_False by done. done.
Qed.

Lemma filter_ne_idemp element l :
  filter (λ x, x ≠ element) (filter (λ x, x ≠ element) l)
  = filter (λ x, x ≠ element) l.
Proof.
  induction l as [|x l IH]; [done|].
  destruct (decide (x = element)) as [->|Hx].
  - rewrite filter_cons_False by tauto. done.
  - rewrite !filter_cons_True by done. by rewrite IH.
Qed.

Lemma RemoveElement_split slice element occurrencesToDelete :
  ∃ l1 l2, slice = l1 ++ l2 ∧
    RemoveElement slice element occurrencesToDelete
      = filter (λ x, x ≠ element) l1 ++ l2 ∧
    occurrences element l1 = removed_occurrences slice element occurrencesToDelete.
Proof.
  unfold RemoveElement, removed_occurrences.
  destruct (decide (length slice = 0)) as [Hnil|Hlen].
  { apply length_zero_iff_nil in Hnil as ->. exists [], [].
    repeat split. unfold occurrences.
    destruct occurrencesToDelete; [case_decide|]; simpl; lia. }
  destruct occurrencesToDelete as [k|].
  - destruct (decide (k ≤ 0)%Z) as [Hk|Hk].
    { exists [], slice. repeat split. }
    pose proof (RemoveElement_inplace_kept slice element k) as Hloop.
    destruct (RemoveElement_inplace slice element k) as [[slice' n] c].
    rewrite Hloop, RemoveElement_kept_leftmost by lia.
    replace (k - 0)%Z with k by lia. apply remove_leftmost_split.
  - pose proof (RemoveElement_inplace_kept slice element (-1)) as Hloop.
    destruct (RemoveElement_inplace slice element (-1)) as [[slice' n] c].
    rewrite Hloop, RemoveElement_kept_all.
    exists slice, []. by rewrite !app_nil_r.
Qed.

(** C3 as amended: with the nil pointer every occurrence of [element] is
    removed; with a count [k > 0] the result has [max(0, count - k)]
    occurrences; with a count that is zero or negative the slice comes back
    unchanged.  In each case the removed occurrences are the leftmost ones
    (the slice splits into a front part that loses all its occurrences and
    a back part kept as it is) and the other elements keep their order. *)
Theorem RemoveElement_occurrences slice element (occurrencesToDelete : option Z) :
  let result := RemoveElement slice element occurrencesToDelete in
  occurrences element result =
    match occurrencesToDelete with
    | None => 0
    | Some k =>
        if decide (k ≤ 0)%Z then occurrences element slice
        else occurrences element slice - Z.to_nat k
    end ∧
  match occurrencesToDelete with
  | Some k => if decide (k ≤ 0)%Z then result = slice else True
  | None => True
  end ∧
  (∃ l1 l2, slice = l1 ++ l2 ∧
     result = filter (λ x, x ≠ element) l1 ++ l2 ∧
     occurrences element l1 = removed_occurrences slice element occurrencesToDelete) ∧
  filter (λ x, x ≠ element) result = filter (λ x, x ≠ element) slice.
Proof.
  intros result.
  destruct (RemoveElement_split slice element occurrencesToDelete)
    as (l1 & l2 & Hslice & Hres & Hcount).
  fold result in Hres.
  assert (occurrences element result = occurrences element slice
            - removed_occurrences slice element occurrencesToDelete) as Hocc.
  { rewrite Hres, Hslice at 1. rewrite !occurrences_app, occurrences_filter_ne.
    rewrite <-Hcount. lia. }
  split; [|split; [|split]].
  - rewrite Hocc. unfold removed_occurrences.
    destruct occurrencesToDelete as [k|]; [case_decide|]; lia.
  - destruct occurrencesToDelete as [k|]; [|done]. case_decide; [|done].
    unfold removed_occurrences in Hcount. rewrite decide_True in Hcount by done.
    rewrite Hres, Hslice. f_equal.
    clear -Hcount. unfold occurrences in Hcount.
    induction l1 as [|x l1 IH]; [done|].
    destruct (decide (x = element)) as [->|Hx].
    + rewrite filter_cons_True in Hcount by done. done.
    + rewrite filter_cons_False in Hcount by done.
      rewrite filter_cons_True by done. by rewrite IH.
  - by exists l1, l2.
  - rewrite Hres, Hslice. rewrite !filter_app. by rewrite filter_ne_idemp.
Qed.
End RemoveElementFacts.

(** C3 as stated fails: given a pointer to -1, [RemoveElement] returns the
    slice unchanged, so the occurrence of 5 is still there. *)
Lemma RemoveElement_negative_count_keeps_all :
  RemoveElement [5%Z] 5%Z (Some (-1)%Z) = [5%Z] ∧
  occurrences 5%Z (RemoveElement [5%Z] 5%Z (Some (-1)%Z)) ≠ 0.
Proof. split; [reflexivity|]. vm_compute. lia. Qed.

(** ** Distinct *)

Section DistinctFacts.
Context {I : Type} `{!EqDecision I} `{!Countable I}.
Implicit Types (slice l before rest : list I) (seen : gset I).

Lemma first_occurrences_from_elem before rest x :
  x ∈ first_occurrences_from before rest ↔ x ∈ rest ∧ x ∉ before.
Proof.
  revert before. induction rest as [|y rest IH]; intros before; simpl.
  { split; [by intros ?%elem_of_nil|by intros [?%elem_of_nil _]]. }
  destruct (decide (y ∈ before)) as [Hy|Hy].
  - rewrite IH, elem_of_cons, elem_of_app, list_elem_of_singleton.
    split; [tauto|]. intros [[->|Hx] Hb]; [done|].
    split; [done|]. by intros [?| ->].
  - rewrite !elem_of_cons, IH, elem_of_app, list_elem_of_singleton.
    destruct (decide (x = y)) as [->|Hxy]; tauto.
Qed.

Lemma first_occurrences_from_NoDup before rest :
  NoDup (first_occurrences_from before rest).
Proof.
  revert before. induction rest as [|y rest IH]; intros before; simpl.
  { constructor. }
  destruct (decide (y ∈ before)); [apply IH|].
  constructor; [|apply IH].
  rewrite first_occurrences_from_elem, elem_of_app, list_elem_of_singleton. tauto.
Qed.

(** A list without repetition that avoids [before] is kept as it is. *)
Lemma first_occurrences_from_id before rest :
  NoDup rest → (∀ x, x ∈ rest → x ∉ before) →
  first_occurrences_from before rest = rest.
Proof.
  revert before. induction rest as [|y rest IH]; intros before Hnd Hdisj; [done|].
  simpl. apply NoDup_cons in Hnd as [Hy Hnd].
  rewrite decide_False by (apply Hdisj; constructor).
  f_equal. apply IH; [done|].
  intros x Hx. rewrite elem_of_app, list_elem_of_singleton.
  intros [?| ->]; [|done]. apply (Hdisj x); [by constructor|done].
Qed.

Lemma first_occurrences_from_app before (a b : list I) :
  first_occurrences_from before (a ++ b)
  = first_occurrences_from before a ++ first_occurrences_from (before ++ a) b.
Proof.
  revert before. induction a as [|x a IH]; intros before; simpl.
  { by rewrite app_nil_r. }
  rewrite IH, <-app_assoc. simpl. by case_decide.
Qed.

Lemma first_index_Some x l : x ∈ l → ∃ p, first_index x l = Some p.
Proof.
  induction l as [|y l IH]; [by intros ?%elem_of_nil|].
  intros Hx. simpl. destruct (decide (y = x)); [by eexists|].
  apply elem_of_cons in Hx as [->|Hx]; [done|].
  destruct (IH Hx) as [p ->]. by eexists.
Qed.

(** Elements further to the right in [first_occurrences_from] have their
    first occurrence further to the right in the list. *)
Lemma first_occurrences_from_order before rest i j x y :
  first_occurrences_from before rest !! i = Some x →
  first_occurrences_from before rest !! j = Some y →
  i < j →
  ∃ p q, first_index x rest = Some p ∧ first_index y rest = Some q ∧ p < q.
Proof.
  revert before i j. induction rest as [|z rest IH]; intros before i j; simpl.
  { by rewrite lookup_nil. }
  assert (∀ k w, first_occurrences_from (before ++ [z]) rest !! k = Some w →
                 z ≠ w ∧ w ∈ rest) as Htail.
  { intros k w Hw%list_elem_of_lookup_2%first_occurrences_from_elem.
    rewrite elem_of_app, list_elem_of_singleton in Hw.
    split; [intros ->|]; tauto. }
  destruct (decide (z ∈ before)) as [Hz|Hz].
  - intros Hx Hy Hij.
    destruct (IH _ _ _ Hx Hy Hij) as (p & q & Hp & Hq & Hpq).
    destruct (Htail _ _ Hx) as [Hzx _], (Htail _ _ Hy) as [Hzy _].
    exists (S p), (S q). rewrite !decide_False by done. rewrite Hp, Hq.
    repeat split; lia.
  - destruct i as [|i], j as [|j]; simpl; try lia.
    + intros [= <-] Hy _. destruct (Htail _ _ Hy) as [Hzy Hyin].
      destruct (first_index_Some y rest Hyin) as [q Hq].
      exists 0, (S q). rewrite decide_True by done. rewrite decide_False by done.
      rewrite Hq. repeat split; lia.
    + intros Hx Hy Hij.
      destruct (IH _ _ _ Hx Hy ltac:(lia)) as (p & q & Hp & Hq & Hpq).
      destruct (Htail _ _ Hx) as [Hzx _], (Htail _ _ Hy) as [Hzy _].
      exists (S p), (S q). rewrite !decide_False by done. rewrite Hp, Hq.
      repeat split; lia.
Qed.

(** The in-place loop against the specification: the returned view is the
    retained prefix followed by the first occurrences in the unread part. *)
Lemma Distinct_loop rest : ∀ i slice newSliceLen seen before,
  drop i slice = rest → newSliceLen ≤ i → (∀ x, x ∈ seen ↔ x ∈ before) →
  let '(slice', newSliceLen', _) :=
    foldl Distinct_body (slice, newSliceLen, seen) (seq i (length rest)) in
  take newSliceLen' slice' = take newSliceLen slice
                             ++ first_occurrences_from before rest.
Proof.
  induction rest as [|item rest IH]; intros i slice n seen before Hdrop Hn Hseen; simpl.
  { by rewrite app_nil_r. }
  assert (slice !! i = Some item) as Hi.
  { rewrite <-(Nat.add_0_r i), <-lookup_drop, Hdrop. done. }
  assert (drop (S i) slice = rest) as Hrest.
  { replace (S i) with (i + 1) by lia. by rewrite <-drop_drop, Hdrop. }
  rewrite Hi. destruct (decide (item ∈ seen)) as [Hin|Hnin].
  - rewrite decide_True by (by apply Hseen).
    apply IH; [done|lia|].
    intros x. rewrite elem_of_app, list_elem_of_singleton, <-Hseen.
    split; [tauto|]. by intros [?| ->].
  - rewrite decide_False by (by rewrite <-Hseen).
    specialize (IH (S i) (<[n := item]> slice) (S n) ({[item]} ∪ seen) (before ++ [item])).
    rewrite drop_insert_lt in IH by lia.
    specialize (IH Hrest ltac:(lia)).
    destruct (foldl _ _ _) as [[slice' n'] seen'].
    rewrite IH.
    + rewrite (take_S_r _ _ item).
      * rewrite take_insert_ge by lia. by rewrite <-app_assoc.
      * apply list_lookup_insert_eq. apply lookup_lt_Some in Hi. lia.
    + intros x. rewrite elem_of_union, elem_of_singleton, elem_of_app,
        list_elem_of_singleton, Hseen. tauto.
Qed.

Lemma Distinct_first_occurrences slice : Distinct slice = first_occurrences slice.
Proof.
  pose proof (Distinct_loop slice 0 slice 0 ∅ [] (drop_0 _) (Nat.le_refl _)) as H.
  unfold Distinct, Distinct_inplace.
  destruct (foldl _ _ _) as [[slice' n'] seen'].
  rewrite H; [done|]. intros x. rewrite elem_of_empty, elem_of_nil. done.
Qed.

(** The loop only writes below [newSliceLen]: from there on the backing
    array holds what it held before. *)
Lemma Distinct_loop_tail rest : ∀ i slice newSliceLen seen,
  drop i slice = rest → newSliceLen ≤ i →
  let '(slice', newSliceLen', _) :=
    foldl Distinct_body (slice, newSliceLen, seen) (seq i (length rest)) in
  newSliceLen ≤ newSliceLen' ∧ newSliceLen' ≤ newSliceLen + length rest ∧
  length slice' = length slice ∧
  drop newSliceLen' slice' = drop newSliceLen' slice.
Proof.
  induction rest as [|item rest IH]; intros i slice n seen Hdrop Hn; simpl.
  { repeat split; lia. }
  assert (slice !! i = Some item) as Hi.
  { rewrite <-(Nat.add_0_r i), <-lookup_drop, Hdrop. done. }
  assert (drop (S i) slice = rest) as Hrest.
  { replace (S i) with (i + 1) by lia. by rewrite <-drop_drop, Hdrop. }
  rewrite Hi. destruct (decide (item ∈ seen)) as [Hin|Hnin].
  - specialize (IH (S i) slice n seen Hrest ltac:(lia)).
    destruct (foldl _ _ _) as [[slice' n'] seen'].
    destruct IH as (? & ? & ? & ?). repeat split; (done || lia).
  - specialize (IH (S i) (<[n := item]> slice) (S n) ({[item]} ∪ seen)).
    rewrite drop_insert_lt in IH by lia. specialize (IH Hrest ltac:(lia)).
    destruct (foldl _ _ _) as [[slice' n'] seen'].
    destruct IH as (Hle & Hup & Hlen & Htail). rewrite length_insert in Hlen.
    repeat split; [lia|lia|done|].
    by rewrite Htail, drop_insert_lt by lia.
Qed.

Lemma first_occurrences_from_seen before rest :
  (∀ x, x ∈ rest → x ∈ before) → first_occurrences_from before rest = [].
Proof.
  revert before. induction rest as [|y rest IH]; intros before Hseen; [done|].
  simpl. rewrite decide_True by (apply Hseen; constructor).
  apply IH. intros x Hx. apply elem_of_app. left. apply Hseen. by constructor.
Qed.

(** After the call the caller's slice reads the result followed by the
    untouched rest of its old contents. *)
Lemma Distinct_backing_split slice :
  Distinct_backing slice
  = Distinct slice ++ drop (length (Distinct slice)) slice.
Proof.
  pose proof (Distinct_loop_tail slice 0 slice 0 ∅ (drop_0 _) (Nat.le_refl _)) as H.
  unfold Distinct_backing, Distinct, Distinct_inplace.
  destruct (foldl _ _ _) as [[slice' n'] seen']. simpl.
  destruct H as (_ & Hup & Hlen & Htail).
  rewrite length_take, Nat.min_l by lia.
  by rewrite <-Htail, take_drop.
Qed.

(** Calling [Distinct] once more on the slice the first call has compacted
    in place gives the same result again. *)
Lemma Distinct_backing_again slice :
  Distinct (Distinct_backing slice) = Distinct slice.
Proof.
  rewrite Distinct_backing_split, !Distinct_first_occurrences.
  unfold first_occurrences. set (d := first_occurrences_from [] slice).
  rewrite first_occurrences_from_app. simpl.
  rewrite (first_occurrences_from_id [] d).
  - rewrite (first_occurrences_from_seen d); [by rewrite app_nil_r|].
    intros x Hx%subseteq_drop. apply first_occurrences_from_elem.
    split; [done|apply not_elem_of_nil].
  - apply first_occurrences_from_NoDup.
  - intros x _. apply not_elem_of_nil.
Qed.

(** C6: [Distinct] returns a slice without repetition, with the elements of
    the input and no others, in the order of their first occurrences (it is
    the list of the elements found at a position where they had not
    occurred before, and elements further right in the result occur first
    further right in the input), and applying it twice gives the same as
    applying it once, be it to the returned slice or to the caller's slice
    that the first call has compacted in place. *)
Theorem Distinct_no_duplicates_order_idempotent slice :
  NoDup (Distinct slice) ∧
  (∀ x, x ∈ Distinct slice ↔ x ∈ slice) ∧
  Distinct slice = first_occurrences slice ∧
  (∀ i j x y, Distinct slice !! i = Some x → Distinct slice !! j = Some y → i < j →
     ∃ p q, first_index x slice = Some p ∧ first_index y slice = Some q ∧ p < q) ∧
  Distinct (Distinct slice) = Distinct slice ∧
  Distinct (Distinct_backing slice) = Distinct slice.
Proof.
  split; [|split; [|split; [|split; [|split]]]]; [..|apply Distinct_backing_again];
    rewrite !Distinct_first_occurrences; unfold first_occurrences.
  - apply first_occurrences_from_NoDup.
  - intros x. rewrite first_occurrences_from_elem, elem_of_nil. tauto.
  - done.
  - intros i j x y. apply first_occurrences_from_order.
  - apply first_occurrences_from_id; [apply first_occurrences_from_NoDup|].
    intros x _. apply not_elem_of_nil.
Qed.
End DistinctFacts.

(** ** Push iterators *)

Section SeqFacts.
Context {V C : Type}.
Implicit Types (yield : Yield V C) (s : list V) (c : C).

Lemma Values_drive_list yield s c :
  Values s C yield c = '(c, _) ← drive_list yield s c; Returned c.
Proof.
  revert c. induction s as [|v s IH]; intros c; [done|]. simpl.
  destruct (yield v c) as [[[] c']|r]; simpl; [apply IH|done|done].
Qed.

Lemma drive_list_app yield s1 s2 c :
  drive_list yield (s1 ++ s2) c =
    '(c, stopped) ← drive_list yield s1 c;
    if stopped : bool then Returned (c, true) else drive_list yield s2 c.
Proof.
  revert c. induction s1 as [|v s1 IH]; intros c; [done|]. simpl.
  destruct (yield v c) as [[[] c']|r]; simpl; [apply IH|done|done].
Qed.
End SeqFacts.

Lemma Values_collect_yield {V} (s acc : list V) :
  Values s (list V) collect_yield acc = Returned (acc ++ s).
Proof.
  revert acc. induction s as [|v s IH]; intros acc; simpl.
  { by rewrite app_nil_r. }
  rewrite IH. by rewrite <-app_assoc.
Qed.

Lemma collect_Values {V} (s : list V) : collect (Values s) = Returned s.
Proof. apply Values_collect_yield. Qed.

(** ** UnionSeq *)

Section UnionSeqFacts.
Context {I : Type} `{!EqDecision I} `{!Countable I}.
Implicit Types (a b l before : list I) (seen : gset I).

(** One loop of [UnionSeq] over the elements [l]: towards the consumer it
    is a plain loop over the elements of [l] not seen before, and when it
    runs to the end the map [seen] holds what it held plus [l]. *)
Lemma UnionSeq_loop {C} (yield : Yield I C) l : ∀ seen before c,
  (∀ x, x ∈ seen ↔ x ∈ before) →
  ('(_, c, returned) ← Values l _ (UnionSeq_body yield) (seen, c, false);
   Returned (c, returned))
  = drive_list yield (first_occurrences_from before l) c ∧
  ∀ seen' c', Values l _ (UnionSeq_body yield) (seen, c, false)
                = Returned (seen', c', false) →
              ∀ x, x ∈ seen' ↔ x ∈ before ++ l.
Proof.
  induction l as [|item l IH]; intros seen before c Hseen; simpl.
  { split; [done|]. intros seen' c' [= <- <-] x. by rewrite app_nil_r. }
  destruct (decide (item ∈ seen)) as [Hin|Hnin]; simpl.
  - rewrite decide_True by (by apply Hseen).
    assert (∀ x, x ∈ seen ↔ x ∈ before ++ [item]) as Hseen'.
    { intros x. rewrite elem_of_app, list_elem_of_singleton, <-Hseen.
      split; [tauto|]. by intros [?| ->]. }
    destruct (IH seen (before ++ [item]) c Hseen') as [Hrun Hend].
    split; [exact Hrun|].
    intros seen' c' Hret x. rewrite (Hend _ _ Hret), <-app_assoc. done.
  - rewrite decide_False by (by rewrite <-Hseen).
    simpl. destruct (yield item c) as [[[] c1]|r]; simpl.
    + assert (∀ x, x ∈ {[item]} ∪ seen ↔ x ∈ before ++ [item]) as Hseen'.
      { intros x. rewrite elem_of_union, elem_of_singleton, elem_of_app,
          list_elem_of_singleton, Hseen. tauto. }
      destruct (IH ({[item]} ∪ seen) (before ++ [item]) c1 Hseen') as [Hrun Hend].
      split; [exact Hrun|].
      intros seen' c' Hret x. rewrite (Hend _ _ Hret), <-app_assoc. done.
    + split; [done|]. intros seen' c' [=].
    + split; [done|]. intros seen' c' [=].
Qed.

(** The first drive of [UnionSeq] over two finite sequences is, for every
    consumer, the plain sequence of the first occurrences in [a ++ b]. *)
Lemma UnionSeq_Values {C} (yield : Yield I C) a b c :
  UnionSeq (Values a) (Values b) C yield c
  = Values (first_occurrences (a ++ b)) C yield c.
Proof.
  unfold first_occurrences. rewrite first_occurrences_from_app.
  rewrite Values_drive_list, drive_list_app. simpl.
  unfold UnionSeq, UnionSeq_drive.
  destruct (UnionSeq_loop yield a ∅ [] c) as [Hrun1 Hend1].
  { intros x. by rewrite elem_of_empty, elem_of_nil. }
  rewrite <-Hrun1.
  destruct (Values a _ (UnionSeq_body yield) (∅, c, false))
    as [[[seen1 c1] [|]]|r]; simpl; [done| |done].
  destruct (UnionSeq_loop yield b seen1 a c1) as [Hrun2 _].
  { intros x. by rewrite (Hend1 _ _ eq_refl). }
  rewrite <-Hrun2.
  by destruct (Values b _ (UnionSeq_body yield) (seen1, c1, false))
    as [[[seen2 c2] r2]|r].
Qed.

(** C10: driven to the end, [UnionSeq] over two finite sequences yields
    the first occurrences in [a] followed by [b]: the first-time elements of
    [a] in their order, then the elements of [b] not seen yet in theirs; each
    element of [a] or [b] is yielded, and none twice.  Every consumer, also
    one that stops early, sees that sequence.  The eager [Union] gives no
    such order: [2, 1] is a possible result of [Union([1], [2])]. *)
Theorem UnionSeq_first_occurrence_order a b :
  collect (UnionSeq (Values a) (Values b))
    = Returned (first_occurrences a ++ first_occurrences_from a b) ∧
  first_occurrences a ++ first_occurrences_from a b = first_occurrences (a ++ b) ∧
  NoDup (first_occurrences (a ++ b)) ∧
  (∀ x, x ∈ first_occurrences (a ++ b) ↔ x ∈ a ∨ x ∈ b) ∧
  (∀ C (yield : Yield I C) c,
     UnionSeq (Values a) (Values b) C yield c
     = Values (first_occurrences (a ++ b)) C yield c) ∧
  Union [1%Z] [2%Z] [2%Z; 1%Z] ∧
  collect (UnionSeq (Values [1%Z]) (Values [2%Z])) = Returned [1%Z; 2%Z].
Proof.
  assert (first_occurrences a ++ first_occurrences_from a b
          = first_occurrences (a ++ b)) as Happ.
  { unfold first_occurrences. by rewrite first_occurrences_from_app. }
  split; [|split; [exact Happ|split; [|split; [|split; [|split]]]]].
  - unfold collect. rewrite UnionSeq_Values, Happ. apply collect_Values.
  - apply first_occurrences_from_NoDup.
  - intros x. unfold first_occurrences.
    rewrite first_occurrences_from_elem, elem_of_app, elem_of_nil. tauto.
  - intros C yield c. apply UnionSeq_Values.
  - split.
    + apply NoDup_cons. split; [|apply NoDup_singleton].
      rewrite list_elem_of_singleton. lia.
    + intros item. unfold Union_set. simpl. set_solver.
  - reflexivity.
Qed.
End UnionSeqFacts.

(** ** RemoveElementSeq *)

Section RemoveElementSeqFacts.
Context {I : Type} `{!EqDecision I} `{!Countable I}.
Implicit Types (l : list I) (element : I).

Lemma remove_leftmost_all element n l :
  occurrences element l ≤ n →
  remove_leftmost element n l = filter (λ x, x ≠ element) l.
Proof.
  unfold occurrences. revert n. induction l as [|x l IH]; intros n Hn; [done|].
  simpl. destruct (decide (x = element)) as [->|Hx].
  - rewrite filter_cons_True in Hn by done. simpl in Hn.
    rewrite filter_cons_False by tauto.
    destruct n as [|n]; [lia|]. apply IH. lia.
  - rewrite filter_cons_False in Hn by done.
    rewrite filter_cons_True by done. by rewrite IH.
Qed.

Lemma occurrences_le_length element l : occurrences element l ≤ length l.
Proof. apply length_filter. Qed.

(** Towards the consumer one drive is the plain loop over the input
    without its leftmost [limit] occurrences of [element]. *)
Lemma RemoveElementSeq_loop {C} (yield : Yield I C) element l : ∀ (limit : Z) c,
  (limit ≤ MaxInt)%Z →
  ('(_, c) ← Values l _ (RemoveElementSeq_body element yield) (limit, c); Returned c)
  = Values (remove_leftmost element (Z.to_nat limit) l) C yield c.
Proof.
  induction l as [|x l IH]; intros limit c Hmax; [done|]. simpl.
  destruct (decide (x = element)) as [->|Hx].
  - rewrite bool_decide_eq_true_2 by done. simpl.
    destruct (Z.ltb_spec 0 limit) as [Hpos|Hnonpos]; simpl.
    + assert (int_sub limit 1 = (limit - 1)%Z) as ->.
      { apply wrap_small. unfold MinInt, MaxInt in *. lia. }
      rewrite IH by lia.
      replace (Z.to_nat limit) with (S (Z.to_nat (limit - 1))) by lia. done.
    + replace (Z.to_nat limit) with 0 by lia. simpl.
      destruct (yield element c) as [[[] c']|r]; simpl; [|done|done].
      rewrite IH by done. replace (Z.to_nat limit) with 0 by lia.
      by rewrite remove_leftmost_zero.
  - rewrite bool_decide_eq_false_2 by done. simpl.
    destruct (yield x c) as [[[] c']|r]; simpl; [|done|done].
    by rewrite IH.
Qed.

(** The lazy counterpart of [RemoveElement] on a finite sequence: a count
    of -1 removes every occurrence, any other count that is zero or
    negative removes none, a positive count removes that many leftmost
    occurrences. *)
Lemma RemoveElementSeq_collect l element (occurrencesToDelete : Z) :
  (occurrencesToDelete ≤ MaxInt)%Z → (len l ≤ MaxInt)%Z →
  collect (RemoveElementSeq (Values l) element occurrencesToDelete)
  = Returned (if decide (occurrencesToDelete = -1)%Z
              then filter (λ x, x ≠ element) l
              else remove_leftmost element (Z.to_nat occurrencesToDelete) l).
Proof.
  intros Hn Hlen. unfold collect, RemoveElementSeq, RemoveElementSeq_drive.
  destruct (decide (occurrencesToDelete = -1)%Z) as [->|Hne].
  - rewrite RemoveElementSeq_loop by done.
    rewrite remove_leftmost_all; [apply Values_collect_yield|].
    pose proof (occurrences_le_length element l). unfold len, MaxInt in *. lia.
  - rewrite RemoveElementSeq_loop by done. apply Values_collect_yield.
Qed.
End RemoveElementSeqFacts.

(** ** SafeMapSeq *)

Section SafeMapSeqFacts.
Context {I O : Type} `{!Zero O}.
Implicit Types (mapFunc : I → outcome (O * error)) (l : list I).

Lemma SafeMapSeq_body_run {C} mapFunc (yield : Yield O C) x c :
  SafeMapSeq_body mapFunc yield x c =
    match SafeExcecute (λ _, mapFunc x) with
    | Returned (out, None) => yield out c
    | Returned (_, Some _) => Returned (false, c)
    | Panicked r => Panicked r
    end.
Proof.
  unfold SafeMapSeq_body. by destruct (SafeExcecute _) as [[out [e|]]|r].
Qed.

(** Where every panic of [mapFunc] carries an [error], the sequence is,
    for every consumer, the plain sequence of the outputs that come before
    the first failure: it ends there as it would at the end of the input. *)
Lemma SafeMapSeq_error_ends_silently {C} mapFunc l (yield : Yield O C) c :
  (∀ x r, x ∈ l → mapFunc x = Panicked r → ∃ e, r = AnyError e) →
  SafeMapSeq (Values l) mapFunc C yield c
  = Values (mapped_prefix mapFunc l) C yield c.
Proof.
  unfold SafeMapSeq. revert c.
  induction l as [|x l IH]; intros c Hpanic; [done|]. simpl.
  rewrite SafeMapSeq_body_run. unfold SafeExcecute.
  destruct (mapFunc x) as [[out [e|]]|r] eqn:Hx; simpl.
  - done.
  - destruct (yield out c) as [[[] c']|r]; simpl; [|done|done].
    apply IH. intros y r Hy. apply Hpanic. by constructor.
  - destruct (Hpanic x r) as [e ->]; [constructor|done|]. done.
Qed.

(** A panic of [mapFunc] with a string reaches the consumer as a panic,
    wherever in the input it happens, provided the consumer has not stopped
    or panicked before. *)
Lemma SafeMapSeq_string_panic {C} mapFunc l1 x l2 msg (yield : Yield O C) c :
  (∀ y, y ∈ l1 → ∃ out, mapFunc y = Returned (out, None)) →
  (∀ out c, ∃ c', yield out c = Returned (true, c')) →
  mapFunc x = Panicked (AnyString msg) →
  SafeMapSeq (Values (l1 ++ x :: l2)) mapFunc C yield c
  = Panicked (AnyError (TypeAssertionError "string")).
Proof.
  intros Hl1 Hyield Hx. unfold SafeMapSeq. revert c.
  induction l1 as [|y l1 IH]; intros c; simpl; rewrite SafeMapSeq_body_run;
    unfold SafeExcecute.
  - by rewrite Hx.
  - destruct (Hl1 y) as [out ->]; [constructor|]. simpl.
    destruct (Hyield out c) as [c' ->]. simpl.
    apply IH. intros z Hz. apply Hl1. by constructor.
Qed.
End SafeMapSeqFacts.

(** C9, at an input where the code departs from it: when the mapping
    function panics with a string on the element 2, the consumer of
    [SafeMapSeq] is not left with a sequence that simply ends after 1: the
    drive itself panics, with the run-time's type-assertion error. *)
Theorem SafeMapSeq_string_panic_reaches_consumer :
  collect (SafeMapSeq (Values [1; 2; 3]%Z)
             (λ x, if decide (x = 2%Z) then Panicked (AnyString "boom")
                   else Returned (x, None)))
  = Panicked (AnyError (TypeAssertionError "string")) ∧
  collect (Values [1%Z]) = Returned [1%Z].
Proof. split; reflexivity. Qed.

(** ** SafeMap, SafeReduce, SafeFind *)

Section SafeOpsFacts.
Context {I O : Type} `{!Zero I} `{!Zero O}.

Lemma SafeMap_loop_stops (mappingFunc : I → outcome (O * error)) l1 x l2 out e :
  (∀ y, y ∈ l1 → ∃ o, mappingFunc y = Returned (o, None)) →
  SafeExcecute (λ _, mappingFunc x) = Returned (out, Some e) →
  ∀ i outputSlice log,
    SafeMap_loop mappingFunc i (l1 ++ x :: l2) outputSlice log
    = (log ++ l1 ++ [x], Returned (None, Some e)).
Proof.
  intros Hl1 Hx. induction l1 as [|y l1 IH]; intros i outputSlice log; simpl.
  - by rewrite Hx.
  - destruct (Hl1 y) as [o Hy]; [constructor|].
    unfold SafeExcecute at 1. rewrite Hy.
    rewrite IH; [by rewrite <-app_assoc|].
    intros z Hz. apply Hl1. by constructor.
Qed.

(** [SafeMap] stops at the first element whose call returns a non-nil
    error or panics with an [error]: it returns nil and that error, and the
    function has been called on the elements up to that one and no further. *)
Lemma SafeMap_stops_at_first_error (mappingFunc : I → outcome (O * error)) l1 x l2 out e :
  (∀ y, y ∈ l1 → ∃ o, mappingFunc y = Returned (o, None)) →
  SafeExcecute (λ _, mappingFunc x) = Returned (out, Some e) →
  SafeMap (l1 ++ x :: l2) mappingFunc = (l1 ++ [x], Returned (None, Some e)).
Proof. intros Hl1 Hx. unfold SafeMap. by rewrite (SafeMap_loop_stops _ _ _ _ out e). Qed.

Lemma SafeReduce_loop_app (reduceFunc : O → I → outcome (O * error)) l1 l2 :
  ∀ accumulator log log1 acc1,
    SafeReduce_loop reduceFunc l1 accumulator log = (log1, Returned (acc1, None)) →
    SafeReduce_loop reduceFunc (l1 ++ l2) accumulator log
    = SafeReduce_loop reduceFunc l2 acc1 log1.
Proof.
  induction l1 as [|y l1 IH]; intros accumulator log log1 acc1; simpl.
  - by intros [= <- <-].
  - destruct (SafeExcecute _) as [[accAux [err|]]|r]; [by intros [=]| |by intros [=]].
    apply IH.
Qed.

(** [SafeReduce]: once the elements [l1] have been folded without error
    into [acc], an error on the next element is returned and the remaining
    elements are not touched. *)
Lemma SafeReduce_stops_at_first_error
    (reduceFunc : O → I → outcome (O * error)) l1 x l2 initialValue log1 acc out e :
  SafeReduce l1 reduceFunc initialValue = (log1, Returned (acc, None)) →
  SafeExcecute (λ _, reduceFunc acc x) = Returned (out, Some e) →
  SafeReduce (l1 ++ x :: l2) reduceFunc initialValue
  = (log1 ++ [x], Returned (out, Some e)).
Proof.
  unfold SafeReduce. intros Hl1 Hx.
  rewrite (SafeReduce_loop_app _ _ _ _ _ _ _ Hl1). simpl. by rewrite Hx.
Qed.

Lemma SafeFind_loop_stops (findFunc : I → outcome (bool * error)) l1 x l2 b e :
  (∀ y, y ∈ l1 → findFunc y = Returned (false, None)) →
  SafeExcecute (λ _, findFunc x) = Returned (b, Some e) →
  ∀ log, SafeFind_loop findFunc (l1 ++ x :: l2) log
         = (log ++ l1 ++ [x], Returned (zero, false, Some e)).
Proof.
  intros Hl1 Hx. induction l1 as [|y l1 IH]; intros log; simpl.
  - rewrite Hx. by destruct b.
  - unfold SafeExcecute at 1. rewrite (Hl1 y) by constructor.
    rewrite IH; [by rewrite <-app_assoc|].
    intros z Hz. apply Hl1. by constructor.
Qed.

Lemma SafeFind_stops_at_first_error (findFunc : I → outcome (bool * error)) l1 x l2 b e :
  (∀ y, y ∈ l1 → findFunc y = Returned (false, None)) →
  SafeExcecute (λ _, findFunc x) = Returned (b, Some e) →
  SafeFind (l1 ++ x :: l2) findFunc = (l1 ++ [x], Returned (zero, false, Some e)).
Proof. intros Hl1 Hx. unfold SafeFind. by rewrite (SafeFind_loop_stops _ _ _ _ b e). Qed.
End SafeOpsFacts.

(** C4, at inputs where the code departs from it: when the element
    function panics with a string on the element 2, [SafeMap], [SafeReduce]
    and [SafeFind] do stop there (the function has been called on 1 and 2
    only) but they do not return an error to the caller: the call panics
    with the run-time's type-assertion error. *)
Theorem Safe_loops_string_panic_escapes :
  SafeMap [1; 2; 3]%Z
    (λ x, if decide (x = 2%Z) then Panicked (AnyString "boom")
          else Returned (x, None))
  = ([1; 2]%Z, Panicked (AnyError (TypeAssertionError "string"))) ∧
  SafeReduce [1; 2; 3]%Z
    (λ acc x, if decide (x = 2%Z) then Panicked (AnyString "boom")
              else Returned ((acc + x)%Z, None)) 0%Z
  = ([1; 2]%Z, Panicked (AnyError (TypeAssertionError "string"))) ∧
  SafeFind [1; 2; 3]%Z
    (λ x, if decide (x = 2%Z) then Panicked (AnyString "boom")
          else Returned (false, None))
  = ([1; 2]%Z, Panicked (AnyError (TypeAssertionError "string"))).
Proof. repeat split. Qed.

(** ** Map and ParallelMap *)

Section ParallelMapFacts.
Context {I O : Type} `{!Zero O}.
Variable mapFunc : I → O.
Variable NumCPU : nat.
Implicit Types (l : list I) (s : pool O) (w idx : nat) (st : worker O).

Local Abbreviation inv := (pool_inv mapFunc NumCPU).
Local Abbreviation step := (step_thread mapFunc).

Lemma Map_loop_spec rest : ∀ i (outputSlice : list O),
  length outputSlice = i + length rest →
  Map_loop mapFunc i rest outputSlice = take i outputSlice ++ (mapFunc <$> rest).
Proof.
  induction rest as [|input rest IH]; intros i out Hlen; simpl.
  { rewrite app_nil_r, take_ge; [done|]. simpl in Hlen. lia. }
  simpl in Hlen. rewrite IH by (rewrite length_insert; lia).
  rewrite (take_S_r _ _ (mapFunc input)).
  - rewrite take_insert_ge by lia. by rewrite <-app_assoc.
  - apply list_lookup_insert_eq. lia.
Qed.

(** The sequential [Map] is the list map. *)
Lemma Map_fmap l : Map mapFunc l = mapFunc <$> l.
Proof.
  unfold Map. rewrite Map_loop_spec by (rewrite length_replicate; lia). done.
Qed.

(** *** The invariant *)

Lemma holds_set_worker s s' w st :
  workers s' = <[w := st]> (workers s) → w < length (workers s) →
  ∀ w' idx, holds s' w' idx ↔
            (w' = w ∧ worker_idx st = Some idx) ∨ (w' ≠ w ∧ holds s w' idx).
Proof.
  intros Hws Hw w' idx. unfold holds. rewrite Hws. split.
  - intros (st' & Hst' & Hidx). apply list_lookup_insert_Some in Hst'.
    destruct Hst' as [(-> & -> & _)|(Hne & Hst')]; [by left|].
    right. split; [done|]. by exists st'.
  - intros [(-> & Hidx)|(Hne & st' & Hst' & Hidx)].
    + exists st. split; [|done]. by apply list_lookup_insert_eq.
    + exists st'. split; [|done]. by rewrite list_lookup_insert_ne.
Qed.

Lemma pool_init_inv l : inv l (pool_init NumCPU l).
Proof.
  constructor; simpl; unfold received, holds; simpl.
  - apply length_replicate.
  - apply length_replicate.
  - lia.
  - done.
  - done.
  - intros w [? _]%lookup_replicate. done.
  - intros w idx (st & [-> _]%lookup_replicate & Hidx). done.
  - intros w w' idx (st & [-> _]%lookup_replicate & Hidx). done.
  - intros w idx [? _]%lookup_replicate. done.
  - intros w idx v [? _]%lookup_replicate. done.
  - intros idx _ Hidx. by apply lookup_replicate_2.
  - intros idx Hidx. lia.
  - intros idx n [-> _]%lookup_replicate. lia.
  - apply length_replicate.
Qed.

Lemma step_main_inv l s s' :
  step_main l s = Some s' → inv l s → inv l s'.
Proof.
  unfold step_main. intros Hstep Hinv.
  destruct (closed s) eqn:Hclosed; [done|].
  assert (∀ w, workers s !! w ≠ Some Exited) as Hnoexit.
  { intros w Hw. destruct (inv_exited _ _ _ _ Hinv w Hw) as [_ ?]. congruence. }
  destruct Hinv as [Hout Hcalls Hsent Hcl [Hchan Hchanlen] Hex Hheld Hown Hgot Hcomp
                      Hpend Hdone Honce Hws].
  destruct (decide (sent s < length l)) as [Hlt|Hge].
  - destruct (decide (length (inputChan s) < length l)); [|done].
    injection Hstep as <-.
    assert (received s + length (inputChan s) = sent s) as Hrecv
      by (unfold received; lia).
    constructor; simpl; unfold received in *; simpl;
      rewrite ?length_app; simpl;
      replace (S (sent s) - (length (inputChan s) + 1))
        with (sent s - length (inputChan s)) by lia; try done.
    + split; [|lia]. rewrite Nat.add_1_r, seq_S. rewrite <-Hchan. f_equal. f_equal. lia.
    + intros w Hw. by destruct (Hnoexit w).
  - injection Hstep as <-.
    constructor; simpl; unfold received in *; simpl; try done.
    + intros _. lia.
    + intros w Hw. by destruct (Hnoexit w).
Qed.

Lemma worker_free s w st :
  workers s !! w = Some st → worker_idx st = None → ∀ idx, ¬ holds s w idx.
Proof.
  intros Hw Hnone idx (st' & Hst' & Hidx). rewrite Hw in Hst'.
  injection Hst' as <-. congruence.
Qed.

Lemma worker_holds s w st idx :
  workers s !! w = Some st → worker_idx st = Some idx → holds s w idx.
Proof. intros Hw Hidx. by exists st. Qed.

(** Receiving an index. *)
Lemma step_receive_inv l s w idx rest :
  inv l s → workers s !! w = Some Receiving → inputChan s = idx :: rest →
  inv l {| outputSlice := outputSlice s; inputChan := rest; closed := closed s;
           sent := sent s; workers := <[w := Got idx]> (workers s);
           calls := calls s |}.
Proof.
  intros Hinv Hw Hc.
  pose proof (lookup_lt_Some _ _ _ Hw) as Hwlt.
  pose proof (worker_free s w _ Hw eq_refl) as Hfree.
  set (s' := Pool _ _ _ _ _ _).
  pose proof (holds_set_worker s s' w (Got idx) eq_refl Hwlt) as Hholds.
  destruct Hinv as [Hout Hcalls Hsent Hcl [Hchan Hchanlen] Hex Hheld Hown Hgot Hcomp
                      Hpend Hdone Honce Hws].
  assert (received s' = S (received s)) as Hr.
  { unfold received. simpl. rewrite Hc in *. simpl in *. lia. }
  assert (idx = received s ∧ rest = seq (S (received s)) (length rest)) as [Hidx Hrest].
  { rewrite Hc in Hchan. simpl in Hchan. by injection Hchan. }
  assert (received s < length l) as Hlo.
  { unfold received. rewrite Hc in *. simpl in *. lia. }
  constructor; rewrite ?Hr; simpl; try done.
  - split; [done|]. rewrite Hc in Hchanlen. simpl in Hchanlen. lia.
  - intros w' [(_ & [=] & _)|(_ & Hw')]%list_lookup_insert_Some.
    destruct (Hex w' Hw') as [Hnil _]. congruence.
  - intros w' i [(-> & [= <-])|(_ & Hi)]%Hholds; [lia|].
    specialize (Hheld _ _ Hi). lia.
  - intros w1 w2 i [(-> & Hi1)|(? & H1)]%Hholds [(-> & Hi2)|(? & H2)]%Hholds;
      [done| | |by eapply Hown].
    + injection Hi1 as <-. specialize (Hheld _ _ H2). lia.
    + injection Hi2 as <-. specialize (Hheld _ _ H1). lia.
  - intros w' i [(_ & [= <-] & _)|(_ & Hw')]%list_lookup_insert_Some.
    + apply Hpend; lia.
    + by eapply Hgot.
  - intros w' i v [(_ & [=] & _)|(_ & Hw')]%list_lookup_insert_Some.
    by eapply Hcomp.
  - intros i Hi Hil. apply Hpend; lia.
  - intros i Hi Hnone.
    assert (i ≠ idx) as Hne.
    { intros ->. apply (Hnone w), Hholds. by left. }
    apply Hdone; [lia|].
    intros w' Hw'. apply (Hnone w'), Hholds. right. split; [|done].
    intros ->. by apply (Hfree i).
  - by rewrite length_insert.
Qed.

(** Leaving the loop on the closed, drained channel. *)
Lemma step_exit_inv l s w :
  inv l s → workers s !! w = Some Receiving → inputChan s = [] → closed s = true →
  inv l (set_worker s w Exited).
Proof.
  intros Hinv Hw Hc Hclosed.
  pose proof (lookup_lt_Some _ _ _ Hw) as Hwlt.
  pose proof (worker_free s w _ Hw eq_refl) as Hfree.
  pose proof (holds_set_worker s (set_worker s w Exited) w Exited eq_refl Hwlt) as Hholds.
  assert (∀ w' i, holds (set_worker s w Exited) w' i → holds s w' i) as Hold.
  { intros w' i [(_ & [=])|(_ & ?)]%Hholds. done. }
  assert (∀ w' i, holds s w' i → holds (set_worker s w Exited) w' i) as Hnew.
  { intros w' i Hi. apply Hholds. right. split; [|done]. intros ->. by apply (Hfree i). }
  destruct Hinv as [Hout Hcalls Hsent Hcl [Hchan Hchanlen] Hex Hheld Hown Hgot Hcomp
                      Hpend Hdone Honce Hws].
  constructor; try done.
  - intros w' i Hi. apply Hheld with w'. by apply Hold.
  - intros w1 w2 i H1 H2. eapply Hown; by apply Hold.
  - simpl. intros w' i [(_ & [=] & _)|(_ & Hw')]%list_lookup_insert_Some.
    by eapply Hgot.
  - simpl. intros w' i v [(_ & [=] & _)|(_ & Hw')]%list_lookup_insert_Some.
    by eapply Hcomp.
  - intros i Hi Hnone. apply Hdone; [done|].
    intros w' Hw'. by apply (Hnone w'), Hnew.
  - simpl. by rewrite length_insert.
Qed.

(** Calling [mapFunc] on the received index. *)
Lemma step_call_inv l s w idx input :
  inv l s → workers s !! w = Some (Got idx) → l !! idx = Some input →
  inv l {| outputSlice := outputSlice s; inputChan := inputChan s;
           closed := closed s; sent := sent s;
           workers := <[w := Computed idx (mapFunc input)]> (workers s);
           calls := alter S idx (calls s) |}.
Proof.
  intros Hinv Hw Hinput.
  pose proof (lookup_lt_Some _ _ _ Hw) as Hwlt.
  pose proof (worker_holds s w _ idx Hw eq_refl) as Hmine.
  set (s' := Pool _ _ _ _ _ _).
  pose proof (holds_set_worker s s' w _ eq_refl Hwlt) as Hholds.
  destruct Hinv as [Hout Hcalls Hsent Hcl [Hchan Hchanlen] Hex Hheld Hown Hgot Hcomp
                      Hpend Hdone Honce Hws].
  assert (∀ w' i, holds s' w' i ↔ holds s w' i) as Hsame.
  { intros w' i. rewrite Hholds. split.
    - intros [(-> & [= <-])|(_ & ?)]; done.
    - intros Hi. destruct (decide (w' = w)) as [->|Hne]; [|by right].
      left. split; [done|]. destruct Hi as (st & Hst & Hi).
      rewrite Hw in Hst. by injection Hst as <-. }
  assert (∀ w' i, w' ≠ w → holds s w' i → i ≠ idx) as Hother.
  { intros w' i Hne Hi ->. apply Hne. by eapply Hown. }
  assert (received s' = received s) as Hr by done.
  constructor; rewrite ?Hr; simpl; try done.
  - by rewrite length_alter.
  - intros w' [(_ & [=] & _)|(_ & Hw')]%list_lookup_insert_Some. by eapply Hex.
  - intros w' i Hi%Hsame. by eapply Hheld.
  - intros w1 w2 i H1%Hsame H2%Hsame. by eapply Hown.
  - intros w' i [(_ & [=] & _)|(Hne & Hw')]%list_lookup_insert_Some.
    rewrite list_lookup_alter_ne.
    + by eapply Hgot.
    + intros <-. eapply (Hother w' idx); [done| |done]. by eapply worker_holds.
  - intros w' i v [(_ & [= <- <-] & _)|(Hne & Hw')]%list_lookup_insert_Some.
    + rewrite list_lookup_alter_eq, (Hgot w idx Hw). split; [done|]. by exists input.
    + rewrite list_lookup_alter_ne; [by eapply Hcomp|].
      intros <-. eapply (Hother w' idx); [done| |done]. by eapply worker_holds.
  - intros i Hi Hil. specialize (Hheld _ _ Hmine).
    rewrite list_lookup_alter_ne by lia. by apply Hpend.
  - intros i Hi Hnone.
    assert (i ≠ idx) as Hne by (intros ->; by apply (Hnone w), Hsame).
    rewrite list_lookup_alter_ne by done. apply Hdone; [done|].
    intros w' Hw'. by apply (Hnone w'), Hsame.
  - intros i n. destruct (decide (i = idx)) as [->|Hne].
    + rewrite list_lookup_alter_eq, (Hgot w idx Hw). intros [= <-]. lia.
    + rewrite list_lookup_alter_ne by done. apply Honce.
  - by rewrite length_insert.
Qed.

(** Storing the result. *)
Lemma step_store_inv l s w idx v :
  inv l s → workers s !! w = Some (Computed idx v) →
  idx < length (outputSlice s) →
  inv l {| outputSlice := <[idx := v]> (outputSlice s); inputChan := inputChan s;
           closed := closed s; sent := sent s;
           workers := <[w := Receiving]> (workers s); calls := calls s |}.
Proof.
  intros Hinv Hw Hidx.
  pose proof (lookup_lt_Some _ _ _ Hw) as Hwlt.
  set (s' := Pool _ _ _ _ _ _).
  pose proof (holds_set_worker s s' w _ eq_refl Hwlt) as Hholds.
  destruct Hinv as [Hout Hcalls Hsent Hcl [Hchan Hchanlen] Hex Hheld Hown Hgot Hcomp
                      Hpend Hdone Honce Hws].
  assert (∀ w' i, holds s' w' i → w' ≠ w ∧ holds s w' i) as Hold.
  { intros w' i [(_ & [=])|?]%Hholds. done. }
  assert (received s' = received s) as Hr by done.
  constructor; rewrite ?Hr; simpl; try done.
  - by rewrite length_insert.
  - intros w' [(_ & [=] & _)|(_ & Hw')]%list_lookup_insert_Some. by eapply Hex.
  - intros w' i [_ Hi]%Hold. by eapply Hheld.
  - intros w1 w2 i [_ H1]%Hold [_ H2]%Hold. by eapply Hown.
  - intros w' i [(_ & [=] & _)|(_ & Hw')]%list_lookup_insert_Some. by eapply Hgot.
  - intros w' i v' [(_ & [=] & _)|(_ & Hw')]%list_lookup_insert_Some.
    by eapply Hcomp.
  - intros i Hi Hnone. destruct (decide (i = idx)) as [->|Hne].
    + destruct (Hcomp w idx v Hw) as (Hone & input & Hinput & ->).
      split; [done|]. exists input. split; [done|].
      by apply list_lookup_insert_eq.
    + rewrite list_lookup_insert_ne by done. apply Hdone; [done|].
      intros w' Hw'. apply (Hnone w'), Hholds. right. split; [|done].
      intros ->. destruct Hw' as (st & Hst & Hi'). rewrite Hw in Hst.
      injection Hst as <-. simpl in Hi'. congruence.
  - by rewrite length_insert.
Qed.

Lemma step_worker_inv l s s' w :
  step_worker mapFunc l w s = Some s' → inv l s → inv l s'.
Proof.
  unfold step_worker. intros Hstep Hinv.
  destruct (workers s !! w) as [[|idx|idx v|]|] eqn:Hw; [| | |done|done].
  - destruct (inputChan s) as [|idx rest] eqn:Hc.
    + destruct (closed s) eqn:Hclosed; [|done].
      injection Hstep as <-. by apply step_exit_inv.
    + injection Hstep as <-. by apply step_receive_inv.
  - destruct (l !! idx) as [input|] eqn:Hinput; [|done].
    injection Hstep as <-. by apply step_call_inv.
  - destruct (decide (idx < length (outputSlice s))); [|done].
    injection Hstep as <-. by apply step_store_inv.
Qed.

Lemma step_thread_inv l s s' t :
  step l t s = Some s' → inv l s → inv l s'.
Proof.
  destruct t as [|w]; simpl; [apply step_main_inv|apply step_worker_inv].
Qed.

Lemma run_inv l sched : ∀ s s',
  run mapFunc l sched s = Some s' → inv l s → inv l s'.
Proof.
  induction sched as [|t sched IH]; intros s s'; simpl.
  { by intros [= <-]. }
  destruct (step l t s) as [s1|] eqn:Hstep; [|done]. simpl.
  intros Hrun Hinv. eapply IH; [done|]. by eapply step_thread_inv.
Qed.

(** *** Complete executions *)

Lemma forallb_is_Exited (ws : list (worker O)) :
  forallb is_Exited ws = true → ∀ w st, ws !! w = Some st → st = Exited.
Proof.
  induction ws as [|st0 ws IH]; simpl; intros Hall w st Hw.
  { by rewrite lookup_nil in Hw. }
  apply andb_true_iff in Hall as [H0 Hall].
  destruct w as [|w]; simpl in Hw.
  - injection Hw as <-. by destruct st0.
  - by eapply IH.
Qed.

Lemma not_forallb_is_Exited (ws : list (worker O)) :
  forallb is_Exited ws = false → ∃ w st, ws !! w = Some st ∧ is_Exited st = false.
Proof.
  induction ws as [|st0 ws IH]; simpl; [done|].
  destruct (is_Exited st0) eqn:H0; simpl.
  - intros (w & st & Hw & Hst)%IH. by exists (S w), st.
  - intros _. by exists 0, st0.
Qed.

(** When [wg.Wait()] returns, every position of [outputSlice] holds the
    image of the input at that position and [mapFunc] has been called once
    for each. *)
Lemma joined_output l s :
  0 < NumCPU → inv l s → joined s = true →
  outputSlice s = mapFunc <$> l ∧ calls s = replicate (length l) 1.
Proof.
  intros Hcpu Hinv [Hclosed Hall]%andb_true_iff.
  pose proof (forallb_is_Exited _ Hall) as Hexited.
  destruct Hinv as [Hout Hcalls Hsent Hcl [Hchan Hchanlen] Hex Hheld Hown Hgot Hcomp
                      Hpend Hdone Honce Hws].
  destruct (decide (length l = 0)) as [Hnil|Hlen].
  { rewrite Hnil in Hout, Hcalls. apply nil_length_inv in Hout, Hcalls.
    apply nil_length_inv in Hnil. by rewrite Hout, Hcalls, Hnil. }
  assert (received s = length l) as Hr.
  { assert (0 < length (workers s)) as Hw0.
    { rewrite Hws. unfold numWorkers. case_decide; lia. }
    apply lookup_lt_is_Some_2 in Hw0 as [st Hst].
    rewrite (Hexited _ _ Hst) in Hst. destruct (Hex _ Hst) as [Hc _].
    unfold received. rewrite Hc. simpl. rewrite Hcl by done. lia. }
  assert (∀ idx w, ¬ holds s w idx) as Hfree.
  { intros idx w (st & Hst & Hidx). by rewrite (Hexited _ _ Hst) in Hidx. }
  split; apply list_eq; intros i.
  - rewrite list_lookup_fmap. destruct (decide (i < length l)) as [Hi|Hi].
    + destruct (Hdone i) as (_ & input & -> & ->); [lia|apply Hfree|done].
    + rewrite !lookup_ge_None_2; [done|lia|lia].
  - destruct (decide (i < length l)) as [Hi|Hi].
    + destruct (Hdone i) as (-> & _); [lia|apply Hfree|].
      symmetry. by apply lookup_replicate_2.
    + rewrite !lookup_ge_None_2; [done|rewrite length_replicate; lia|lia].
Qed.

(** No deadlock and no panic: as long as [wg.Wait()] has not returned,
    some goroutine can take a step. *)
Lemma pool_progress l s :
  inv l s → joined s = false → ∃ t s', step l t s = Some s'.
Proof.
  intros Hinv Hjoined.
  destruct Hinv as [Hout Hcalls Hsent Hcl [Hchan Hchanlen] Hex Hheld Hown Hgot Hcomp
                      Hpend Hdone Honce Hws].
  unfold joined in Hjoined. destruct (closed s) eqn:Hclosed; simpl in Hjoined.
  - apply not_forallb_is_Exited in Hjoined as (w & st & Hw & Hst).
    exists (Work w). simpl. unfold step_worker. rewrite Hw.
    destruct st as [|idx|idx v|]; [| | |done].
    + destruct (inputChan s); [rewrite Hclosed|]; by eexists.
    + assert (idx < length l) as [input ->]%lookup_lt_is_Some_2; [|by eexists].
      specialize (Hheld w idx (worker_holds s w _ idx Hw eq_refl)).
      unfold received in Hheld. lia.
    + rewrite decide_True; [by eexists|].
      specialize (Hheld w idx (worker_holds s w _ idx Hw eq_refl)).
      unfold received in Hheld. lia.
  - exists Main. simpl. unfold step_main. rewrite Hclosed.
    destruct (decide (sent s < length l)); [|by eexists].
    rewrite decide_True by lia. by eexists.
Qed.

Lemma worker_weight_insert (ws : list (worker O)) w st st' :
  ws !! w = Some st →
  sum_list (worker_weight <$> <[w := st']> ws) + worker_weight st
  = sum_list (worker_weight <$> ws) + worker_weight st'.
Proof.
  revert w. induction ws as [|st0 ws IH]; intros w Hw.
  { by rewrite lookup_nil in Hw. }
  destruct w as [|w]; simpl in Hw.
  - injection Hw as <-. simpl. lia.
  - specialize (IH w Hw). change (<[S w := st']> (st0 :: ws)) with (st0 :: <[w := st']> ws).
    rewrite !fmap_cons. cbn [sum_list sum_list_with]. lia.
Qed.

(** Every step uses up one unit of [pool_weight]. *)
Lemma step_weight l s s' t :
  step l t s = Some s' → pool_weight l s = S (pool_weight l s').
Proof.
  destruct t as [|w]; simpl.
  - unfold step_main, pool_weight. destruct (closed s); [done|].
    destruct (decide (sent s < length l)).
    + destruct (decide (length (inputChan s) < length l)); [|done].
      intros [= <-]. simpl. rewrite length_app. simpl. lia.
    + intros [= <-]. simpl. lia.
  - unfold step_worker, pool_weight.
    destruct (workers s !! w) as [[|idx|idx v|]|] eqn:Hw; [| | |done|done].
    + destruct (inputChan s) as [|idx rest] eqn:Hc.
      * destruct (closed s) eqn:Hclosed; [|done]. intros [= <-]. simpl.
        rewrite Hc, Hclosed.
        pose proof (worker_weight_insert _ _ _ Exited Hw). simpl in *. lia.
      * intros [= <-]. simpl.
        pose proof (worker_weight_insert _ _ _ (Got idx) Hw). simpl in *. lia.
    + destruct (l !! idx) as [input|]; [|done]. intros [= <-]. simpl.
      pose proof (worker_weight_insert _ _ _ (Computed idx (mapFunc input)) Hw).
      simpl in *. lia.
    + destruct (decide (idx < length (outputSlice s))); [|done].
      intros [= <-]. simpl.
      pose proof (worker_weight_insert _ _ _ Receiving Hw). simpl in *. lia.
Qed.

Lemma run_weight l sched : ∀ s s',
  run mapFunc l sched s = Some s' →
  pool_weight l s = length sched + pool_weight l s'.
Proof.
  induction sched as [|t sched IH]; intros s s'; simpl.
  { by intros [= <-]. }
  destruct (step l t s) as [s1|] eqn:Hstep; [|done]. simpl.
  intros Hrun. rewrite (step_weight _ _ _ _ Hstep), (IH _ _ Hrun). done.
Qed.

Lemma run_app l sched1 sched2 s :
  run mapFunc l (sched1 ++ sched2) s
  = run mapFunc l sched1 s ≫= run mapFunc l sched2.
Proof.
  revert s. induction sched1 as [|t sched1 IH]; intros s; simpl; [done|].
  destruct (step l t s) as [s1|]; simpl; [apply IH|done].
Qed.

(** Every state of an execution can be run on to a state where
    [wg.Wait()] returns. *)
Lemma pool_completes l n : ∀ s,
  pool_weight l s ≤ n → inv l s →
  ∃ sched s', run mapFunc l sched s = Some s' ∧ joined s' = true.
Proof.
  induction n as [|n IH]; intros s Hn Hinv;
    (destruct (joined s) eqn:Hjoined; [by exists [], s|]);
    destruct (pool_progress l s Hinv Hjoined) as (t & s1 & Hstep);
    pose proof (step_weight _ _ _ _ Hstep) as Hw; [lia|].
  destruct (IH s1) as (sched & s' & Hrun & Hj);
    [lia|by eapply step_thread_inv|].
  exists (t :: sched), s'. simpl. rewrite Hstep. done.
Qed.

Lemma pool_init_weight l :
  pool_weight l (pool_init NumCPU l) ≤ 4 * length l + NumCPU + 1.
Proof.
  assert (∀ n, sum_list (worker_weight <$> replicate n (@Receiving O)) = n) as Hsum.
  { induction n as [|n IH]; [done|]. simpl replicate. rewrite fmap_cons.
    cbn [sum_list sum_list_with]. by rewrite IH. }
  unfold pool_weight, pool_init.
  cbn [sent inputChan workers closed length]. rewrite Hsum.
  unfold numWorkers. case_decide; lia.
Qed.

(** C1: with at least one CPU, every complete execution of [ParallelMap],
    whatever the order in which the goroutines take their steps, returns
    the slice that the sequential [Map] returns: it has the length of the
    input and holds [mapFunc(input[i])] at every position [i]; [mapFunc] is
    called at most once per element, at every point of every execution; and
    every execution is finite and can be run on to completion, so the call
    does return (a nil input returns the empty slice at once). *)
Theorem ParallelMap_refines_Map (inputSlice : option (list I)) :
  0 < NumCPU →
  (∀ sched out count,
     ParallelMap mapFunc NumCPU inputSlice sched = Some (out, count) →
     out = Map mapFunc (elems inputSlice) ∧
     length out = length (elems inputSlice) ∧
     (∀ i input, elems inputSlice !! i = Some input →
                 out !! i = Some (mapFunc input)) ∧
     (∀ i n, count !! i = Some n → n ≤ 1)) ∧
  (∃ sched, is_Some (ParallelMap mapFunc NumCPU inputSlice sched)) ∧
  (∀ l sched s,
     inputSlice = Some l →
     run mapFunc l sched (pool_init NumCPU l) = Some s →
     (∀ i n, calls s !! i = Some n → n ≤ 1) ∧
     length sched ≤ 4 * length l + NumCPU + 1 ∧
     ∃ sched', is_Some (ParallelMap mapFunc NumCPU inputSlice (sched ++ sched'))).
Proof.
  intros Hcpu.
  assert (∀ l sched s, run mapFunc l sched (pool_init NumCPU l) = Some s →
            ∃ sched', is_Some (ParallelMap mapFunc NumCPU (Some l) (sched ++ sched')))
    as Hextend.
  { intros l sched s Hrun.
    destruct (pool_completes l _ s (Nat.le_refl _)) as (sched' & s' & Hrun' & Hj).
    { eapply run_inv; [done|apply pool_init_inv]. }
    exists sched'. simpl. rewrite run_app, Hrun. simpl. rewrite Hrun'. simpl.
    rewrite Hj. by eexists. }
  split; [|split].
  - intros sched out count. destruct inputSlice as [l|]; simpl.
    + destruct (run mapFunc l sched (pool_init NumCPU l)) as [s|] eqn:Hrun; [|done].
      simpl. destruct (joined s) eqn:Hj; [|done]. intros [= <- <-].
      destruct (joined_output l s Hcpu) as [Hout Hcount]; [|done|].
      { eapply run_inv; [done|apply pool_init_inv]. }
      rewrite Map_fmap, Hout, Hcount. split; [done|].
      split; [by rewrite length_fmap|]. split.
      * intros i input Hi. by rewrite list_lookup_fmap, Hi.
      * intros i n [-> _]%lookup_replicate. lia.
    + case_decide; [|done]. intros [= <- <-]. split; [done|].
      split; [done|]. split; [intros i input Hi|intros i n Hi];
        by rewrite lookup_nil in Hi.
  - destruct inputSlice as [l|].
    + destruct (Hextend l [] _ eq_refl) as [sched' Hsched']. by exists sched'.
    + exists []. simpl. by eexists.
  - intros l sched s -> Hrun. split; [|split].
    + eapply inv_once, run_inv; [done|apply pool_init_inv].
    + pose proof (run_weight _ _ _ _ Hrun) as Hw.
      pose proof (pool_init_weight l). lia.
    + by eapply Hextend.
Qed.

End ParallelMapFacts.

(** An instance: two CPUs, three elements, doubling. *)
Lemma ParallelMap_refines_Map_witness :
  0 < 2 ∧
  ∃ sched, is_Some (ParallelMap (λ x : Z, (x * 2)%Z) 2 (Some [1; 2; 3]%Z) sched).
Proof.
  split; [lia|].
  apply (ParallelMap_refines_Map (λ x : Z, (x * 2)%Z) 2 (Some [1; 2; 3]%Z)). lia.
Defined.

(** One interleaving of that instance, run step by step: the three sends
    and the close, then the two workers taking turns. *)
Example ParallelMap_interleaving :
  ParallelMap (λ x : Z, (x * 2)%Z) 2 (Some [1; 2; 3]%Z)
    [Main; Work 1; Main; Work 0; Work 0; Main; Work 1; Work 0; Work 0;
     Work 1; Main; Work 0; Work 0; Work 1; Work 0]
  = Some ([2; 4; 6]%Z, [1; 1; 1]) ∧
  Map (λ x : Z, (x * 2)%Z) [1; 2; 3]%Z = [2; 4; 6]%Z.
Proof. split; reflexivity. Qed.

(** ** Instances

    The lemmas above that carry hypotheses, each applied to a concrete
    input. *)

Lemma Reverse_odd_length_witness :
  Reverse [1; 2; 3]%Z = Returned (reverse [1; 2; 3]%Z).
Proof.
  apply (Reverse_odd_length [1; 2; 3]%Z); [vm_compute; discriminate|reflexivity].
Defined.

Lemma Reverse_even_length_witness :
  Reverse [1; 2; 3; 4]%Z
  = Returned (<[1 := 2%Z]> (<[2 := 3%Z]> (reverse [1; 2; 3; 4]%Z))).
Proof.
  apply (Reverse_even_length [1; 2; 3; 4]%Z 1 2%Z 3%Z);
    [vm_compute; discriminate|reflexivity..].
Defined.

Lemma Chunk_without_overflow_witness :
  ∃ chunks, Chunk [1; 2; 3; 4; 5]%Z 2 = Some (Returned chunks) ∧
            concat chunks = [1; 2; 3; 4; 5]%Z ∧ chunk_sizes 2 chunks.
Proof.
  apply (Chunk_without_overflow [1; 2; 3; 4; 5]%Z 2);
    [reflexivity|discriminate|vm_compute; discriminate].
Defined.

Lemma Chunk_empty_result_witness : Chunk [1; 2; 3]%Z (-4) = Some (Returned []).
Proof. apply (Chunk_empty_result [1; 2; 3]%Z (-4)). left. vm_compute. discriminate. Defined.

Lemma Max_nonempty_witness :
  ∃ m, Max [3; 1; 9; 5]%Z = Returned m ∧ m ∈ [3; 1; 9; 5]%Z
       ∧ ∀ x, x ∈ [3; 1; 9; 5]%Z → (x ≤ m)%Z.
Proof. apply (Max_nonempty [3; 1; 9; 5]%Z). discriminate. Defined.

Lemma SafeExcecute_error_panic_witness :
  SafeExcecute (T_out := Z) (λ _, Panicked (AnyError (ErrorString "bad")))
  = Returned (0%Z, Some (ErrorString "bad")).
Proof.
  apply (SafeExcecute_error_panic (T_out := Z)
           (λ _, Panicked (AnyError (ErrorString "bad"))) (ErrorString "bad")).
  reflexivity.
Defined.

Lemma SafeMapSeq_error_ends_silently_witness :
  SafeMapSeq (Values [1; 2; 3]%Z)
    (λ x, if decide (x = 2%Z) then Panicked (AnyError (ErrorString "bad"))
          else Returned (x, None)) (list Z) collect_yield []
  = Values (mapped_prefix
              (λ x, if decide (x = 2%Z) then Panicked (AnyError (ErrorString "bad"))
                    else Returned (x, None)) [1; 2; 3]%Z) (list Z) collect_yield [].
Proof.
  apply (SafeMapSeq_error_ends_silently (O := Z)).
  intros x r _. case_decide; [|discriminate]. intros [= <-]. by eexists.
Defined.

Lemma SafeMap_stops_at_first_error_witness :
  SafeMap ([1%Z] ++ 2%Z :: [3%Z])
    (λ x, if decide (x = 2%Z) then Returned (0%Z, Some (ErrorString "bad"))
          else Returned (x, None))
  = ([1%Z] ++ [2%Z], Returned (None, Some (ErrorString "bad"))).
Proof.
  apply (SafeMap_stops_at_first_error (O := Z) _ [1%Z] 2%Z [3%Z] 0%Z).
  - intros y ->%list_elem_of_singleton. by eexists.
  - reflexivity.
Defined.

Lemma SafeReduce_stops_at_first_error_witness :
  SafeReduce ([1%Z] ++ 2%Z :: [3%Z])
    (λ acc x, if decide (x = 2%Z) then Panicked (AnyError (ErrorString "bad"))
              else Returned ((acc + x)%Z, None)) 0%Z
  = ([1%Z] ++ [2%Z], Returned (0%Z, Some (ErrorString "bad"))).
Proof.
  apply (SafeReduce_stops_at_first_error (O := Z) _ [1%Z] 2%Z [3%Z] 0%Z [1%Z] 1%Z);
    reflexivity.
Defined.

Lemma SafeFind_stops_at_first_error_witness :
  SafeFind ([1%Z] ++ 2%Z :: [3%Z])
    (λ x, if decide (x = 2%Z) then Returned (true, Some (ErrorString "bad"))
          else Returned (false, None))
  = ([1%Z] ++ [2%Z], Returned (0%Z, false, Some (ErrorString "bad"))).
Proof.
  apply (SafeFind_stops_at_first_error _ [1%Z] 2%Z [3%Z] true).
  - by intros y ->%list_elem_of_singleton.
  - reflexivity.
Defined.

Lemma RemoveElementSeq_collect_witness :
  collect (RemoveElementSeq (Values [5; 1; 5]%Z) 5%Z (-2))
  = Returned (if decide (-2 = -1)%Z then filter (λ x, x ≠ 5%Z) [5; 1; 5]%Z
              else remove_leftmost 5%Z (Z.to_nat (-2)) [5; 1; 5]%Z).
Proof.
  apply (RemoveElementSeq_collect [5; 1; 5]%Z 5%Z (-2)); vm_compute; discriminate.
Defined.

(** ** In-place compaction in general *)

Section CompactionFacts.
Context {I St T : Type}.
Variable judge : St → I → bool * St.
Variables (arr : T → list I) (cur : T → nat) (aux : T → St).
Variable body : T → nat → T.

(** The shape all the compaction loops share: the element read at [i] is
    judged; a kept element is written at the cursor, which moves on. *)
Hypothesis body_step : ∀ t i item, arr t !! i = Some item →
  aux (body t i) = (judge (aux t) item).2 ∧
  arr (body t i) = (if (judge (aux t) item).1 then <[cur t := item]> (arr t)
                    else arr t) ∧
  cur (body t i) = (if (judge (aux t) item).1 then S (cur t) else cur t).

Lemma compaction_loop rest : ∀ i t,
  drop i (arr t) = rest → cur t ≤ i →
  let t' := foldl body t (seq i (length rest)) in
  take (cur t') (arr t') = take (cur t) (arr t) ++ compaction_kept judge (aux t) rest ∧
  cur t ≤ cur t' ∧ cur t' ≤ cur t + length rest ∧
  length (arr t') = length (arr t) ∧
  drop (cur t') (arr t') = drop (cur t') (arr t).
Proof.
  induction rest as [|item rest IH]; intros i t Hdrop Hcur; simpl.
  { rewrite app_nil_r. repeat split; lia. }
  assert (arr t !! i = Some item) as Hi.
  { rewrite <-(Nat.add_0_r i), <-lookup_drop, Hdrop. done. }
  assert (drop (S i) (arr t) = rest) as Hrest.
  { replace (S i) with (i + 1) by lia. by rewrite <-drop_drop, Hdrop. }
  destruct (body_step t i item Hi) as (Haux & Harr & Hc).
  destruct (judge (aux t) item) as [keep st'] eqn:Hj. simpl in Haux, Harr, Hc.
  destruct (IH (S i) (body t i)) as (Htake & Hle & Hup & Hlen & Htail).
  { rewrite Harr. destruct keep; [|done]. by rewrite drop_insert_lt by lia. }
  { rewrite Hc. destruct keep; lia. }
  rewrite Htake, Hlen, Htail, Haux. rewrite Hc in Hle, Hup. rewrite Harr, Hc.
  clear Htake Hlen Htail IH.
  destruct keep.
  - rewrite length_insert. repeat split; try lia.
    + rewrite (take_S_r _ _ item).
      * rewrite take_insert_ge by lia. by rewrite <-app_assoc.
      * apply list_lookup_insert_eq. apply lookup_lt_Some in Hi. lia.
    + by rewrite drop_insert_lt by lia.
  - repeat split; (done || lia).
Qed.

(** From the start of the slice: the view returned is what the loop
    keeps, and the backing array is that followed by its old contents. *)
Lemma compaction_result t :
  cur t = 0 →
  let t' := foldl body t (seq 0 (length (arr t))) in
  take (cur t') (arr t') = compaction_kept judge (aux t) (arr t) ∧
  arr t' = compaction_kept judge (aux t) (arr t)
           ++ drop (length (compaction_kept judge (aux t) (arr t))) (arr t).
Proof.
  intros Hcur.
  destruct (compaction_loop (arr t) 0 t (drop_0 _)) as (Htake & _ & Hup & Hlen & Htail);
    [lia|].
  simpl. rewrite Hcur in Htake, Hup. simpl in Htake, Hup.
  split; [done|]. set (t' := foldl _ _ _) in *.
  rewrite <-Htake. rewrite length_take, Nat.min_l by lia.
  by rewrite <-Htail, take_drop.
Qed.
End CompactionFacts.

Lemma compaction_kept_filter {I} (keep : I → bool) (l : list I) :
  compaction_kept (λ (_ : unit) x, (keep x, ())) () l = filter (λ x, keep x = true) l.
Proof.
  induction l as [|x l IH]; [done|]. simpl. rewrite filter_cons.
  destruct (keep x) eqn:Hx; simpl; by rewrite IH.
Qed.

(** ** Filter *)

Section FilterFacts.
Context {I : Type}.
Implicit Types (inputSlice : list I) (filterFunc : I → bool).

Lemma Filter_inplace_result inputSlice filterFunc :
  let t' := Filter_inplace inputSlice filterFunc in
  take t'.2 t'.1 = filter (λ x, filterFunc x = true) inputSlice ∧
  t'.1 = filter (λ x, filterFunc x = true) inputSlice
         ++ drop (length (filter (λ x, filterFunc x = true) inputSlice)) inputSlice.
Proof.
  rewrite <-compaction_kept_filter.
  apply (compaction_result (λ (_ : unit) x, (filterFunc x, ())) fst snd (λ _, ())
           (Filter_body filterFunc)); [|done].
  intros [slice n] i item Hi. simpl in *. rewrite Hi. by destruct (filterFunc item).
Qed.

(** [Filter] returns the elements that satisfy [filterFunc], in their
    order, and does so in place: afterwards the caller's slice reads the
    result followed by its old contents from that position on. *)
Theorem Filter_in_place inputSlice filterFunc :
  Filter inputSlice filterFunc = filter (λ x, filterFunc x = true) inputSlice ∧
  Filter_backing inputSlice filterFunc
  = Filter inputSlice filterFunc
    ++ drop (length (Filter inputSlice filterFunc)) inputSlice.
Proof.
  destruct (Filter_inplace_result inputSlice filterFunc) as [Hview Hback].
  unfold Filter, Filter_backing.
  destruct (Filter_inplace inputSlice filterFunc) as [slice' n']. simpl in *.
  by rewrite Hview.
Qed.

Lemma Filter_filter inputSlice filterFunc :
  Filter inputSlice filterFunc = filter (λ x, filterFunc x = true) inputSlice.
Proof.
  destruct (Filter_inplace_result inputSlice filterFunc) as [Hview _].
  unfold Filter. by destruct (Filter_inplace inputSlice filterFunc).
Qed.
End FilterFacts.

(** ** Find, FindIndex, Contains, All, Any *)

Section SearchFacts.
Context {I : Type} `{!Zero I}.
Implicit Types (slice : list I) (findFunc predicate : I → bool).

Lemma FindIndex_loop_first findFunc rest : ∀ i,
  (∃ k x, FindIndex_loop findFunc i rest = Z.of_nat (i + k) ∧
          Find rest findFunc = (x, true) ∧
          rest !! k = Some x ∧ findFunc x = true ∧
          ∀ j y, j < k → rest !! j = Some y → findFunc y = false) ∨
  (FindIndex_loop findFunc i rest = (-1)%Z ∧ Find rest findFunc = (zero, false) ∧
   ∀ x, x ∈ rest → findFunc x = false).
Proof.
  induction rest as [|input rest IH]; intros i; simpl.
  { right. repeat split. by intros x ?%elem_of_nil. }
  destruct (findFunc input) eqn:Hinput.
  - left. exists 0, input. rewrite Nat.add_0_r. repeat split; try done. intros; lia.
  - destruct (IH (S i)) as [(k & x & Hidx & Hfind & Hk & Hx & Hbefore)|(Hidx & Hfind & Hall)].
    + left. exists (S k), x. rewrite Hidx. split; [f_equal; lia|].
      repeat split; try done.
      intros [|j] y Hj; simpl; [by intros [= <-]|]. apply Hbefore. lia.
    + right. repeat split; try done.
      intros x [->|Hx]%elem_of_cons; [done|by apply Hall].
Qed.

(** [FindIndex] returns the position of the first element that satisfies
    [findFunc] and [Find] that element with [true]; when no element
    satisfies it they return -1 and the zero value with [false]. *)
Theorem Find_FindIndex_first_match slice findFunc :
  (∃ i x, FindIndex slice findFunc = Z.of_nat i ∧
          Find slice findFunc = (x, true) ∧
          slice !! i = Some x ∧ findFunc x = true ∧
          ∀ j y, j < i → slice !! j = Some y → findFunc y = false) ∨
  (FindIndex slice findFunc = (-1)%Z ∧ Find slice findFunc = (zero, false) ∧
   ∀ x, x ∈ slice → findFunc x = false).
Proof. apply (FindIndex_loop_first findFunc slice 0). Qed.

Lemma Any_true slice predicate :
  Any slice predicate = true ↔ ∃ x, x ∈ slice ∧ predicate x = true.
Proof.
  induction slice as [|item rest IH]; simpl.
  { split; [done|]. by intros (x & ?%elem_of_nil & _). }
  destruct (predicate item) eqn:Hitem.
  - split; [|done]. intros _. exists item. split; [constructor|done].
  - rewrite IH. split.
    + intros (x & Hx & Hp). exists x. split; [by constructor|done].
    + intros (x & [->|Hx]%elem_of_cons & Hp); [congruence|by exists x].
Qed.

Lemma All_true slice predicate :
  All slice predicate = true ↔ ∀ x, x ∈ slice → predicate x = true.
Proof.
  induction slice as [|item rest IH]; simpl.
  { split; [|done]. by intros _ x ?%elem_of_nil. }
  destruct (predicate item) eqn:Hitem; simpl.
  - rewrite IH. split.
    + intros Hall x [->|Hx]%elem_of_cons; [done|by apply Hall].
    + intros Hall x Hx. apply Hall. by constructor.
  - split; [done|]. intros Hall. rewrite Hall in Hitem; [done|constructor].
Qed.

Lemma All_not_Any slice predicate :
  All slice predicate = negb (Any slice (λ x, negb (predicate x))).
Proof.
  induction slice as [|item rest IH]; [done|]. simpl.
  by destruct (predicate item).
Qed.

Context `{!EqDecision I} `{!Countable I}.

Lemma Contains_Any slice (element : I) :
  Contains slice element = Any slice (λ x, bool_decide (x = element)).
Proof.
  induction slice as [|e rest IH]; [done|]. simpl. by rewrite IH.
Qed.

(** [Contains] decides membership, [All] and [Any] the universal and the
    existential statement over the elements; [All] is the negation of [Any]
    for the negated predicate, [Contains] is [Any] for equality, and on the
    empty slice [All] is true and [Any] false. *)
Theorem Contains_All_Any slice (element : I) predicate :
  (Contains slice element = true ↔ element ∈ slice) ∧
  (All slice predicate = true ↔ ∀ x, x ∈ slice → predicate x = true) ∧
  (Any slice predicate = true ↔ ∃ x, x ∈ slice ∧ predicate x = true) ∧
  All slice predicate = negb (Any slice (λ x, negb (predicate x))) ∧
  Contains slice element = Any slice (λ x, bool_decide (x = element)).
Proof.
  split; [|split; [apply All_true|split; [apply Any_true|split;
    [apply All_not_Any|apply Contains_Any]]]].
  rewrite Contains_Any, Any_true. split.
  - by intros (x & Hx & ->%bool_decide_eq_true).
  - intros He. exists element. split; [done|]. by apply bool_decide_eq_true.
Qed.

(** ** Compare *)

Lemma Compare_loop_drop (a b : list I) (m : nat) : ∀ k,
  length a = k + m → length b = k + m →
  Compare_loop a b (seq k m) = Returned (bool_decide (drop k a = drop k b)).
Proof.
  induction m as [|m IH]; intros k Ha Hb; simpl.
  { rewrite !drop_ge by lia. by rewrite bool_decide_eq_true_2. }
  destruct (lookup_lt_is_Some_2 a k) as [x Hx]; [lia|].
  destruct (lookup_lt_is_Some_2 b k) as [y Hy]; [lia|].
  rewrite (index_lookup _ _ _ Hx). simpl. rewrite (index_lookup _ _ _ Hy). simpl.
  rewrite (drop_S a x k Hx), (drop_S b y k Hy).
  case_bool_decide as Hxy.
  - rewrite bool_decide_eq_false_2; [done|]. by intros [= ? _].
  - subst y. rewrite IH by lia.
    f_equal. apply bool_decide_ext. split; [by intros ->|by intros [= ->]].
Qed.

Lemma CompareSeq_eq (a : list I) : ∀ b, CompareSeq a b = bool_decide (a = b).
Proof.
  induction a as [|x a IH]; intros [|y b]; simpl; try done.
  case_bool_decide as Hxy.
  - rewrite bool_decide_eq_false_2; [done|]. by intros [= ? _].
  - subst y. rewrite IH.
    apply bool_decide_ext. split; [by intros ->|by intros [= ->]].
Qed.

(** [Compare] never panics and returns [true] exactly for equal slices;
    [CompareSeq] on the sequences of two slices returns the same. *)
Theorem Compare_decides_equality (a b : list I) :
  Compare a b = Returned (bool_decide (a = b)) ∧
  CompareSeq a b = bool_decide (a = b).
Proof.
  split; [|apply CompareSeq_eq].
  unfold Compare. case_decide as Hlen.
  - rewrite bool_decide_eq_false_2; [done|]. by intros ->.
  - rewrite Compare_loop_drop by lia. by rewrite !drop_0.
Qed.
End SearchFacts.

(** ** RemoveFirstOccurrence, RemoveElements, Difference, Intersection, Union *)

Section SetOpsFacts.
Context {I : Type} `{!EqDecision I} `{!Countable I}.
Implicit Types (slice a b l : list I) (element : I).

Lemma RemoveElement_positive slice element (k : Z) :
  (0 < k)%Z →
  RemoveElement slice element (Some k) = remove_leftmost element (Z.to_nat k) slice.
Proof.
  intros Hk. unfold RemoveElement.
  destruct (decide (length slice = 0)) as [Hnil|Hlen].
  { by apply length_zero_iff_nil in Hnil as ->. }
  rewrite decide_False by lia.
  pose proof (RemoveElement_inplace_kept slice element k) as Hloop.
  destruct (RemoveElement_inplace slice element k) as [[slice' n] c].
  rewrite Hloop, RemoveElement_kept_leftmost by lia. f_equal. lia.
Qed.

Lemma remove_leftmost_one element l :
  ((element ∉ l) ∧ remove_leftmost element 1 l = l) ∨
  (∃ l1 l2, l = l1 ++ element :: l2 ∧ (element ∉ l1) ∧
            remove_leftmost element 1 l = l1 ++ l2).
Proof.
  induction l as [|x l IH]; simpl.
  { left. split; [apply not_elem_of_nil|done]. }
  destruct (decide (x = element)) as [->|Hx].
  - right. exists [], l. rewrite remove_leftmost_zero.
    split; [done|]. split; [apply not_elem_of_nil|done].
  - destruct IH as [[Hnotin ->]|(l1 & l2 & -> & Hnotin & ->)].
    + left. split; [|done]. rewrite elem_of_cons. intros [->|?]; done.
    + right. exists (x :: l1), l2. split; [done|]. split; [|done].
      rewrite elem_of_cons. intros [->|?]; done.
Qed.

(** [RemoveFirstOccurrence] takes out the leftmost occurrence of the
    element and nothing else; a slice without the element comes back as it
    is. *)
Theorem RemoveFirstOccurrence_leftmost slice element :
  ((element ∉ slice) ∧ RemoveFirstOccurrence slice element = slice) ∨
  (∃ l1 l2, slice = l1 ++ element :: l2 ∧ (element ∉ l1) ∧
            RemoveFirstOccurrence slice element = l1 ++ l2).
Proof.
  unfold RemoveFirstOccurrence. rewrite RemoveElement_positive by lia.
  apply remove_leftmost_one.
Qed.

Lemma elem_of_key_fold (keys : list I) : ∀ (set : gset I) x,
  x ∈ foldl (λ set item, {[item]} ∪ set) set keys ↔ x ∈ set ∨ x ∈ keys.
Proof.
  induction keys as [|k keys IH]; intros set x; simpl.
  { rewrite elem_of_nil. tauto. }
  rewrite IH, elem_of_union, elem_of_singleton, elem_of_cons. tauto.
Qed.

Lemma elem_of_key_set (keys : list I) x : x ∈ key_set keys ↔ x ∈ keys.
Proof. unfold key_set. rewrite elem_of_key_fold, elem_of_empty. tauto. Qed.

Lemma skip_keys_filter (keys : list I) l :
  compaction_kept (λ (_ : unit) x, (bool_decide (x ∉ key_set keys), ())) () l
  = filter (λ x, x ∉ keys) l.
Proof.
  rewrite compaction_kept_filter. apply list_filter_iff. intros x.
  rewrite bool_decide_eq_true, elem_of_key_set. done.
Qed.

Lemma RemoveElements_filter slice (elements : list I) :
  RemoveElements slice elements = filter (λ x, x ∉ elements) slice.
Proof.
  rewrite <-skip_keys_filter. unfold RemoveElements.
  pose proof (compaction_result
                (λ (_ : unit) x, (bool_decide (x ∉ key_set elements), ()))
                fst snd (λ _, ()) (RemoveElements_body (key_set elements))) as H.
  destruct (H) with (t := (slice, 0)) as [Hview _]; [|done|].
  { intros [s n] i item Hi. simpl in *. rewrite Hi.
    destruct (decide (item ∈ key_set elements)).
    - by rewrite bool_decide_eq_false_2 by tauto.
    - by rewrite bool_decide_eq_true_2 by done. }
  simpl in Hview. by destruct (foldl _ _ _).
Qed.

Lemma Difference_filter a b : Difference a b = filter (λ x, x ∉ b) a.
Proof.
  rewrite <-skip_keys_filter. unfold Difference.
  pose proof (compaction_result
                (λ (_ : unit) x, (bool_decide (x ∉ key_set b), ()))
                fst snd (λ _, ()) (Difference_body (key_set b))) as H.
  destruct (H) with (t := (a, 0)) as [Hview _]; [|done|].
  { intros [s n] i item Hi. simpl in *. rewrite Hi.
    destruct (decide (item ∈ key_set b)).
    - by rewrite bool_decide_eq_false_2 by tauto.
    - by rewrite bool_decide_eq_true_2 by done. }
  simpl in Hview. by destruct (foldl _ _ _).
Qed.

(** [RemoveElements] returns the elements of the slice that are not among
    the given ones, in their order, and [Difference(a, b)] the elements of
    [a] that do not occur in [b]: the two functions compute the same. *)
Theorem RemoveElements_Difference_filter a b :
  RemoveElements a b = filter (λ x, x ∉ b) a ∧
  Difference a b = filter (λ x, x ∉ b) a ∧
  Difference a b = RemoveElements a b ∧
  ∀ x, x ∈ Difference a b ↔ x ∈ a ∧ x ∉ b.
Proof.
  rewrite RemoveElements_filter, Difference_filter.
  split; [done|]. split; [done|]. split; [done|].
  intros x. by rewrite list_elem_of_filter, (comm and).
Qed.

Lemma Intersection_fold (set : gset I) b : ∀ result,
  foldl (λ result item, if decide (item ∈ set) then result ++ [item] else result)
        result b
  = result ++ filter (λ x, x ∈ set) b.
Proof.
  induction b as [|item b IH]; intros result; simpl.
  { by rewrite app_nil_r. }
  rewrite IH, filter_cons. case_decide; [by rewrite <-app_assoc|done].
Qed.

Lemma Intersection_filter a b : Intersection a b = filter (λ x, x ∈ a) b.
Proof.
  unfold Intersection. rewrite Intersection_fold. simpl.
  apply list_filter_iff. intros x. apply elem_of_key_set.
Qed.

(** [Intersection(a, b)] is [b] restricted to the elements that occur in
    [a]: it has [b]'s order and [b]'s repetitions, so it holds exactly the
    common elements but is not symmetric in its arguments. *)
Theorem Intersection_of_second a b :
  Intersection a b = filter (λ x, x ∈ a) b ∧
  (∀ x, x ∈ Intersection a b ↔ x ∈ a ∧ x ∈ b) ∧
  Intersection [1%Z; 1%Z] [1%Z] ≠ Intersection [1%Z] [1%Z; 1%Z].
Proof.
  split; [apply Intersection_filter|]. split; [|by vm_compute].
  intros x. rewrite Intersection_filter, list_elem_of_filter. tauto.
Qed.

(** The possible results of the eager [Union] are exactly the
    rearrangements of what [UnionSeq] yields: the first occurrences in
    [a] followed by [b]. *)
Theorem Union_permutation_of_first_occurrences a b (result : list I) :
  Union a b result ↔ result ≡ₚ first_occurrences (a ++ b).
Proof.
  assert (∀ x, x ∈ Union_set a b ↔ x ∈ first_occurrences (a ++ b)) as Helem.
  { intros x. unfold Union_set, first_occurrences.
    rewrite !elem_of_key_fold, first_occurrences_from_elem, elem_of_app,
      elem_of_empty, elem_of_nil. tauto. }
  unfold Union. split.
  - intros [Hnd Hres]. apply NoDup_Permutation;
      [done|apply first_occurrences_from_NoDup|].
    intros x. by rewrite Hres, Helem.
  - intros Hperm. split.
    + rewrite Hperm. apply first_occurrences_from_NoDup.
    + intros x. by rewrite Hperm, Helem.
Qed.
End SetOpsFacts.

(** ** UniqueItemsById *)

Lemma compaction_kept_sublist {I St} (judge : St → I → bool * St) (l : list I) :
  ∀ st, compaction_kept judge st l `sublist_of` l.
Proof.
  induction l as [|x l IH]; intros st; simpl; [done|].
  destruct (judge st x) as [[] st']; [by apply sublist_skip|by apply sublist_cons].
Qed.

Section UniqueItemsFacts.
Context {T I : Type} `{!EqDecision T} `{!Countable T} `{!identifiable T I} `{!Zero I}.
Implicit Types (slice l : list I) (seen : gset T).

Lemma UniqueItemsById_kept slice :
  UniqueItemsById slice = compaction_kept by_new_id ∅ slice.
Proof.
  unfold UniqueItemsById.
  pose proof (compaction_result by_new_id (λ t, t.1.1) (λ t, t.1.2) snd
                UniqueItemsById_body) as H.
  destruct (H) with (t := (slice, 0, (∅ : gset T))) as [Hview _]; [|done|].
  { intros [[s n] seen] i item Hi. unfold by_new_id. simpl in *. rewrite Hi.
    by destruct (decide (Id item ∈ seen)). }
  simpl in Hview. by destruct (foldl _ _ _) as [[s' n'] seen'].
Qed.

Lemma by_new_id_ids l : ∀ seen (before : list T),
  (∀ k, k ∈ seen ↔ k ∈ before) →
  Id <$> compaction_kept by_new_id seen l = first_occurrences_from before (Id <$> l).
Proof.
  induction l as [|item l IH]; intros seen before Hseen; [done|]. simpl.
  unfold by_new_id at 1. destruct (decide (Id item ∈ seen)) as [Hin|Hnin].
  - rewrite decide_True by (by apply Hseen). apply IH.
    intros k. rewrite elem_of_app, list_elem_of_singleton, <-Hseen.
    split; [tauto|]. by intros [?| ->].
  - rewrite decide_False by (by rewrite <-Hseen). simpl. f_equal. apply IH.
    intros k. rewrite elem_of_union, elem_of_singleton, elem_of_app,
      list_elem_of_singleton, Hseen. tauto.
Qed.

Lemma by_new_id_first l : ∀ seen y,
  y ∈ compaction_kept by_new_id seen l →
  (Id y ∉ seen) ∧ Find l (λ x, bool_decide (Id x = Id y)) = (y, true).
Proof.
  induction l as [|item l IH]; intros seen y; simpl.
  { by intros ?%elem_of_nil. }
  unfold by_new_id at 1. destruct (decide (Id item ∈ seen)) as [Hin|Hnin].
  - intros [Hy Hfind]%IH. split; [done|].
    rewrite bool_decide_eq_false_2; [done|]. intros Heq. by rewrite Heq in Hin.
  - intros [->|[Hy Hfind]%IH]%elem_of_cons.
    + split; [done|]. by rewrite bool_decide_eq_true_2.
    + rewrite elem_of_union, elem_of_singleton in Hy. split; [tauto|].
      rewrite bool_decide_eq_false_2; [done|]. intros Heq. apply Hy. by left.
Qed.

(** [UniqueItemsById] keeps, in the order of the slice, the first item of
    each id: the ids of the result are the distinct ids of the input in
    first-occurrence order, without repetition; the result is a subsequence
    of the input; and each item kept is the first of the input with its
    id. *)
Theorem UniqueItemsById_first_per_id slice :
  Id <$> UniqueItemsById slice = Distinct (Id <$> slice) ∧
  NoDup (Id <$> UniqueItemsById slice) ∧
  UniqueItemsById slice `sublist_of` slice ∧
  ∀ y, y ∈ UniqueItemsById slice →
       Find slice (λ x, bool_decide (Id x = Id y)) = (y, true).
Proof.
  rewrite UniqueItemsById_kept.
  assert (Id <$> compaction_kept by_new_id ∅ slice = Distinct (Id <$> slice)) as Hids.
  { rewrite Distinct_first_occurrences. apply by_new_id_ids.
    intros k. by rewrite elem_of_empty, elem_of_nil. }
  split; [done|]. split; [|split].
  - rewrite Hids, Distinct_first_occurrences. apply first_occurrences_from_NoDup.
  - apply compaction_kept_sublist.
  - intros y Hy. by apply (by_new_id_first slice ∅).
Qed.
End UniqueItemsFacts.

(** ** The safe loops on functions that do not fail *)

Section SafeAgreeFacts.
Context {I O : Type} `{!Zero I} `{!Zero O}.




End SafeAgreeFacts.

(** ** ParallelForEach *)

Section ForEachFacts.
Context {I : Type}.
Variable NumCPU : nat.
Implicit Types (l : list I) (s : fe_pool I) (ws : list (fe_worker I)) (w : nat).

Local Abbreviation finv := (fe_inv NumCPU).

Lemma omap_fe_input_cons st ws :
  omap fe_input (st :: ws)
  = match fe_input st with
    | Some x => x :: omap fe_input ws
    | None => omap fe_input ws
    end.
Proof. done. Qed.

Lemma fe_held_receive ws w input :
  ws !! w = Some FeReceiving →
  omap fe_input (<[w := FeGot input]> ws) ≡ₚ input :: omap fe_input ws.
Proof.
  revert w. induction ws as [|st ws IH]; intros w Hw.
  { by rewrite lookup_nil in Hw. }
  destruct w as [|w]; simpl in Hw.
  - by injection Hw as ->.
  - change (<[S w := FeGot input]> (st :: ws)) with (st :: <[w := FeGot input]> ws).
    rewrite !omap_fe_input_cons. destruct (fe_input st) as [x|]; [|by apply IH].
    rewrite (IH w Hw). apply Permutation_swap.
Qed.

Lemma fe_held_call ws w input :
  ws !! w = Some (FeGot input) →
  input :: omap fe_input (<[w := FeReceiving]> ws) ≡ₚ omap fe_input ws.
Proof.
  revert w. induction ws as [|st ws IH]; intros w Hw.
  { by rewrite lookup_nil in Hw. }
  destruct w as [|w]; simpl in Hw.
  - by injection Hw as ->.
  - change (<[S w := FeReceiving]> (st :: ws)) with (st :: <[w := FeReceiving]> ws).
    rewrite !omap_fe_input_cons. destruct (fe_input st) as [x|]; [|by apply IH].
    rewrite <-(IH w Hw). apply Permutation_swap.
Qed.

Lemma fe_held_exit ws w :
  ws !! w = Some FeReceiving →
  omap fe_input (<[w := FeExited]> ws) = omap fe_input ws.
Proof.
  revert w. induction ws as [|st ws IH]; intros w Hw.
  { by rewrite lookup_nil in Hw. }
  destruct w as [|w]; simpl in Hw.
  - by injection Hw as ->.
  - change (<[S w := FeExited]> (st :: ws)) with (st :: <[w := FeExited]> ws).
    rewrite !omap_fe_input_cons. by rewrite (IH w Hw).
Qed.

Lemma fe_init_inv l : finv l (fe_init NumCPU l).
Proof.
  constructor; simpl; try done.
  - lia.
  - intros w [? _]%lookup_replicate. done.
  - unfold fe_held. simpl.
    assert (∀ n, omap fe_input (replicate n (@FeReceiving I)) = []) as ->.
    { induction n as [|n IH]; [done|]. simpl replicate. by rewrite omap_fe_input_cons, IH. }
    done.
  - apply length_replicate.
Qed.

Lemma fe_step_inv l s s' t : fe_step l t s = Some s' → finv l s → finv l s'.
Proof.
  intros Hstep [Hsent Hcl Hchan Hex Hplaces Hws]. unfold fe_held in Hplaces.
  destruct t as [|w]; simpl in Hstep.
  - unfold fe_step_main in Hstep. destruct (fe_closed s) eqn:Hclosed; [done|].
    assert (∀ w, fe_workers s !! w ≠ Some FeExited) as Hnoexit.
    { intros w Hw. destruct (Hex w Hw) as [_ ?]. congruence. }
    destruct (l !! fe_sent s) as [input|] eqn:Hinput.
    + destruct (decide (length (fe_chan s) < length l)); [|done].
      injection Hstep as <-. apply lookup_lt_Some in Hinput as Hlt.
      constructor; unfold fe_held; simpl; try done; try lia.
      * rewrite length_app. simpl. lia.
      * intros w Hw. by destruct (Hnoexit w).
      * rewrite <-Hplaces at 2.
        rewrite (drop_S l input (fe_sent s) Hinput). by rewrite <-!app_assoc.
    + injection Hstep as <-. apply lookup_ge_None in Hinput.
      constructor; unfold fe_held; simpl; try done; try lia.
      intros w Hw. by destruct (Hnoexit w).
  - unfold fe_step_worker in Hstep.
    destruct (fe_workers s !! w) as [[|input|]|] eqn:Hw; [| |done|done].
    + destruct (fe_chan s) as [|input rest] eqn:Hc.
      * destruct (fe_closed s) eqn:Hclosed; [|done]. injection Hstep as <-.
        constructor; unfold fe_held; simpl; try done; try lia.
        -- by rewrite (fe_held_exit _ _ Hw).
        -- by rewrite length_insert.
      * injection Hstep as <-. simpl in Hchan.
        constructor; unfold fe_held; simpl; try done; try lia.
        -- intros w' [(_ & [=] & _)|(_ & Hw')]%list_lookup_insert_Some.
           by destruct (Hex w' Hw').
        -- rewrite (fe_held_receive _ _ input Hw).
           rewrite <-Hplaces at 2. apply Permutation_app_head.
           simpl. by rewrite <-Permutation_middle.
        -- by rewrite length_insert.
    + injection Hstep as <-.
      constructor; unfold fe_held; simpl; try done; try lia.
      * intros w' [(_ & [=] & _)|(_ & Hw')]%list_lookup_insert_Some. by apply (Hex w').
      * rewrite <-Hplaces at 2.
        rewrite <-(fe_held_call _ _ _ Hw). rewrite <-app_assoc. done.
      * by rewrite length_insert.
Qed.

Lemma fe_run_inv l sched : ∀ s s',
  fe_run l sched s = Some s' → finv l s → finv l s'.
Proof.
  induction sched as [|t sched IH]; intros s s'; simpl.
  { by intros [= <-]. }
  destruct (fe_step l t s) as [s1|] eqn:Hstep; [|done]. simpl.
  intros Hrun Hinv. eapply IH; [done|]. by eapply fe_step_inv.
Qed.

Lemma forallb_fe_is_Exited ws :
  forallb fe_is_Exited ws = true → ∀ w st, ws !! w = Some st → st = FeExited.
Proof.
  induction ws as [|st0 ws IH]; simpl; intros Hall w st Hw.
  { by rewrite lookup_nil in Hw. }
  apply andb_true_iff in Hall as [H0 Hall].
  destruct w as [|w]; simpl in Hw.
  - injection Hw as <-. by destruct st0.
  - by eapply IH.
Qed.

Lemma not_forallb_fe_is_Exited ws :
  forallb fe_is_Exited ws = false →
  ∃ w st, ws !! w = Some st ∧ fe_is_Exited st = false.
Proof.
  induction ws as [|st0 ws IH]; simpl; [done|].
  destruct (fe_is_Exited st0) eqn:H0; simpl.
  - intros (w & st & Hw & Hst)%IH. by exists (S w), st.
  - intros _. by exists 0, st0.
Qed.

(** When [wg.Wait()] returns the calls made are the elements of the slice,
    each once, in some order. *)
Lemma fe_joined_log l s :
  0 < NumCPU → finv l s → fe_joined s = true → fe_log s ≡ₚ l.
Proof.
  intros Hcpu [Hsent Hcl Hchan Hex Hplaces Hws] [Hclosed Hall]%andb_true_iff.
  pose proof (forallb_fe_is_Exited _ Hall) as Hexited.
  assert (fe_held s = []) as Hheld.
  { unfold fe_held. clear -Hexited. induction (fe_workers s) as [|st ws IH]; [done|].
    rewrite omap_fe_input_cons, (Hexited 0 st eq_refl). simpl. apply IH.
    intros w st' Hw. by apply (Hexited (S w)). }
  assert (fe_chan s = []) as Hc.
  { destruct (fe_chan s) as [|x rest] eqn:Hc; [done|].
    destruct (fe_workers s) as [|st ws] eqn:Hworkers.
    - simpl in Hws, Hchan. unfold numWorkers in Hws. case_decide; lia.
    - rewrite (Hexited 0 st eq_refl) in Hex.
      by destruct (Hex 0 eq_refl) as [? _]. }
  rewrite Hheld, Hc, Hcl, drop_all in Hplaces by done.
  by rewrite !app_nil_r in Hplaces.
Qed.

Lemma fe_progress l s :
  finv l s → fe_joined s = false → ∃ t s', fe_step l t s = Some s'.
Proof.
  intros [Hsent Hcl Hchan Hex Hplaces Hws] Hjoined.
  unfold fe_joined in Hjoined. destruct (fe_closed s) eqn:Hclosed; simpl in Hjoined.
  - apply not_forallb_fe_is_Exited in Hjoined as (w & st & Hw & Hst).
    exists (Work w). simpl. unfold fe_step_worker. rewrite Hw.
    destruct st as [|input|]; [|by eexists|done].
    destruct (fe_chan s); [rewrite Hclosed|]; by eexists.
  - exists Main. simpl. unfold fe_step_main. rewrite Hclosed.
    destruct (l !! fe_sent s) as [input|] eqn:Hinput; [|by eexists].
    apply lookup_lt_Some in Hinput. rewrite decide_True by lia. by eexists.
Qed.

Lemma fe_worker_weight_insert ws w st st' :
  ws !! w = Some st →
  sum_list (fe_worker_weight <$> <[w := st']> ws) + fe_worker_weight st
  = sum_list (fe_worker_weight <$> ws) + fe_worker_weight st'.
Proof.
  revert w. induction ws as [|st0 ws IH]; intros w Hw.
  { by rewrite lookup_nil in Hw. }
  destruct w as [|w]; simpl in Hw.
  - injection Hw as <-. simpl. lia.
  - specialize (IH w Hw). change (<[S w := st']> (st0 :: ws)) with (st0 :: <[w := st']> ws).
    rewrite !fmap_cons. cbn [sum_list sum_list_with]. lia.
Qed.

Lemma fe_step_weight l s s' t :
  fe_step l t s = Some s' → fe_weight l s = S (fe_weight l s').
Proof.
  destruct t as [|w]; simpl.
  - unfold fe_step_main, fe_weight. destruct (fe_closed s); [done|].
    destruct (l !! fe_sent s) as [input|] eqn:Hinput.
    + destruct (decide (length (fe_chan s) < length l)); [|done].
      intros [= <-]. simpl. rewrite length_app. simpl.
      apply lookup_lt_Some in Hinput. lia.
    + intros [= <-]. simpl. lia.
  - unfold fe_step_worker, fe_weight.
    destruct (fe_workers s !! w) as [[|input|]|] eqn:Hw; [| |done|done].
    + destruct (fe_chan s) as [|input rest] eqn:Hc.
      * destruct (fe_closed s) eqn:Hclosed; [|done]. intros [= <-]. simpl.
        pose proof (fe_worker_weight_insert _ _ _ FeExited Hw). simpl in *. lia.
      * intros [= <-]. simpl.
        pose proof (fe_worker_weight_insert _ _ _ (FeGot input) Hw). simpl in *. lia.
    + intros [= <-]. simpl.
      pose proof (fe_worker_weight_insert _ _ _ FeReceiving Hw). simpl in *. lia.
Qed.

Lemma fe_run_weight l sched : ∀ s s',
  fe_run l sched s = Some s' → fe_weight l s = length sched + fe_weight l s'.
Proof.
  induction sched as [|t sched IH]; intros s s'; simpl.
  { by intros [= <-]. }
  destruct (fe_step l t s) as [s1|] eqn:Hstep; [|done]. simpl.
  intros Hrun. rewrite (fe_step_weight _ _ _ _ Hstep), (IH _ _ Hrun). done.
Qed.

Lemma fe_run_app l sched1 sched2 s :
  fe_run l (sched1 ++ sched2) s = fe_run l sched1 s ≫= fe_run l sched2.
Proof.
  revert s. induction sched1 as [|t sched1 IH]; intros s; simpl; [done|].
  destruct (fe_step l t s) as [s1|]; simpl; [apply IH|done].
Qed.

Lemma fe_completes l n : ∀ s,
  fe_weight l s ≤ n → finv l s →
  ∃ sched s', fe_run l sched s = Some s' ∧ fe_joined s' = true.
Proof.
  induction n as [|n IH]; intros s Hn Hinv;
    (destruct (fe_joined s) eqn:Hjoined; [by exists [], s|]);
    destruct (fe_progress l s Hinv Hjoined) as (t & s1 & Hstep);
    pose proof (fe_step_weight _ _ _ _ Hstep) as Hw; [lia|].
  destruct (IH s1) as (sched & s' & Hrun & Hj); [lia|by eapply fe_step_inv|].
  exists (t :: sched), s'. simpl. rewrite Hstep. done.
Qed.

Lemma fe_init_weight l :
  fe_weight l (fe_init NumCPU l) ≤ 3 * length l + NumCPU + 1.
Proof.
  assert (∀ n, sum_list (fe_worker_weight <$> replicate n (@FeReceiving I)) = n) as Hsum.
  { induction n as [|n IH]; [done|]. simpl replicate. rewrite fmap_cons.
    cbn [sum_list sum_list_with]. by rewrite IH. }
  unfold fe_weight, fe_init.
  cbn [fe_sent fe_chan fe_workers fe_closed length]. rewrite Hsum.
  unfold numWorkers. case_decide; lia.
Qed.

(** With at least one CPU, in every complete execution of
    [ParallelForEach], whatever the order of the goroutines' steps,
    [forEachFunc] is called exactly once for each element of the slice (the
    calls are a rearrangement of the slice); at no point of an execution has
    it been called more often than that; and every execution is finite and
    can be run on to completion, so the call returns. *)
Theorem ParallelForEach_once_per_element (inputSlice : option (list I)) :
  0 < NumCPU →
  (∀ sched log, ParallelForEach NumCPU inputSlice sched = Some log →
                log ≡ₚ elems inputSlice) ∧
  (∃ sched, is_Some (ParallelForEach NumCPU inputSlice sched)) ∧
  (∀ l sched s,
     inputSlice = Some l →
     fe_run l sched (fe_init NumCPU l) = Some s →
     fe_log s ⊆+ l ∧
     length sched ≤ 3 * length l + NumCPU + 1 ∧
     ∃ sched', is_Some (ParallelForEach NumCPU inputSlice (sched ++ sched'))).
Proof.
  intros Hcpu.
  assert (∀ l sched s, fe_run l sched (fe_init NumCPU l) = Some s →
            ∃ sched', is_Some (ParallelForEach NumCPU (Some l) (sched ++ sched')))
    as Hextend.
  { intros l sched s Hrun.
    destruct (fe_completes l _ s (Nat.le_refl _)) as (sched' & s' & Hrun' & Hj).
    { eapply fe_run_inv; [done|apply fe_init_inv]. }
    exists sched'. simpl. rewrite fe_run_app, Hrun. simpl. rewrite Hrun'. simpl.
    rewrite Hj. by eexists. }
  split; [|split].
  - intros sched log. destruct inputSlice as [l|]; simpl.
    + destruct (fe_run l sched (fe_init NumCPU l)) as [s|] eqn:Hrun; [|done].
      simpl. destruct (fe_joined s) eqn:Hj; [|done]. intros [= <-].
      apply fe_joined_log; [done| |done]. eapply fe_run_inv; [done|apply fe_init_inv].
    + case_decide; [|done]. by intros [= <-].
  - destruct inputSlice as [l|].
    + destruct (Hextend l [] _ eq_refl) as [sched' Hsched']. by exists sched'.
    + exists []. simpl. by eexists.
  - intros l sched s -> Hrun. split; [|split].
    + assert (finv l s) as [_ _ _ _ Hplaces _]
        by (eapply fe_run_inv; [done|apply fe_init_inv]).
      etrans; [|apply Permutation_submseteq, Hplaces]. by apply submseteq_inserts_r.
    + pose proof (fe_run_weight _ _ _ _ Hrun) as Hw.
      pose proof (fe_init_weight l). lia.
    + by eapply Hextend.
Qed.
End ForEachFacts.

Lemma ParallelForEach_once_per_element_witness :
  0 < 2 ∧ ∃ sched, is_Some (ParallelForEach 2 (Some [1; 2; 3]%Z) sched).
Proof.
  split; [lia|].
  apply (ParallelForEach_once_per_element 2 (Some [1; 2; 3]%Z)). lia.
Defined.

(** ** The lazy helpers on the sequence of a slice *)

Section LazyFacts.
Context {I : Type}.
Implicit Types l : list I.

Lemma MapSeq_Values {O C} (mapFunc : I → O) (yield : Yield O C) l : ∀ c,
  MapSeq (Values l) mapFunc C yield c = Values (mapFunc <$> l) C yield c.
Proof.
  unfold MapSeq. induction l as [|x l IH]; intros c; simpl; [done|].
  destruct (yield (mapFunc x) c) as [[[|] c']|r]; simpl; [apply IH|done|done].
Qed.

Lemma FilterSeq_Values {C} filterFunc (yield : Yield I C) l : ∀ c,
  FilterSeq (Values l) filterFunc C yield c
  = Values (filter (λ x, filterFunc x = true) l) C yield c.
Proof.
  unfold FilterSeq. induction l as [|x l IH]; intros c; [done|].
  rewrite filter_cons. cbn [Values]. destruct (filterFunc x) eqn:Hx.
  - rewrite decide_True by done. cbn [Values].
    destruct (yield x c) as [[[|] c']|r]; simpl; [apply IH|done|done].
  - rewrite decide_False by done. simpl. apply IH.
Qed.

(** [MapSeq] and [FilterSeq] of the sequence of a slice hand to every
    consumer, whenever it stops, what the sequence of the slice returned by
    [Map] and by [Filter] hands to it. *)
Theorem MapSeq_FilterSeq_as_eager {O : Type} `{!Zero O} l
    (mapFunc : I → O) (filterFunc : I → bool) :
  (∀ C (yield : Yield O C) c,
     MapSeq (Values l) mapFunc C yield c = Values (Map mapFunc l) C yield c) ∧
  (∀ C (yield : Yield I C) c,
     FilterSeq (Values l) filterFunc C yield c
     = Values (Filter l filterFunc) C yield c).
Proof.
  split; intros C yield c.
  - rewrite Map_fmap. apply MapSeq_Values.
  - rewrite Filter_filter. apply FilterSeq_Values.
Qed.

Lemma ReduceSeq_Values {O} (reduceFunc : O → I → O) l : ∀ initialValue,
  ReduceSeq (Values l) reduceFunc initialValue
  = Returned (Reduce l reduceFunc initialValue).
Proof.
  unfold ReduceSeq, Reduce.
  induction l as [|x l IH]; intros initialValue; simpl; [done|apply IH].
Qed.

Lemma FindSeq_Values `{!Zero I} findFunc l :
  FindSeq (Values l) findFunc = Returned (Find l findFunc).
Proof.
  unfold FindSeq. induction l as [|x l IH]; simpl; [done|].
  destruct (findFunc x); simpl; [done|apply IH].
Qed.

Lemma AllSeq_Values allFunc l : AllSeq (Values l) allFunc = Returned (All l allFunc).
Proof.
  unfold AllSeq. induction l as [|x l IH]; simpl; [done|].
  destruct (allFunc x); simpl; [apply IH|done].
Qed.

Lemma AnySeq_Values anyFunc l : AnySeq (Values l) anyFunc = Returned (Any l anyFunc).
Proof.
  unfold AnySeq. induction l as [|x l IH]; simpl; [done|].
  destruct (anyFunc x); simpl; [done|apply IH].
Qed.

Lemma FindIndexSeq_loop (findFunc : I → bool) l : ∀ i,
  (Z.of_nat i + len l ≤ MaxInt)%Z →
  ('(_, foundIndex, didFind) ←
     Values l (Z * Z * bool)%type
       (λ input (st : Z * Z * bool),
         let '(index, foundIndex, didFind) := st in
         if findFunc input then Returned (false, (index, index, true))
         else Returned (true, (int_add index 1, foundIndex, didFind)))
       (Z.of_nat i, 0%Z, false);
   Returned (foundIndex, didFind))
  = Returned (if decide (FindIndex_loop findFunc i l = (-1)%Z) then (0%Z, false)
              else (FindIndex_loop findFunc i l, true)).
Proof.
  induction l as [|x l IH]; intros i Hlen; [done|].
  unfold len in Hlen. simpl length in Hlen. cbn [Values FindIndex_loop].
  destruct (findFunc x); simpl.
  - rewrite decide_False by lia. done.
  - unfold int_add. rewrite wrap_small by (unfold MinInt, MaxInt in *; lia).
    replace (Z.of_nat i + 1)%Z with (Z.of_nat (S i)) by lia.
    apply IH. unfold len. lia.
Qed.

Lemma Ennumerate_loop {C} (yield : Yield2 Z I C) l : ∀ i c,
  (Z.of_nat i + len l ≤ MaxInt)%Z →
  ('(_, c) ←
     Values l (Z * C)%type
       (λ input (st : Z * C),
         let '(index, c) := st in
         '(continue, c) ← yield index input c;
         if continue : bool then Returned (true, (int_add index 1, c))
         else Returned (false, (index, c)))
       (Z.of_nat i, c);
   Returned c)
  = All2_from i l C yield c.
Proof.
  induction l as [|x l IH]; intros i c Hlen; [done|].
  unfold len in Hlen. simpl length in Hlen. cbn [Values All2_from].
  destruct (yield (Z.of_nat i) x c) as [[[|] c']|r]; simpl; [|done|done].
  unfold int_add. rewrite wrap_small by (unfold MinInt, MaxInt in *; lia).
  replace (Z.of_nat i + 1)%Z with (Z.of_nat (S i)) by lia.
  apply IH. unfold len. lia.
Qed.

(** On the sequence of a slice, [FindIndexSeq] finds the index [FindIndex]
    finds, and answers [(0, false)] where [FindIndex] answers -1;
    [Ennumerate] hands to every consumer the pairs of [for i, v := range]
    over the slice.  (The length of a slice is at most [math.MaxInt], so
    that [index++] does not wrap.) *)
Theorem FindIndexSeq_Ennumerate_count_from_zero l findFunc :
  (len l ≤ MaxInt)%Z →
  FindIndexSeq (Values l) findFunc
  = Returned (if decide (FindIndex l findFunc = (-1)%Z) then (0%Z, false)
              else (FindIndex l findFunc, true)) ∧
  ∀ C (yield : Yield2 Z I C) c,
    Ennumerate (Values l) C yield c = All2_from 0 l C yield c.
Proof.
  intros Hlen. split.
  - apply (FindIndexSeq_loop findFunc l 0). simpl. lia.
  - intros C yield c. apply (Ennumerate_loop yield l 0). simpl. lia.
Qed.

Lemma SafeFindSeq_loop `{!Zero I} (findFunc : I → outcome (bool * error)) l : ∀ log,
  SafeFindSeq (Values l) findFunc = (SafeFind_loop findFunc l log).2.
Proof.
  unfold SafeFindSeq. induction l as [|x l IH]; intros log; [done|].
  cbn [Values SafeFind_loop].
  by destruct (SafeExcecute (λ _, findFunc x)) as [[[|] [e|]]|r]; simpl.
Qed.

Lemma SafeReduceSeq_loop {O} `{!Zero O}
    (reduceFunc : O → I → outcome (O * error)) l : ∀ accumulator log,
  match (SafeReduce_loop reduceFunc l accumulator log).2 with
  | Returned (v, None) =>
      SafeReduceSeq (Values l) reduceFunc accumulator = Returned (v, None)
  | Returned (v, Some e) =>
      ∃ l1 x l2 log1 acc,
        l = l1 ++ x :: l2 ∧
        SafeReduce_loop reduceFunc l1 accumulator log = (log1, Returned (acc, None)) ∧
        SafeExcecute (λ _, reduceFunc acc x) = Returned (v, Some e) ∧
        SafeReduceSeq (Values l) reduceFunc accumulator = Returned (acc, Some e)
  | Panicked r => SafeReduceSeq (Values l) reduceFunc accumulator = Panicked r
  end.
Proof.
  unfold SafeReduceSeq. induction l as [|x l IH]; intros accumulator log; [done|].
  cbn [Values SafeReduce_loop].
  destruct (SafeExcecute (λ _, reduceFunc accumulator x)) as [[v [e|]]|r] eqn:Hx;
    simpl; [|..|done].
  - by exists [], x, l, log, accumulator.
  - specialize (IH v (log ++ [x])).
    destruct (SafeReduce_loop reduceFunc l v (log ++ [x])) as [log' [[v' [e|]]|r]];
      simpl in *; [|done|done].
    destruct IH as (l1 & y & l2 & log1 & acc & -> & Hl1 & Hy & Hrun).
    exists (x :: l1), y, l2, log1, acc. repeat split; try done.
    simpl. by rewrite Hx.
Qed.

End LazyFacts.

Section LazyScalarFacts.
Context {I : Type} `{!Zero I} `{!EqDecision I} `{!Countable I}.
Implicit Types l : list I.

Lemma ContainsSeq_Values l (element : I) :
  ContainsSeq (Values l) element = Returned (Contains l element).
Proof.
  unfold ContainsSeq. induction l as [|x l IH]; simpl; [done|].
  case_bool_decide; simpl; [done|apply IH].
Qed.

(** On the sequence of a slice, [ReduceSeq], [FindSeq], [ContainsSeq],
    [AllSeq] and [AnySeq] return what [Reduce], [Find], [Contains], [All]
    and [Any] return on the slice. *)
Theorem Lazy_scalars_agree_with_eager {O : Type} l
    (reduceFunc : O → I → O) (initialValue : O) (predicate : I → bool) (element : I) :
  ReduceSeq (Values l) reduceFunc initialValue
    = Returned (Reduce l reduceFunc initialValue) ∧
  FindSeq (Values l) predicate = Returned (Find l predicate) ∧
  ContainsSeq (Values l) element = Returned (Contains l element) ∧
  AllSeq (Values l) predicate = Returned (All l predicate) ∧
  AnySeq (Values l) predicate = Returned (Any l predicate).
Proof.
  split; [apply ReduceSeq_Values|].
  split; [apply FindSeq_Values|].
  split; [apply ContainsSeq_Values|].
  split; [apply AllSeq_Values|apply AnySeq_Values].
Qed.

(** On the sequence of a slice [SafeFindSeq] returns what [SafeFind]
    returns, and [SafeReduceSeq] returns what [SafeReduce] returns when no
    call fails and panics when it panics.  When a call fails they return the
    same error but not the same value: [SafeReduce] returns what the failing
    call returned, [SafeReduceSeq] the accumulator as it was before that
    call. *)
Theorem Safe_lazy_against_eager {O : Type} `{!Zero O} l
    (findFunc : I → outcome (bool * error))
    (reduceFunc : O → I → outcome (O * error)) (initialValue : O) :
  SafeFindSeq (Values l) findFunc = (SafeFind l findFunc).2 ∧
  match (SafeReduce l reduceFunc initialValue).2 with
  | Returned (v, None) =>
      SafeReduceSeq (Values l) reduceFunc initialValue = Returned (v, None)
  | Returned (v, Some e) =>
      ∃ l1 x l2 acc,
        l = l1 ++ x :: l2 ∧
        (SafeReduce l1 reduceFunc initialValue).2 = Returned (acc, None) ∧
        SafeExcecute (λ _, reduceFunc acc x) = Returned (v, Some e) ∧
        SafeReduceSeq (Values l) reduceFunc initialValue = Returned (acc, Some e)
  | Panicked r => SafeReduceSeq (Values l) reduceFunc initialValue = Panicked r
  end.
Proof.
  split; [apply SafeFindSeq_loop|].
  unfold SafeReduce. pose proof (SafeReduceSeq_loop reduceFunc l initialValue []) as H.
  destruct (SafeReduce_loop reduceFunc l initialValue []) as [log [[v [e|]]|r]];
    simpl in *; try done.
  destruct H as (l1 & x & l2 & log1 & acc & Hl & Hl1 & Hx & Hrun).
  exists l1, x, l2, acc. by rewrite Hl1.
Qed.

(** *** Sequences that keep a map *)

Lemma Values_filter {C} (P : I → Prop) `{!∀ x, Decision (P x)}
    (yield : Yield I C) l : ∀ c,
  Values l C (λ input c, if decide (P input) then yield input c
                         else Returned (true, c)) c
  = Values (filter P l) C yield c.
Proof.
  induction l as [|x l IH]; intros c; [done|].
  rewrite filter_cons. cbn [Values]. destruct (decide (P x)); cbn [Values].
  - destruct (yield x c) as [[[|] c']|r]; simpl; [apply IH|done|done].
  - simpl. apply IH.
Qed.

Lemma Values_filter_not {C} (P : I → Prop) `{!∀ x, Decision (P x)}
    (yield : Yield I C) l : ∀ c,
  Values l C (λ input c, if decide (P input) then Returned (true, c)
                         else yield input c) c
  = Values (filter (λ x, ¬ P x) l) C yield c.
Proof.
  induction l as [|x l IH]; intros c; [done|].
  rewrite filter_cons. cbn [Values]. destruct (decide (P x)) as [HP|HP].
  - rewrite decide_False by tauto. simpl. apply IH.
  - rewrite decide_True by done. cbn [Values].
    destruct (yield x c) as [[[|] c']|r]; simpl; [apply IH|done|done].
Qed.

Lemma mark_seen_Values l : ∀ seen,
  mark_seen (Values l) seen = Returned (foldl (λ set item, {[item]} ∪ set) seen l).
Proof.
  unfold mark_seen. induction l as [|x l IH]; intros seen; simpl; [done|apply IH].
Qed.

Lemma IntersectionSeq_drive_Values {C} (yield : Yield I C) a b seen c :
  (∀ x, x ∈ seen → x ∈ a) →
  ('(_, c) ← IntersectionSeq_drive (Values a) (Values b) seen C yield c; Returned c)
  = Values (Intersection a b) C yield c ∧
  ∀ seen' c', IntersectionSeq_drive (Values a) (Values b) seen C yield c
              = Returned (seen', c') → ∀ x, x ∈ seen' → x ∈ a.
Proof.
  intros Hseen. unfold IntersectionSeq_drive. rewrite mark_seen_Values. simpl.
  set (seen1 := foldl _ seen a).
  assert (∀ x, x ∈ seen1 ↔ x ∈ a) as Hseen1.
  { intros x. unfold seen1. rewrite elem_of_key_fold. split; [|tauto].
    intros [?|?]; [by apply Hseen|done]. }
  rewrite (Values_filter (λ x : I, x ∈ seen1)), Intersection_filter.
  rewrite (list_filter_iff _ (λ x, x ∈ a)) by done.
  destruct (Values _ C yield c) as [c1|r]; simpl; [|done].
  split; [done|]. intros seen' c' [= <- _] x. apply Hseen1.
Qed.

Lemma DifferenceSeq_drive_Values {C} (yield : Yield I C) a b seen c :
  (∀ x, x ∈ seen → x ∈ b) →
  ('(_, c) ← DifferenceSeq_drive (Values a) (Values b) seen C yield c; Returned c)
  = Values (Difference a b) C yield c ∧
  ∀ seen' c', DifferenceSeq_drive (Values a) (Values b) seen C yield c
              = Returned (seen', c') → ∀ x, x ∈ seen' → x ∈ b.
Proof.
  intros Hseen. unfold DifferenceSeq_drive. rewrite mark_seen_Values. simpl.
  set (seen1 := foldl _ seen b).
  assert (∀ x, x ∈ seen1 ↔ x ∈ b) as Hseen1.
  { intros x. unfold seen1. rewrite elem_of_key_fold. split; [|tauto].
    intros [?|?]; [by apply Hseen|done]. }
  rewrite (Values_filter_not (λ x : I, x ∈ seen1)), Difference_filter.
  rewrite (list_filter_iff _ (λ x, x ∉ b)) by (intros x; by rewrite Hseen1).
  destruct (Values _ C yield c) as [c1|r]; simpl; [|done].
  split; [done|]. intros seen' c' [= <- _] x. apply Hseen1.
Qed.

(** [IntersectionSeq], [DifferenceSeq] and [RemoveElementsSeq] of the
    sequences of slices hand to every consumer what the sequence of the
    slice returned by [Intersection], [Difference] and [RemoveElements]
    hands to it.  The map that [IntersectionSeq] and [DifferenceSeq] keep
    between the drives only ever holds elements of the sequence it is
    filled from, so that every later drive yields the same again. *)
Theorem Lazy_set_operations_as_eager a b :
  (∀ C (yield : Yield I C) c,
     IntersectionSeq (Values a) (Values b) C yield c
     = Values (Intersection a b) C yield c) ∧
  (∀ C (yield : Yield I C) c,
     DifferenceSeq (Values a) (Values b) C yield c
     = Values (Difference a b) C yield c) ∧
  (∀ C (yield : Yield I C) c,
     RemoveElementsSeq (Values a) b C yield c
     = Values (RemoveElements a b) C yield c) ∧
  (∀ seen C (yield : Yield I C) c,
     (∀ x, x ∈ seen → x ∈ a) →
     ('(_, c) ← IntersectionSeq_drive (Values a) (Values b) seen C yield c;
      Returned c)
     = Values (Intersection a b) C yield c ∧
     ∀ seen' c', IntersectionSeq_drive (Values a) (Values b) seen C yield c
                 = Returned (seen', c') → ∀ x, x ∈ seen' → x ∈ a) ∧
  (∀ seen C (yield : Yield I C) c,
     (∀ x, x ∈ seen → x ∈ b) →
     ('(_, c) ← DifferenceSeq_drive (Values a) (Values b) seen C yield c;
      Returned c)
     = Values (Difference a b) C yield c ∧
     ∀ seen' c', DifferenceSeq_drive (Values a) (Values b) seen C yield c
                 = Returned (seen', c') → ∀ x, x ∈ seen' → x ∈ b).
Proof.
  split; [|split; [|split; [|split]]].
  - intros C yield c. apply IntersectionSeq_drive_Values. by intros x ?%elem_of_empty.
  - intros C yield c. apply DifferenceSeq_drive_Values. by intros x ?%elem_of_empty.
  - intros C yield c. unfold RemoveElementsSeq, Reduce.
    rewrite (Values_filter_not (λ x : I, x ∈ foldl _ ∅ b)), RemoveElements_filter.
    f_equal. apply list_filter_iff. intros x.
    rewrite elem_of_key_fold, elem_of_empty. tauto.
  - intros seen C yield c. apply IntersectionSeq_drive_Values.
  - intros seen C yield c. apply DifferenceSeq_drive_Values.
Qed.

(** *** DistinctSeq *)

Lemma DistinctSeq_loop {C} (yield : Yield I C) l : ∀ seen before c,
  (∀ x, x ∈ seen ↔ x ∈ before) →
  ('(_, c) ← Values l _ (DistinctSeq_body yield) (seen, c); Returned c)
  = Values (first_occurrences_from before l) C yield c.
Proof.
  induction l as [|item l IH]; intros seen before c Hseen; [done|]. simpl.
  destruct (decide (item ∈ seen)) as [Hin|Hnin]; simpl.
  - rewrite decide_True by (by apply Hseen). apply IH.
    intros x. rewrite elem_of_app, list_elem_of_singleton, <-Hseen.
    split; [tauto|]. by intros [?| ->].
  - rewrite decide_False by (by rewrite <-Hseen). simpl.
    destruct (yield item c) as [[[] c1]|r]; simpl; [|done|done].
    apply IH. intros x.
    rewrite elem_of_union, elem_of_singleton, elem_of_app,
      list_elem_of_singleton, Hseen. tauto.
Qed.

Lemma DistinctSeq_collect l : ∀ seen before acc,
  (∀ x, x ∈ seen ↔ x ∈ before) →
  ∃ seen', Values l _ (DistinctSeq_body collect_yield) (seen, acc)
           = Returned (seen', acc ++ first_occurrences_from before l) ∧
           ∀ x, x ∈ seen' ↔ x ∈ before ++ l.
Proof.
  induction l as [|item l IH]; intros seen before acc Hseen.
  { exists seen. simpl. rewrite !app_nil_r. done. }
  simpl. destruct (decide (item ∈ seen)) as [Hin|Hnin]; simpl.
  - rewrite decide_True by (by apply Hseen).
    destruct (IH seen (before ++ [item]) acc) as (seen' & Hrun & Hseen').
    { intros x. rewrite elem_of_app, list_elem_of_singleton, <-Hseen.
      split; [tauto|]. by intros [?| ->]. }
    exists seen'. split; [done|]. intros x. by rewrite Hseen', <-app_assoc.
  - rewrite decide_False by (by rewrite <-Hseen).
    destruct (IH ({[item]} ∪ seen) (before ++ [item]) (acc ++ [item]))
      as (seen' & Hrun & Hseen').
    { intros x. rewrite elem_of_union, elem_of_singleton, elem_of_app,
        list_elem_of_singleton, Hseen. tauto. }
    exists seen'. split; [by rewrite Hrun, <-app_assoc|].
    intros x. by rewrite Hseen', <-app_assoc.
Qed.

Lemma DistinctSeq_exhausted {C} (yield : Yield I C) l seen c :
  (∀ x, x ∈ l → x ∈ seen) →
  Values l _ (DistinctSeq_body yield) (seen, c) = Returned (seen, c).
Proof.
  induction l as [|item l IH]; intros Hseen; [done|].
  simpl. rewrite decide_True by (apply Hseen; constructor). simpl.
  apply IH. intros x Hx. apply Hseen. by constructor.
Qed.

(** The first drive of [DistinctSeq] of the sequence of a slice hands to
    every consumer what the sequence of the slice returned by [Distinct]
    hands to it.  The map [seen] outlives the drive: once a drive has run to
    the end, every later drive of the same sequence yields nothing. *)
Theorem DistinctSeq_first_drive_only l :
  (∀ C (yield : Yield I C) c,
     DistinctSeq (Values l) C yield c = Values (Distinct l) C yield c) ∧
  ∃ seen,
    DistinctSeq_drive (Values l) ∅ (list I) collect_yield [] = Returned (seen, Distinct l) ∧
    ∀ C (yield : Yield I C) c,
      DistinctSeq_drive (Values l) seen C yield c = Returned (seen, c).
Proof.
  assert (∀ x : I, x ∈ (∅ : gset I) ↔ x ∈ @nil I) as Hempty.
  { intros x. rewrite elem_of_empty, elem_of_nil. done. }
  split.
  - intros C yield c. rewrite Distinct_first_occurrences.
    apply DistinctSeq_loop, Hempty.
  - destruct (DistinctSeq_collect l ∅ [] [] Hempty) as (seen & Hrun & Hseen).
    exists seen. split.
    + unfold DistinctSeq_drive. by rewrite Hrun, Distinct_first_occurrences.
    + intros C yield c. apply DistinctSeq_exhausted. intros x Hx. by apply Hseen.
Qed.
End LazyScalarFacts.

(** *** GroupBySeq *)

Section GroupByFacts.
Context {I K : Type} `{!EqDecision K} `{!Countable K}.
Variable keyFunc : I → K.

Local Abbreviation items_of key l := (filter (λ x, keyFunc x = key) l).

Lemma GroupBySeq_loop (l : list I) : ∀ groups0 : gmap K (list I),
  ∃ groups,
    Values l (gmap K (list I))
      (λ item (groups : gmap K (list I)),
        let key := keyFunc item in
        Returned (true, <[key := default [] (groups !! key) ++ [item]]> groups))
      groups0
    = Returned groups ∧
    ∀ key, groups !! key
           = match groups0 !! key with
             | Some items => Some (items ++ items_of key l)
             | None => if decide (items_of key l = []) then None
                       else Some (items_of key l)
             end.
Proof.
  induction l as [|x l IH]; intros groups0.
  { exists groups0. split; [done|]. intros key. simpl.
    destruct (groups0 !! key); [by rewrite app_nil_r|done]. }
  cbn [Values]. simpl.
  destruct (IH (<[keyFunc x := default [] (groups0 !! keyFunc x) ++ [x]]> groups0))
    as (groups & Hrun & Hgroups).
  exists groups. split; [done|]. intros key. rewrite Hgroups, filter_cons.
  destruct (decide (keyFunc x = key)) as [<-|Hne].
  - rewrite lookup_insert_eq.
    destruct (groups0 !! keyFunc x) as [items|]; simpl.
    + by rewrite <-app_assoc.
    + done.
  - by rewrite lookup_insert_ne.
Qed.

(** The map that [GroupBySeq] builds from the sequence of a slice, and over
    which the sequence it returns ranges: it has a group for exactly the
    keys that [keyFunc] gives to an element; the group of a key holds the
    elements with that key, all of them, in the order of the slice; so no
    group is empty and every element is in the group of its key. *)
Theorem GroupBySeq_groups_by_key (l : list I) :
  ∃ groups,
    GroupBySeq_groups (Values l) keyFunc = Returned groups ∧
    (∀ key, groups !! key = if decide (items_of key l = []) then None
                            else Some (items_of key l)) ∧
    (∀ key items, groups !! key = Some items →
                  items ≠ [] ∧ ∀ x, x ∈ items ↔ x ∈ l ∧ keyFunc x = key) ∧
    (∀ x, x ∈ l → ∃ items, groups !! keyFunc x = Some items ∧ x ∈ items).
Proof.
  destruct (GroupBySeq_loop l ∅) as (groups & Hrun & Hgroups).
  assert (∀ key, groups !! key = if decide (items_of key l = []) then None
                                 else Some (items_of key l)) as Hkey.
  { intros key. by rewrite Hgroups, lookup_empty. }
  exists groups. split; [done|]. split; [done|]. split.
  - intros key items. rewrite Hkey. case_decide as Hnil; [done|].
    intros [= <-]. split; [done|]. intros x. rewrite list_elem_of_filter. tauto.
  - intros x Hx. exists (items_of (keyFunc x) l).
    assert (x ∈ items_of (keyFunc x) l) as Hin by (by apply list_elem_of_filter).
    split; [|done]. rewrite Hkey, decide_False; [done|].
    intros Hnil. rewrite Hnil in Hin. by apply elem_of_nil in Hin.
Qed.
End GroupByFacts.

Lemma FindIndexSeq_Ennumerate_count_from_zero_witness :
  (len [4; 5; 6]%Z ≤ MaxInt)%Z ∧
  FindIndexSeq (Values [4; 5; 6]%Z) (λ x, (5 <? x)%Z) = Returned (2%Z, true).
Proof.
  assert (len [4; 5; 6]%Z ≤ MaxInt)%Z as Hlen by (unfold len, MaxInt; simpl; lia).
  split; [exact Hlen|].
  apply (FindIndexSeq_Ennumerate_count_from_zero [4; 5; 6]%Z (λ x, (5 <? x)%Z) Hlen).
Defined.

End slicesutils.
